(** * Route-to-N flow accumulation (landlab, flow_accum_to_n.py)

    A shallow embedding of the five stages of the module:

      - [_make_number_of_donors_array_to_n]   donor counts,
      - [_make_delta_array_to_n]              CSR offsets,
      - [_make_array_of_donors_to_n]          flat donor lists,
      - [_DrainageStack_to_n.construct__stack] the set based traversal,
      - [find_drainage_area_and_discharge_to_n] the reverse accumulation,

    and of the two entry points [make_ordered_node_array_to_n] and
    [flow_accumulation_to_n].

    numpy integer arrays are [list Z], a 2-D array is a list of rows, a
    Python [set] of node ids is a [gset Z].  Exceptions and the possibly
    diverging [while] loop are made explicit in the [result] type.

    Float arrays are modelled twice.  In the main development they are
    [list Q]: exact rationals stand for the floats, and what is proved of the
    accumulated values there holds of the code up to rounding.  The module
    [Binary64] repeats the accumulator over the binary64 numbers numpy
    computes with (Rocq's primitive floats: IEEE 754 binary64, round to
    nearest even); it is used where rounding decides the answer. *)

From stdpp Require Import gmap list sorting.
From Stdlib Require Import QArith Qabs Lia Lqa Floats.

#[local] Set Warnings "-inexact-float".

Local Open Scope Z_scope.

(** ** Outcomes of a Python call *)

Inductive exn := ValueError | IndexError | AssertionError.

Inductive result (A : Type) : Type :=
| Ok (a : A)         (* normal return *)
| Raise (e : exn)    (* an exception propagates *)
| OutOfFuel.         (* the loop budget of the model is exhausted *)

Arguments Ok {A} a.
Arguments Raise {A} e.
Arguments OutOfFuel {A}.

#[global] Instance result_ret : MRet result := λ A a, Ok a.
#[global] Instance result_bind : MBind result := λ A B f m,
  match m with
  | Ok a => f a
  | Raise e => Raise e
  | OutOfFuel => OutOfFuel
  end.

(** [for x in xs: s = body x s], stopping at the first exception. *)
Fixpoint for_in {A S : Type} (xs : list A) (body : A → S → result S) (s : S)
  : result S :=
  match xs with
  | [] => Ok s
  | x :: xs' => s' ← body x s; for_in xs' body s'
  end.

(** [range(n)] as Python integers. *)
Definition range (n : nat) : list Z := Z.of_nat <$> seq 0 n.

(** ** Python / numpy indexing *)

(** An index [i] into a sequence of length [len]: negative indices count from
    the end, anything outside [-len, len) raises [IndexError]. *)
Definition py_index (len : nat) (i : Z) : result nat :=
  if decide (0 ≤ i < Z.of_nat len) then Ok (Z.to_nat i)
  else if decide (- Z.of_nat len ≤ i < 0) then Ok (Z.to_nat (Z.of_nat len + i))
  else Raise IndexError.

Definition getitem {A : Type} (l : list A) (i : Z) : result A :=
  k ← py_index (length l) i;
  match l !! k with
  | Some x => Ok x
  | None => Raise IndexError
  end.

Definition setitem {A : Type} (l : list A) (i : Z) (x : A) : result (list A) :=
  k ← py_index (length l) i; Ok (<[k:=x]> l).

(** [t[i, v]] on a 2-D array. *)
Definition getitem2 {A : Type} (t : list (list A)) (i v : Z) : result A :=
  row ← getitem t i; getitem row v.

(** A slice bound is clamped, never an error. *)
Definition slice_bound (len : nat) (i : Z) : nat :=
  if decide (i < 0) then Z.to_nat (Z.max 0 (Z.of_nat len + i))
  else Z.to_nat (Z.min i (Z.of_nat len)).

(** [l[a:b]] *)
Definition py_slice {A : Type} (l : list A) (a b : Z) : list A :=
  let lo := slice_bound (length l) a in
  let hi := slice_bound (length l) b in
  take (hi - lo) (drop lo l).

(** [a[idx] = x] for an index array [idx] (fancy assignment). *)
Definition setitems {A : Type} (l : list A) (idx : list Z) (x : A)
  : result (list A) :=
  for_in idx (λ k acc, setitem acc k x) l.

(** [t.shape] of a 2-D array held as a list of rows; an array without rows is
    given zero columns (every function below then behaves as numpy does on a
    [(0, q)] array). *)
Definition shape {A : Type} (t : list (list A)) : nat * nat :=
  (length t, match t with [] => 0%nat | row :: _ => length row end).

(** The rows of a numpy array all have the same length. *)
Definition ndarray2 {A : Type} (n q : nat) (t : list (list A)) : Prop :=
  length t = n ∧ Forall (λ row, length row = q) t.

(** [x > 0] on the rationals standing for floats. *)
Definition gt0 (x : Q) : bool :=
  match (0 ?= x)%Q with Lt => true | _ => false end.

(** ** numpy reductions used by the donor count *)

(** [numpy.amax]: no identity, so an empty array raises [ValueError]. *)
Definition amax (xs : list Z) : result Z :=
  match xs with
  | [] => Raise ValueError
  | x :: xs' => Ok (foldr Z.max x xs')
  end.

(** [xs[mask]] with a boolean mask of the same length. *)
Fixpoint mask_filter (xs : list Z) (mask : list bool) : list Z :=
  match xs, mask with
  | x :: xs', b :: mask' =>
      if b then x :: mask_filter xs' mask' else mask_filter xs' mask'
  | _, _ => []
  end.

Definition mask_select (xs : list Z) (mask : list bool) : result (list Z) :=
  if decide (length xs = length mask) then Ok (mask_filter xs mask)
  else Raise IndexError.

Definition count_occ_Z (v : Z) (xs : list Z) : Z :=
  Z.of_nat (length (filter (λ x, x = v) xs)).

(** [numpy.bincount]: a negative entry raises [ValueError]; the result has
    one bin per value up to the largest one, and no bin for an empty input. *)
Definition bincount (xs : list Z) : result (list Z) :=
  if decide (Forall (λ x, 0 ≤ x) xs) then
    match xs with
    | [] => Ok []
    | x :: xs' =>
        Ok ((λ v, count_occ_Z v xs) <$> range (Z.to_nat (foldr Z.max x xs' + 1)))
    end
  else Raise ValueError.

(** [nd[:k] = vals]: the value must have the length of the slice or length
    one (it is then broadcast); otherwise numpy raises [ValueError]. *)
Definition assign_prefix (nd : list Z) (k : Z) (vals : list Z)
  : result (list Z) :=
  let n := slice_bound (length nd) k in
  if decide (length vals = n) then Ok (vals ++ drop n nd)
  else match vals with
       | [c] => Ok (replicate n c ++ drop n nd)
       | _ => Raise ValueError
       end.

(** ** Stage 1: donor counts *)

Definition _make_number_of_donors_array_to_n
    (r : list (list Z)) (p : list (list Q)) : result (list Z) :=
  let nd := replicate (fst (shape r)) 0 in
  max_index ← amax (concat r);
  (* filter r based on p and flatten *)
  r_filter_flat ← mask_select (concat r) (gt0 <$> concat p);
  counts ← bincount r_filter_flat;
  assign_prefix nd (max_index + 1) counts.

(** ** Stage 2: offsets *)

Fixpoint cumsum_from (acc : Z) (xs : list Z) : list Z :=
  match xs with
  | [] => []
  | x :: xs' => (acc + x) :: cumsum_from (acc + x) xs'
  end.

Definition cumsum : list Z → list Z := cumsum_from 0.

Definition sum (xs : list Z) : Z := foldr Z.add 0 xs.

Definition _make_delta_array_to_n (nd : list Z) : list Z :=
  let nt := sum nd in
  let np := length nd in
  (* delta = zeros(np+1); delta.fill(nt); delta[-2::-1] -= cumsum(nd[::-1]) *)
  reverse (zip_with Z.sub (replicate np nt) (cumsum (reverse nd))) ++ [nt].

(** ** Stage 3: donor lists *)

(** The loop state: the write cursors [w], the array [D], and (ghost) the
    log of the writes [D[ind] = i] as triples (receiver [ri], index [ind],
    value [i]). *)
Record donors_state := DonorsState {
  ds_w : list Z;
  ds_D : list Z;
  ds_log : list (Z * Z * Z)
}.

Definition donors_body (r : list (list Z)) (p : list (list Q)) (delta : list Z)
    (v i : Z) (st : donors_state) : result donors_state :=
  ri ← getitem2 r i v;
  pr ← getitem2 p i v;
  if gt0 pr then
    d ← getitem delta ri;
    c ← getitem (ds_w st) ri;
    let ind := d + c in
    D' ← setitem (ds_D st) ind i;
    w' ← setitem (ds_w st) ri (c + 1);
    Ok (DonorsState w' D' (ds_log st ++ [(ri, ind, i)]))
  else Ok st.

Definition _make_array_of_donors_to_n_log
    (r : list (list Z)) (p : list (list Q)) (delta : list Z)
  : result donors_state :=
  let '(np, q) := shape r in
  nt ← getitem delta (-1);
  if decide (nt < 0) then Raise ValueError else
  let w := replicate np 0 in
  let D := replicate (Z.to_nat nt) 0 in
  for_in (range q) (λ v st,
    for_in (range np) (λ i st, donors_body r p delta v i st) st)
    (DonorsState w D []).

Definition _make_array_of_donors_to_n
    (r : list (list Z)) (p : list (list Q)) (delta : list Z)
  : result (list Z) :=
  st ← _make_array_of_donors_to_n_log r p delta; Ok (ds_D st).

(** ** Stage 4: the drainage stack *)

(** [D[delta[node_i]:delta[node_i+1]]] *)
Definition donors_of (delta D : list Z) (node_i : Z) : result (list Z) :=
  a ← getitem delta node_i;
  b ← getitem delta (node_i + 1);
  Ok (py_slice D a b).

(** [upstream = set(); for node_i in base: upstream.update(D[...])] *)
Definition collect_upstream (delta D : list Z) (base : gset Z)
  : result (gset Z) :=
  for_in (elements base)
    (λ node_i upstream,
       ds ← donors_of delta D node_i; Ok (upstream ∪ list_to_set ds))
    ∅.

(** The [while len(upstream) > 0] loop.  [fuel] bounds the number of rounds
    the model may run; a loop that needs more yields [OutOfFuel]. *)
Fixpoint stack_loop (fuel : nat) (delta D : list Z)
    (i : Z) (visit_time : list Z) (base upstream : gset Z)
  : result (list Z) :=
  if decide (0 < size upstream)%nat then
    match fuel with
    | O => OutOfFuel
    | S fuel' =>
        let i := i + 1 in
        upstream ← collect_upstream delta D base;
        let visited := base ∖ upstream in
        visit_time ← setitems visit_time (elements visited) i;
        let base := (base ∖ visited) ∪ upstream in
        stack_loop fuel' delta D i visit_time base upstream
    end
  else Ok visit_time.

(** [construct__stack] up to the last statement: the visit times.  The visit
    times are the floats -1.0, 0.0, 1.0, ..., held here as integers. *)
Definition construct__stack_visit_time (fuel : nat) (delta D : list Z)
    (l : list Z) : result (list Z) :=
  let base : gset Z := list_to_set l in
  let i := 0 in
  if decide (length delta = 0%nat) then Raise ValueError else
  let visit_time := replicate (length delta - 1) (-1) in
  upstream ← collect_upstream delta D base;
  visit_time ← setitems visit_time (elements base) i;
  let base := upstream ∖ base in
  stack_loop fuel delta D i visit_time base upstream.

(** *** [numpy.argsort] *)

Definition key (visit_time : list Z) (n : Z) : Z :=
  default 0 (visit_time !! Z.to_nat n).

(** What every [numpy.argsort] guarantees: the result lists each index once
    and the keys along it do not decrease.  The default sort kind is not
    stable, so the order among equal keys is not part of the contract. *)
Definition is_argsort (visit_time : list Z) (s : list Z) : Prop :=
  s ≡ₚ range (length visit_time) ∧
  StronglySorted (λ a b, key visit_time a ≤ key visit_time b) s.

(** The executable instance: insertion sort, which is what numpy's default
    sort runs on arrays of at most 16 elements; equal keys keep the order of
    their indices. *)
Fixpoint insert_by (visit_time : list Z) (x : Z) (s : list Z) : list Z :=
  match s with
  | [] => [x]
  | y :: s' =>
      if decide (key visit_time x ≤ key visit_time y) then x :: y :: s'
      else y :: insert_by visit_time x s'
  end.

Definition argsort (visit_time : list Z) : list Z :=
  foldr (insert_by visit_time) [] (range (length visit_time)).

Definition construct__stack (fuel : nat) (delta D : list Z) (l : list Z)
  : result (list Z) :=
  visit_time ← construct__stack_visit_time fuel delta D l;
  (* the stack is the argsort of visit time *)
  Ok (argsort visit_time).

(** ** The ordering entry point *)

(** [numpy.where(node_id == receiver_nodes[:,0])[0]] *)
Definition baselevel_of (receiver_nodes : list (list Z)) : result (list Z) :=
  col0 ← for_in receiver_nodes (λ row acc, x ← getitem row 0; Ok (acc ++ [x])) [];
  Ok (fst <$> filter (λ nx, nx.1 = nx.2)
                (zip (range (length receiver_nodes)) col0)).

Definition ordered_visit_time (fuel : nat)
    (receiver_nodes : list (list Z)) (receiver_proportion : list (list Q))
  : result (list Z) :=
  baselevel_nodes ← baselevel_of receiver_nodes;
  nd ← _make_number_of_donors_array_to_n receiver_nodes receiver_proportion;
  let delta := _make_delta_array_to_n nd in
  D ← _make_array_of_donors_to_n receiver_nodes receiver_proportion delta;
  construct__stack_visit_time fuel delta D baselevel_nodes.

Definition make_ordered_node_array_to_n (fuel : nat)
    (receiver_nodes : list (list Z)) (receiver_proportion : list (list Q))
  : result (list Z) :=
  baselevel_nodes ← baselevel_of receiver_nodes;
  nd ← _make_number_of_donors_array_to_n receiver_nodes receiver_proportion;
  let delta := _make_delta_array_to_n nd in
  D ← _make_array_of_donors_to_n receiver_nodes receiver_proportion delta;
  construct__stack fuel delta D baselevel_nodes.

(** [s] is an order the call may return: the argsort of the visit times the
    traversal computes, with any order among equal visit times. *)
Definition returns_order (fuel : nat)
    (receiver_nodes : list (list Z)) (receiver_proportion : list (list Q))
    (s : list Z) : Prop :=
  ∃ visit_time,
    ordered_visit_time fuel receiver_nodes receiver_proportion = Ok visit_time
    ∧ is_argsort visit_time s.

(** ** Stage 5: the accumulator *)

(** A [float or ndarray] argument. *)
Inductive float_or_ndarray := Float (x : Q) | Ndarray (xs : list Q).

(** numpy broadcasting of an elementwise operation on scalars and 1-D
    arrays. *)
Definition np_binop (f : Q → Q → Q) (a b : float_or_ndarray)
  : result float_or_ndarray :=
  match a, b with
  | Float x, Float y => Ok (Float (f x y))
  | Float x, Ndarray ys => Ok (Ndarray (f x <$> ys))
  | Ndarray xs, Float y => Ok (Ndarray ((λ x, f x y) <$> xs))
  | Ndarray xs, Ndarray ys =>
      if decide (length xs = length ys) then Ok (Ndarray (zip_with f xs ys))
      else match xs, ys with
           | _, [y] => Ok (Ndarray ((λ x, f x y) <$> xs))
           | [x], _ => Ok (Ndarray (f x <$> ys))
           | _, _ => Raise ValueError
           end
  end.

Definition zeros_plus (np : nat) (a : float_or_ndarray) : result (list Q) :=
  x ← np_binop Qplus (Ndarray (replicate np 0%Q)) a;
  match x with
  | Ndarray xs => Ok xs
  | Float c => Ok [c]
  end.

(** [a[recvr] += proportion * a[donor]] *)
Definition add_share (a : list Q) (recvr donor : Z) (proportion : Q)
  : result (list Q) :=
  x ← getitem a recvr;
  y ← getitem a donor;
  setitem a recvr (x + proportion * y)%Q.

Definition accumulate_body (r : list (list Z)) (p : list (list Q))
    (donor v : Z) (st : list Q * list Q) : result (list Q * list Q) :=
  let '(drainage_area, discharge) := st in
  recvr ← getitem2 r donor v;
  proportion ← getitem2 p donor v;
  if gt0 proportion then
    if decide (donor ≠ recvr) then
      drainage_area ← add_share drainage_area recvr donor proportion;
      discharge ← add_share discharge recvr donor proportion;
      Ok (drainage_area, discharge)
    else Ok st
  else Ok st.

Definition find_drainage_area_and_discharge_to_n
    (s : list Z) (r : list (list Z)) (p : list (list Q))
    (node_cell_area runoff : float_or_ndarray)
    (boundary_nodes : option (list Z)) : result (list Q * list Q) :=
  let '(np, q) := shape r in
  drainage_area ← zeros_plus np node_cell_area;
  local ← np_binop Qmult node_cell_area runoff;
  discharge ← zeros_plus np local;
  '(drainage_area, discharge) ←
    match boundary_nodes with
    | Some bn =>
        drainage_area ← setitems drainage_area bn 0%Q;
        discharge ← setitems discharge bn 0%Q;
        Ok (drainage_area, discharge)
    | None => Ok (drainage_area, discharge)
    end;
  for_in (reverse (range np)) (λ i st,
    donor ← getitem s i;
    for_in (range q) (λ v st, accumulate_body r p donor v st) st)
    (drainage_area, discharge).

(** ** The main entry point *)

Definition flow_accumulation_to_n (fuel : nat)
    (receiver_nodes : list (list Z)) (receiver_proportions : list (list Q))
    (node_cell_area runoff_rate : float_or_ndarray)
    (boundary_nodes : option (list Z))
  : result (list Q * list Q * list Z) :=
  if decide (shape receiver_nodes = shape receiver_proportions) then
    s ← make_ordered_node_array_to_n fuel receiver_nodes receiver_proportions;
    '(a, q) ← find_drainage_area_and_discharge_to_n
                s receiver_nodes receiver_proportions
                node_cell_area runoff_rate boundary_nodes;
    Ok (a, q, s)
  else Raise AssertionError.

(** ** Stage 5 in binary64 *)

(** The accumulator once more, over the float64 arrays of numpy: the same
    statements, with every [+] and [*] rounded to binary64.  The stages that
    compute the order read the proportions only through [p > 0] and work on
    integers and sets, so they have no second version. *)
Module Binary64.

(** [x > 0] on binary64 (false for a NaN). *)
Definition gt0 (x : float) : bool := (0 <? x)%float.

(** A [float or ndarray] argument. *)
Inductive float_or_ndarray := Float (x : float) | Ndarray (xs : list float).

Definition np_binop (f : float → float → float) (a b : float_or_ndarray)
  : result float_or_ndarray :=
  match a, b with
  | Float x, Float y => Ok (Float (f x y))
  | Float x, Ndarray ys => Ok (Ndarray (f x <$> ys))
  | Ndarray xs, Float y => Ok (Ndarray ((λ x, f x y) <$> xs))
  | Ndarray xs, Ndarray ys =>
      if decide (length xs = length ys) then Ok (Ndarray (zip_with f xs ys))
      else match xs, ys with
           | _, [y] => Ok (Ndarray ((λ x, f x y) <$> xs))
           | [x], _ => Ok (Ndarray (f x <$> ys))
           | _, _ => Raise ValueError
           end
  end.

Definition zeros_plus (np : nat) (a : float_or_ndarray) : result (list float) :=
  x ← np_binop PrimFloat.add (Ndarray (replicate np 0%float)) a;
  match x with
  | Ndarray xs => Ok xs
  | Float c => Ok [c]
  end.

(** [a[recvr] += proportion * a[donor]]: the product is rounded, then the
    sum. *)
Definition add_share (a : list float) (recvr donor : Z) (proportion : float)
  : result (list float) :=
  x ← getitem a recvr;
  y ← getitem a donor;
  setitem a recvr (x + proportion * y)%float.

Definition accumulate_body (r : list (list Z)) (p : list (list float))
    (donor v : Z) (st : list float * list float)
  : result (list float * list float) :=
  let '(drainage_area, discharge) := st in
  recvr ← getitem2 r donor v;
  proportion ← getitem2 p donor v;
  if gt0 proportion then
    if decide (donor ≠ recvr) then
      drainage_area ← add_share drainage_area recvr donor proportion;
      discharge ← add_share discharge recvr donor proportion;
      Ok (drainage_area, discharge)
    else Ok st
  else Ok st.

Definition find_drainage_area_and_discharge_to_n
    (s : list Z) (r : list (list Z)) (p : list (list float))
    (node_cell_area runoff : float_or_ndarray)
    (boundary_nodes : option (list Z)) : result (list float * list float) :=
  let '(np, q) := shape r in
  drainage_area ← zeros_plus np node_cell_area;
  local ← np_binop PrimFloat.mul node_cell_area runoff;
  discharge ← zeros_plus np local;
  '(drainage_area, discharge) ←
    match boundary_nodes with
    | Some bn =>
        drainage_area ← setitems drainage_area bn 0%float;
        discharge ← setitems discharge bn 0%float;
        Ok (drainage_area, discharge)
    | None => Ok (drainage_area, discharge)
    end;
  for_in (reverse (range np)) (λ i st,
    donor ← getitem s i;
    for_in (range q) (λ v st, accumulate_body r p donor v st) st)
    (drainage_area, discharge).

(** *** Between binary64 and the rationals *)

(** An integer below 2^53 in absolute value, as the binary64 number it is. *)
Definition of_Z (z : Z) : float :=
  match z with
  | Z0 => 0%float
  | Zpos _ => PrimFloat.of_uint63 (Uint63.of_Z z)
  | Zneg m => (- PrimFloat.of_uint63 (Uint63.of_Z (Zpos m)))%float
  end.

(** The binary64 number nearest to the rational [x], for a numerator and a
    denominator below 2^53: their quotient, rounded once.  It is the number
    Python reads from a decimal literal of that value. *)
Definition of_Q (x : Q) : float := (of_Z (Qnum x) / of_Z (Zpos (Qden x)))%float.

(** The rational that a finite binary64 number is. *)
Definition to_Q (x : float) : option Q :=
  match Prim2SF x with
  | S754_zero _ => Some 0%Q
  | S754_finite sign m e =>
      Some (Qred ((if sign then -1 else 1) * inject_Z (Zpos m) * 2 ^ e)%Q)
  | S754_infinity _ | S754_nan => None
  end.

End Binary64.

(** The reference tables of the module's doctests. *)
Definition r_ref : list (list Z) :=
  [[1; 2]; [4; 5]; [1; 5]; [6; 2]; [4; -1];
   [4; -1]; [5; 7]; [4; 5]; [6; 7]; [7; 8]].

Definition p_ref : list (list Q) :=
  [[ 6#10;  4#10]; [85#100; 15#100]; [65#100; 35#100]; [ 9#10;  1#10];
   [ 1#1 ;  0#1 ]; [ 1#1  ;  0#1  ]; [75#100; 25#100]; [55#100; 45#100];
   [ 8#10;  2#10]; [95#100;  5#100]]%Q.

(** The proportions as numpy holds them: the binary64 numbers read from the
    decimal literals of the doctest. *)
Definition p_ref_binary64 : list (list float) :=
  [[0.6 ; 0.4 ]; [0.85; 0.15]; [0.65; 0.35]; [0.9 ; 0.1 ];
   [1   ; 0   ]; [1   ; 0   ]; [0.75; 0.25]; [0.55; 0.45];
   [0.8 ; 0.2 ]; [0.95; 0.05]]%float.

Example p_ref_binary64_nearest :
  p_ref_binary64 = (λ row : list Q, Binary64.of_Q <$> row) <$> p_ref.
Proof. vm_compute. reflexivity. Qed.

Example p_ref_binary64_positive :
  (λ row : list float, Binary64.gt0 <$> row) <$> p_ref_binary64
  = (λ row : list Q, gt0 <$> row) <$> p_ref.
Proof. vm_compute. reflexivity. Qed.

Example nd_ref :
  _make_number_of_donors_array_to_n r_ref p_ref
  = Ok [0; 2; 2; 0; 4; 4; 2; 3; 1; 0].
Proof. vm_compute. reflexivity. Qed.

Example delta_ref :
  _make_delta_array_to_n [0; 2; 2; 0; 4; 4; 2; 3; 1; 0]
  = [0; 0; 2; 4; 4; 8; 12; 14; 17; 18; 18].
Proof. reflexivity. Qed.

Example D_ref :
  _make_array_of_donors_to_n r_ref p_ref
    [0; 0; 2; 4; 4; 8; 12; 14; 17; 18; 18]
  = Ok [0; 2; 0; 3; 1; 4; 5; 7; 6; 1; 2; 7; 3; 8; 9; 6; 8; 9].
Proof. vm_compute. reflexivity. Qed.

Example s_ref :
  make_ordered_node_array_to_n 10 r_ref p_ref = Ok [4; 5; 1; 7; 2; 6; 0; 3; 8; 9].
Proof. vm_compute. reflexivity. Qed.


(** * General facts about the primitives *)

Section primitives.
Context {A : Type}.
Implicit Types (l : list A) (i : Z) (x : A).

Lemma py_index_nonneg (len : nat) i :
  0 ≤ i < Z.of_nat len → py_index len i = Ok (Z.to_nat i).
Proof. intros H. unfold py_index. by rewrite decide_True. Qed.

Lemma py_index_Ok (len : nat) i k :
  py_index len i = Ok k → (k < len)%nat.
Proof.
  unfold py_index. repeat case_decide; intros [= <-]; lia.
Qed.

Lemma getitem_nonneg l i x :
  0 ≤ i → l !! Z.to_nat i = Some x → getitem l i = Ok x.
Proof.
  intros Hi Hx. unfold getitem.
  rewrite py_index_nonneg; [simpl; by rewrite Hx|].
  apply lookup_lt_Some in Hx. lia.
Qed.

Lemma getitem_in_range l i :
  0 ≤ i < Z.of_nat (length l) → ∃ x, getitem l i = Ok x ∧ l !! Z.to_nat i = Some x.
Proof.
  intros Hi. destruct (lookup_lt_is_Some_2 l (Z.to_nat i)) as [x Hx]; [lia|].
  exists x. split; [|done]. apply getitem_nonneg; [lia|done].
Qed.

Lemma getitem_Ok_nonneg l i x :
  0 ≤ i → getitem l i = Ok x → l !! Z.to_nat i = Some x.
Proof.
  intros Hi. unfold getitem, py_index.
  repeat case_decide; simpl; try lia; try done.
  destruct (l !! Z.to_nat i); [by intros [= ->]|done].
Qed.

Lemma setitem_nonneg l i x :
  0 ≤ i < Z.of_nat (length l) → setitem l i x = Ok (<[Z.to_nat i:=x]> l).
Proof. intros Hi. unfold setitem. by rewrite py_index_nonneg. Qed.

Lemma setitem_length l i x l' : setitem l i x = Ok l' → length l' = length l.
Proof.
  unfold setitem. destruct (py_index (length l) i); simpl; [|done..].
  intros [= <-]. apply length_insert.
Qed.
End primitives.

Lemma bind_Ok {A B : Type} (m : result A) (f : A → result B) (b : B) :
  (m ≫= f) = Ok b ↔ ∃ a, m = Ok a ∧ f a = Ok b.
Proof.
  destruct m; simpl; split; try done; try (by intros (? & ? & ?)).
  - eauto.
  - by intros (? & [= ->] & ?).
Qed.

(** Invariant rule for [for_in]: the invariant may mention the part of the
    list already processed. *)
Lemma for_in_invariant {A S : Type} (I : list A → S → Prop)
    (xs : list A) (body : A → S → result S) (s : S) :
  I [] s →
  (∀ pre x post s, xs = pre ++ x :: post → I pre s →
     ∃ s', body x s = Ok s' ∧ I (pre ++ [x]) s') →
  ∃ s', for_in xs body s = Ok s' ∧ I xs s'.
Proof.
  intros H0 Hstep.
  cut (∀ post pre s, xs = pre ++ post → I pre s →
         ∃ s', for_in post body s = Ok s' ∧ I xs s').
  { intros Hc. by apply (Hc xs []). }
  induction post as [|x post IH]; intros pre s0 Hxs Hpre.
  - exists s0. rewrite app_nil_r in Hxs. by subst.
  - destruct (Hstep pre x post s0 Hxs Hpre) as (s1 & Hb & Hs1).
    simpl. rewrite Hb. simpl. apply (IH (pre ++ [x])); [|done].
    by rewrite <- app_assoc.
Qed.

Lemma for_in_Ok_invariant {A S : Type} (I : S → Prop)
    (xs : list A) (body : A → S → result S) (s s' : S) :
  I s → (∀ x s s', x ∈ xs → I s → body x s = Ok s' → I s') →
  for_in xs body s = Ok s' → I s'.
Proof.
  revert s. induction xs as [|x xs IH]; intros s Hs Hstep; cbn [for_in].
  - by intros [= <-].
  - intros (s1 & Hb & Hrest)%bind_Ok.
    apply (IH s1); [|intros; eapply Hstep; eauto; by right|done].
    eapply Hstep; [by left|done..].
Qed.

Lemma range_length n : length (range n) = n.
Proof. unfold range. by rewrite length_fmap, length_seq. Qed.

Lemma elem_of_range n x : x ∈ range n ↔ 0 ≤ x < Z.of_nat n.
Proof.
  unfold range. rewrite list_elem_of_fmap. split.
  - intros (k & -> & Hk%elem_of_seq). lia.
  - intros H. exists (Z.to_nat x). split; [lia|]. apply elem_of_seq. lia.
Qed.

Lemma range_lookup n (k : nat) : (k < n)%nat → range n !! k = Some (Z.of_nat k).
Proof.
  intros H. unfold range. rewrite list_lookup_fmap, lookup_seq_lt; [done|lia].
Qed.

Lemma NoDup_range n : NoDup (range n).
Proof.
  unfold range. apply NoDup_fmap_2; [|apply NoDup_seq]. intros ???; lia.
Qed.

Lemma gt0_spec (x : Q) : gt0 x = true ↔ (0 < x)%Q.
Proof.
  unfold gt0. rewrite Qlt_alt. destruct (0 ?= x)%Q; split; congruence.
Qed.

Lemma setitems_length {A} (l : list A) idx x l' :
  setitems l idx x = Ok l' → length l' = length l.
Proof.
  unfold setitems. intros H.
  eapply (for_in_Ok_invariant (λ l', length l' = length l)); [done| |done].
  simpl. intros k l1 l2 _ Hl1 Hset. apply setitem_length in Hset. congruence.
Qed.

Lemma setitems_valid {A} (l : list A) (idx : list Z) (x : A) :
  Forall (λ k, 0 ≤ k < Z.of_nat (length l)) idx →
  ∃ l', setitems l idx x = Ok l' ∧ length l' = length l ∧
        ∀ k : nat, (Z.of_nat k ∈ idx → (k < length l)%nat → l' !! k = Some x) ∧
                   (Z.of_nat k ∉ idx → l' !! k = l !! k).
Proof.
  intros Hidx. unfold setitems.
  destruct (for_in_invariant
    (λ pre l', length l' = length l ∧
       ∀ k : nat, (Z.of_nat k ∈ pre → (k < length l)%nat → l' !! k = Some x) ∧
                  (Z.of_nat k ∉ pre → l' !! k = l !! k))
    idx (λ k acc, setitem acc k x) l) as (l' & Hl' & Hlen & Hk).
  - split; [done|]. intros k. split; [by intros ?%elem_of_nil|done].
  - intros pre j post l1 -> (Hlen & Hk).
    rewrite Forall_app, Forall_cons in Hidx. destruct Hidx as (_ & Hj & _).
    exists (<[Z.to_nat j:=x]> l1). split; [apply setitem_nonneg; lia|].
    split; [by rewrite length_insert|]. intros k.
    destruct (decide (Z.to_nat j = k)) as [<-|Hne].
    + split.
      * intros _ ?. apply list_lookup_insert_eq. lia.
      * intros Hn. exfalso. apply Hn. apply elem_of_app. right.
        apply list_elem_of_singleton. lia.
    + rewrite list_lookup_insert_ne by done. split.
      * intros [?|?%list_elem_of_singleton]%elem_of_app ?; [by apply Hk|lia].
      * intros Hn. apply Hk. intros ?. apply Hn, elem_of_app. by left.
  - by exists l'.
Qed.

(** * The flow graph read off the tables *)

(** Slot [v] of node [i] holds receiver [x] with proportion [pr]. *)
Definition entry (r : list (list Z)) (p : list (list Q))
    (i v : nat) (x : Z) (pr : Q) : Prop :=
  ∃ row prow, r !! i = Some row ∧ p !! i = Some prow ∧
              row !! v = Some x ∧ prow !! v = Some pr.

(** [edge r p u x]: node [u] sends a positive proportion of its flow to [x]
    (so [u] is a donor of [x]). *)
Definition edge (r : list (list Z)) (p : list (list Q)) (u x : Z) : Prop :=
  0 ≤ u ∧ ∃ v pr, entry r p (Z.to_nat u) v x pr ∧ (0 < pr)%Q.

(** The base-level nodes: [r[b, 0] == b]. *)
Definition is_base (r : list (list Z)) (b : Z) : Prop :=
  0 ≤ b ∧ ∃ row, r !! Z.to_nat b = Some row ∧ row !! 0%nat = Some b.

#[global] Instance is_base_dec r b : Decision (is_base r b).
Proof.
  unfold is_base.
  destruct (decide (0 ≤ b)) as [Hb|Hb]; [|right; tauto].
  destruct (r !! Z.to_nat b) as [row|] eqn:Hrow.
  - destruct (decide (row !! 0%nat = Some b)) as [H0|H0].
    + left. eauto.
    + right. intros (_ & row' & [= <-] & ?). done.
  - right. intros (_ & row' & [=] & ?).
Defined.

(** Well-formed tables: both of shape [n × q], every receiver that carries a
    positive proportion is a node id. *)
Record tables_ok (n q : nat) (r : list (list Z)) (p : list (list Q)) : Prop := {
  ok_r : ndarray2 n q r;
  ok_p : ndarray2 n q p;
  ok_recv : ∀ i v x pr, entry r p i v x pr → (0 < pr)%Q → 0 ≤ x < Z.of_nat n
}.

(** Slots that carry no flow hold the "no receiver" sentinel [-1]. *)
Definition sentinel_ok (r : list (list Z)) (p : list (list Q)) : Prop :=
  ∀ i v x pr, entry r p i v x pr → ¬ (0 < pr)%Q → x = -1.

(** A base-level node is a terminus: it sends flow to no other node. *)
Definition base_terminal (r : list (list Z)) (p : list (list Q)) : Prop :=
  ∀ b x, is_base r b → edge r p b x → x = b.

(** The only self-loops are those of base-level nodes. *)
Definition self_loops_at_base (r : list (list Z)) (p : list (list Q)) : Prop :=
  ∀ u, edge r p u u → is_base r u.

(** Acyclic apart from base-level self-loops. *)
Definition acyclic (r : list (list Z)) (p : list (list Q)) : Prop :=
  self_loops_at_base r p ∧ ∀ u, ¬ tc (λ a b, edge r p a b ∧ a ≠ b) u u.

(** [v] has a path of positive-proportion edges down to a base-level node. *)
Definition drains_to_base (r : list (list Z)) (p : list (list Q)) (v : Z) : Prop :=
  ∃ b, is_base r b ∧ rtc (edge r p) v b.

Section tables.
Context {n q : nat} {r : list (list Z)} {p : list (list Q)}.
Context (Hok : tables_ok n q r p).

Lemma getitem2_entry (d v : Z) :
  0 ≤ d < Z.of_nat n → 0 ≤ v < Z.of_nat q →
  ∃ x pr, getitem2 r d v = Ok x ∧ getitem2 p d v = Ok pr ∧
          entry r p (Z.to_nat d) (Z.to_nat v) x pr.
Proof.
  intros Hd Hv. destruct Hok as [[Hrn Hrq] [Hpn Hpq] _].
  destruct (lookup_lt_is_Some_2 r (Z.to_nat d)) as [row Hrow]; [lia|].
  destruct (lookup_lt_is_Some_2 p (Z.to_nat d)) as [prow Hprow]; [lia|].
  pose proof (Forall_lookup_1 _ _ _ _ Hrq Hrow) as Hlr.
  pose proof (Forall_lookup_1 _ _ _ _ Hpq Hprow) as Hlp. simpl in *.
  destruct (lookup_lt_is_Some_2 row (Z.to_nat v)) as [x Hx]; [lia|].
  destruct (lookup_lt_is_Some_2 prow (Z.to_nat v)) as [pr Hpr]; [lia|].
  exists x, pr. unfold getitem2.
  rewrite (getitem_nonneg r d row), (getitem_nonneg p d prow) by (done || lia).
  simpl. rewrite (getitem_nonneg row v x), (getitem_nonneg prow v pr) by (done || lia).
  repeat split; try done. by exists row, prow.
Qed.

Lemma shape_ok : shape r = (n, q) ∨ (n = 0%nat ∧ shape r = (0%nat, 0%nat)).
Proof.
  destruct Hok as [[Hrn Hrq] _ _]. unfold shape. destruct r as [|row r'].
  - right. simpl in *. by subst.
  - left. apply Forall_cons in Hrq as [Hq _]. simpl in *. by subst.
Qed.
End tables.

(** * The accumulator *)

Definition at_ (a : list Q) (v : nat) : Q := default 0%Q (a !! v).

(** The cell area the caller gives for node [v]. *)
Definition cell_area_at (a : float_or_ndarray) (v : nat) : Q :=
  match a with
  | Float c => c
  | Ndarray xs => at_ xs v
  end.

(** "If it's an array, must have same length as s". *)
Definition size_ok (n : nat) (a : float_or_ndarray) : Prop :=
  match a with
  | Float _ => True
  | Ndarray xs => length xs = n
  end.

(** [boundary_nodes], when given, are node ids. *)
Definition boundary_ok (n : nat) (bn : option (list Z)) : Prop :=
  match bn with
  | None => True
  | Some l => Forall (λ k, 0 ≤ k < Z.of_nat n) l
  end.

Definition masked (bn : option (list Z)) (v : nat) : Prop :=
  match bn with
  | None => False
  | Some l => Z.of_nat v ∈ l
  end.

#[global] Instance masked_dec bn v : Decision (masked bn v).
Proof. destruct bn; simpl; apply _. Defined.

(** The seed of node [v]: its cell area, or zero when boundary-masked. *)
Definition seed (area : float_or_ndarray) (bn : option (list Z)) (v : nat) : Q :=
  if decide (masked bn v) then 0%Q else cell_area_at area v.

Lemma at_lookup (a : list Q) (v : nat) x : a !! v = Some x → at_ a v = x.
Proof. unfold at_. by intros ->. Qed.

Lemma at_insert_eq (a : list Q) (k : nat) x :
  (k < length a)%nat → at_ (<[k:=x]> a) k = x.
Proof. intros H. unfold at_. by rewrite list_lookup_insert_eq. Qed.

Lemma at_insert_ne (a : list Q) (k v : nat) x :
  k ≠ v → at_ (<[k:=x]> a) v = at_ a v.
Proof. intros H. unfold at_. by rewrite list_lookup_insert_ne. Qed.

Lemma zeros_plus_spec (n : nat) (a : float_or_ndarray) :
  size_ok n a →
  ∃ xs, zeros_plus n a = Ok xs ∧ length xs = n ∧
        ∀ v, (v < n)%nat → (at_ xs v == cell_area_at a v)%Q.
Proof.
  intros Hsz. destruct a as [c|ys]; simpl in *.
  - eexists. split; [done|]. split; [by rewrite length_fmap, length_replicate|].
    intros v Hv. unfold at_.
    rewrite list_lookup_fmap, lookup_replicate_2 by done. simpl. ring.
  - unfold zeros_plus. simpl. rewrite length_replicate, decide_True by done. simpl.
    eexists. split; [done|].
    split; [rewrite length_zip_with, length_replicate; lia|].
    intros v Hv. unfold at_.
    destruct (lookup_lt_is_Some_2 ys v) as [y Hy]; [lia|].
    rewrite lookup_zip_with, lookup_replicate_2, Hy by done. simpl. ring.
Qed.

Lemma np_binop_size_ok (n : nat) f (a b : float_or_ndarray) :
  size_ok n a → size_ok n b → ∃ c, np_binop f a b = Ok c ∧ size_ok n c.
Proof.
  destruct a as [x|xs], b as [y|ys]; simpl; intros Ha Hb.
  - eauto.
  - eexists. split; [done|]. simpl. by rewrite length_fmap.
  - eexists. split; [done|]. simpl. by rewrite length_fmap.
  - rewrite decide_True by congruence. eexists. split; [done|]. simpl.
    rewrite length_zip_with. lia.
Qed.

Lemma add_share_spec (a : list Q) (recvr donor : Z) (pr : Q) :
  0 ≤ recvr < Z.of_nat (length a) → 0 ≤ donor < Z.of_nat (length a) →
  add_share a recvr donor pr
  = Ok (<[Z.to_nat recvr := (at_ a (Z.to_nat recvr)
                             + pr * at_ a (Z.to_nat donor))%Q]> a).
Proof.
  intros Hr Hd. unfold add_share.
  destruct (getitem_in_range a recvr Hr) as (x & -> & Hx).
  destruct (getitem_in_range a donor Hd) as (y & -> & Hy). simpl.
  rewrite setitem_nonneg by done.
  by rewrite (at_lookup _ _ _ Hx), (at_lookup _ _ _ Hy).
Qed.

(** One slot of one donor: either nothing happens or both fields receive the
    donor's share at the receiver. *)
Lemma accumulate_body_spec (n q : nat) r p (d v : Z) (a dq : list Q) :
  tables_ok n q r p →
  0 ≤ d < Z.of_nat n → 0 ≤ v < Z.of_nat q → length a = n → length dq = n →
  ∃ x pr, entry r p (Z.to_nat d) (Z.to_nat v) x pr ∧
    (((0 < pr)%Q ∧ x ≠ d ∧ 0 ≤ x < Z.of_nat n ∧
      accumulate_body r p d v (a, dq)
      = Ok (<[Z.to_nat x := (at_ a (Z.to_nat x) + pr * at_ a (Z.to_nat d))%Q]> a,
            <[Z.to_nat x := (at_ dq (Z.to_nat x) + pr * at_ dq (Z.to_nat d))%Q]> dq))
     ∨ ((¬ (0 < pr)%Q ∨ x = d) ∧ accumulate_body r p d v (a, dq) = Ok (a, dq))).
Proof.
  intros Hok Hd Hv Ha Hdq.
  destruct (getitem2_entry Hok d v Hd Hv) as (x & pr & Hgr & Hgp & Hent).
  exists x, pr. split; [done|]. unfold accumulate_body. rewrite Hgr, Hgp. simpl.
  destruct (gt0 pr) eqn:Hpos.
  - apply gt0_spec in Hpos. pose proof (ok_recv _ _ _ _ Hok _ _ _ _ Hent Hpos) as Hx.
    case_decide as Hne.
    + left. repeat split; try done; try lia.
      rewrite !add_share_spec by lia. done.
    + right. split; [|done]. right. by destruct (decide (x = d)); [|congruence].
  - right. split; [|done]. left. rewrite <- gt0_spec. congruence.
Qed.

(** The two fields as they stand when the reverse walk starts. *)
Lemma seeding_spec (n : nat) (area runoff : float_or_ndarray) bn :
  size_ok n area → size_ok n runoff → boundary_ok n bn →
  ∃ a1 local q1 a0 q0,
    zeros_plus n area = Ok a1
    ∧ np_binop Qmult area runoff = Ok local
    ∧ zeros_plus n local = Ok q1
    ∧ match bn with
      | Some bn =>
          drainage_area ← setitems a1 bn 0%Q;
          discharge ← setitems q1 bn 0%Q;
          Ok (drainage_area, discharge)
      | None => Ok (a1, q1)
      end = Ok (a0, q0)
    ∧ length a0 = n ∧ length q0 = n
    ∧ (∀ v, (v < n)%nat → (at_ a0 v == seed area bn v)%Q)
    ∧ (∀ v, (v < n)%nat → (at_ q0 v == seed local bn v)%Q).
Proof.
  intros Ha Hr Hbn.
  destruct (zeros_plus_spec n area Ha) as (a1 & Ha1eq & Hla1 & Ha1).
  destruct (np_binop_size_ok n Qmult area runoff Ha Hr) as (local & Hlocal & Hsz).
  destruct (zeros_plus_spec n local Hsz) as (q1 & Hq1 & Hlq1 & Hq1v).
  exists a1, local, q1.
  destruct bn as [l|]; simpl in *.
  - destruct (setitems_valid a1 l 0%Q) as (a0 & -> & Hla0 & Ha0);
      [by rewrite Hla1|].
    destruct (setitems_valid q1 l 0%Q) as (q0 & -> & Hlq0 & Hq0);
      [by rewrite Hlq1|].
    simpl. exists a0, q0. repeat split; try congruence.
    + intros v Hv. unfold seed. simpl. case_decide as Hm.
      * by rewrite (at_lookup a0 v 0%Q) by (apply Ha0; [done|lia]).
      * unfold at_ at 1. rewrite (proj2 (Ha0 v) Hm). by apply Ha1.
    + intros v Hv. unfold seed. simpl. case_decide as Hm.
      * by rewrite (at_lookup q0 v 0%Q) by (apply Hq0; [done|lia]).
      * unfold at_ at 1. rewrite (proj2 (Hq0 v) Hm). by apply Hq1v.
  - exists a1, q1. repeat split; try done.
Qed.

Lemma range_reverse_elem n i : i ∈ reverse (range n) ↔ 0 ≤ i < Z.of_nat n.
Proof. by rewrite elem_of_reverse, elem_of_range. Qed.

(** [s] can be walked: it has an entry for each of the [n] positions and
    every entry is a node id. *)
Definition order_ok (n : nat) (s : list Z) : Prop :=
  length s = n ∧ Forall (λ d, 0 ≤ d < Z.of_nat n) s.

Section monotone.
Context {n q : nat} {r : list (list Z)} {p : list (list Q)}.
Context (Hok : tables_ok n q r p).
Context (a0 : list Q) (Ha0 : length a0 = n).
Context (Hnonneg : ∀ v, (v < n)%nat → (0 <= at_ a0 v)%Q).

(** The invariant of the walk: no entry has dropped below its seed. *)
Definition above_seed (st : list Q * list Q) : Prop :=
  length st.1 = n ∧ length st.2 = n ∧
  ∀ v, (v < n)%nat → (at_ a0 v <= at_ st.1 v)%Q.

Lemma accumulate_body_above_seed (d v : Z) st :
  0 ≤ d < Z.of_nat n → 0 ≤ v < Z.of_nat q → above_seed st →
  ∃ st', accumulate_body r p d v st = Ok st' ∧ above_seed st'.
Proof.
  intros Hd Hv (Hla & Hlq & Hge). destruct st as [a dq]. simpl in Hla, Hlq, Hge.
  destruct (accumulate_body_spec n q r p d v a dq Hok Hd Hv Hla Hlq)
    as (x & pr & _ & [(Hpr & Hne & Hx & ->)|(_ & ->)]).
  - eexists. split; [done|]. unfold above_seed. simpl. rewrite !length_insert.
    split; [done|]. split; [done|]. intros w Hw.
    destruct (decide (Z.to_nat x = w)) as [<-|Hxw].
    + rewrite at_insert_eq by lia.
      pose proof (Hge (Z.to_nat x) Hw) as H1.
      pose proof (Hge (Z.to_nat d) ltac:(lia)) as H2.
      pose proof (Hnonneg (Z.to_nat d) ltac:(lia)) as H3.
      assert (0 <= pr * at_ a (Z.to_nat d))%Q.
      { apply Qmult_le_0_compat; [by apply Qlt_le_weak|]. lra. }
      lra.
    + rewrite at_insert_ne by done. by apply Hge.
  - eexists. split; [done|]. done.
Qed.

Lemma walk_above_seed (s : list Z) (dq0 : list Q) :
  order_ok n s → length dq0 = n →
  ∃ st, for_in (reverse (range n)) (λ i st,
          donor ← getitem s i;
          for_in (range q) (λ v st, accumulate_body r p donor v st) st)
          (a0, dq0) = Ok st ∧ above_seed st.
Proof.
  intros [Hls Hs] Hdq.
  apply (for_in_invariant (λ _ st, above_seed st)).
  { split; [done|]. split; [done|]. simpl. intros. apply Qle_refl. }
  intros pre i post st Hsplit Hst.
  assert (0 ≤ i < Z.of_nat n) as Hi.
  { apply range_reverse_elem. rewrite Hsplit. apply elem_of_app. right. by left. }
  destruct (getitem_in_range s i ltac:(lia)) as (d & -> & Hd). simpl.
  pose proof (Forall_lookup_1 _ _ _ _ Hs Hd) as Hdn. simpl in Hdn.
  apply (for_in_invariant (λ _ st, above_seed st)); [done|].
  intros pre' v post' st' Hsplit' Hst'.
  apply accumulate_body_above_seed; [done| |done].
  apply elem_of_range. rewrite Hsplit'. apply elem_of_app. right. by left.
Qed.
End monotone.

(** The body of [find_drainage_area_and_discharge_to_n] on well-formed
    arguments: the seeds, then the reverse walk from them. *)
Lemma find_drainage_unfold (n q : nat) r p s area runoff bn :
  tables_ok n q r p → size_ok n area → size_ok n runoff → boundary_ok n bn →
  ∃ a0 q0 local,
    length a0 = n ∧ length q0 = n
    ∧ (∀ v, (v < n)%nat → (at_ a0 v == seed area bn v)%Q)
    ∧ np_binop Qmult area runoff = Ok local
    ∧ (∀ v, (v < n)%nat → (at_ q0 v == seed local bn v)%Q)
    ∧ find_drainage_area_and_discharge_to_n s r p area runoff bn
      = for_in (reverse (range n)) (λ i st,
          donor ← getitem s i;
          for_in (range q) (λ v st, accumulate_body r p donor v st) st)
          (a0, q0).
Proof.
  intros Hok Ha Hr Hbn.
  destruct (shape_ok Hok) as [Hsh|[-> Hsh]].
  - destruct (seeding_spec n area runoff bn Ha Hr Hbn)
      as (a1 & local & q1 & a0 & q0 & E1 & E2 & E3 & E4 & Hla & Hlq & Hva & Hvq).
    exists a0, q0, local. repeat split; try done.
    unfold find_drainage_area_and_discharge_to_n. rewrite Hsh, E1. simpl.
    rewrite E2. simpl. rewrite E3. simpl. rewrite E4. done.
  - destruct (seeding_spec 0 area runoff bn Ha Hr Hbn)
      as (a1 & local & q1 & a0 & q0 & E1 & E2 & E3 & E4 & Hla & Hlq & Hva & Hvq).
    exists a0, q0, local. repeat split; try done.
    unfold find_drainage_area_and_discharge_to_n. rewrite Hsh, E1. simpl.
    rewrite E2. simpl. rewrite E3. simpl. rewrite E4. done.
Qed.

(** C8 (monotone accumulation).  On well-formed tables, an order that can be
    walked, and non-negative cell areas, the call returns, and the drainage
    area of every node that is not boundary-masked is at least the cell area
    seeded there. *)
Theorem drainage_area_at_least_cell_area
    (n q : nat) r p s area runoff bn :
  tables_ok n q r p → order_ok n s →
  size_ok n area → size_ok n runoff → boundary_ok n bn →
  (∀ v, (v < n)%nat → (0 <= cell_area_at area v)%Q) →
  ∃ a dq,
    find_drainage_area_and_discharge_to_n s r p area runoff bn = Ok (a, dq)
    ∧ ∀ v, (v < n)%nat → ¬ masked bn v → (cell_area_at area v <= at_ a v)%Q.
Proof.
  intros Hok Hs Ha Hr Hbn Hnonneg.
  destruct (find_drainage_unfold n q r p s area runoff bn Hok Ha Hr Hbn)
    as (a0 & q0 & local & Hla & Hlq & Hva & _ & _ & ->).
  assert (∀ v, (v < n)%nat → (0 <= at_ a0 v)%Q) as Hnn.
  { intros v Hv. rewrite (Hva v Hv). unfold seed. case_decide; [lra|by apply Hnonneg]. }
  destruct (walk_above_seed Hok a0 Hla Hnn s q0 Hs Hlq)
    as ([a dq] & -> & _ & _ & Hge).
  exists a, dq. split; [done|]. intros v Hv Hm.
  specialize (Hge v Hv). simpl in Hge. rewrite (Hva v Hv) in Hge.
  unfold seed in Hge. by rewrite decide_False in Hge.
Qed.

Lemma tables_ok_ref : tables_ok 10 2 r_ref p_ref.
Proof.
  split.
  - split; [done|]. repeat constructor.
  - split; [done|]. repeat constructor.
  - intros i v x pr (row & prow & Hr & Hp & Hx & Hpr) Hpos.
    do 10 (destruct i as [|i]; [simpl in Hr, Hp; simplify_eq;
      do 2 (destruct v as [|v]; [simpl in Hx, Hpr; simplify_eq;
        first [lia | by apply Qlt_irrefl in Hpos]|]); done|]).
    done.
Qed.

Lemma drainage_area_at_least_cell_area_witness :
  ∃ a dq,
    find_drainage_area_and_discharge_to_n [4; 5; 1; 7; 2; 6; 0; 8; 3; 9]
      r_ref p_ref (Float 1) (Float 1) None = Ok (a, dq)
    ∧ ∀ v, (v < 10)%nat → ¬ masked None v
           → (cell_area_at (Float 1) v <= at_ a v)%Q.
Proof.
  apply (drainage_area_at_least_cell_area 10 2 r_ref p_ref
           [4; 5; 1; 7; 2; 6; 0; 8; 3; 9] (Float 1) (Float 1) None).
  - exact tables_ok_ref.
  - split; [reflexivity|]. repeat constructor; lia.
  - exact I.
  - exact I.
  - exact I.
  - intros v _. simpl. lra.
Defined.

(** ** Sums over the nodes *)

Definition sumQ (xs : list Q) : Q := foldr Qplus 0%Q xs.

(** [sum_nodes n f] is the sum of [f v] over the nodes [v < n]. *)
Definition sum_nodes (n : nat) (f : nat → Q) : Q := sumQ (f <$> seq 0 n).

(** The sum of the positive proportions of one row of [p]. *)
Definition pos_sum (prow : list Q) : Q :=
  sumQ ((λ x, if gt0 x then x else 0%Q) <$> prow).

Lemma sumQ_app xs ys : (sumQ (xs ++ ys) == sumQ xs + sumQ ys)%Q.
Proof.
  induction xs as [|x xs IH]; simpl; [ring|]. rewrite IH. ring.
Qed.

Lemma sum_nodes_S n f : (sum_nodes (S n) f == sum_nodes n f + f n)%Q.
Proof.
  unfold sum_nodes. rewrite seq_S, fmap_app, sumQ_app. simpl. ring.
Qed.

Lemma sum_nodes_ext n f g :
  (∀ v, (v < n)%nat → (f v == g v)%Q) → (sum_nodes n f == sum_nodes n g)%Q.
Proof.
  induction n as [|n IH]; intros H; [reflexivity|].
  rewrite !sum_nodes_S.
  rewrite (IH ltac:(intros; apply H; lia)), (H n ltac:(lia)). reflexivity.
Qed.

(** Changing one summand by [δ] changes the sum by [δ]. *)
Lemma sum_nodes_bump n f g k δ :
  (k < n)%nat → (∀ v, (v < n)%nat → v ≠ k → (f v == g v)%Q) →
  (f k == g k + δ)%Q → (sum_nodes n f == sum_nodes n g + δ)%Q.
Proof.
  induction n as [|n IH]; intros Hk Hne Hkk; [lia|].
  rewrite !sum_nodes_S. destruct (decide (k = n)) as [->|Hkn].
  - rewrite (sum_nodes_ext n f g ltac:(intros; apply Hne; lia)), Hkk. ring.
  - rewrite (IH ltac:(lia) ltac:(intros; apply Hne; lia) Hkk).
    rewrite (Hne n ltac:(lia) ltac:(lia)). ring.
Qed.

Lemma pos_sum_take_S prow (k : nat) pr :
  prow !! k = Some pr →
  (pos_sum (take (S k) prow)
   == pos_sum (take k prow) + (if gt0 pr then pr else 0))%Q.
Proof.
  intros H. unfold pos_sum. rewrite (take_S_r _ _ _ H), fmap_app, sumQ_app.
  simpl. ring.
Qed.

Lemma for_in_ext {A S : Type} (xs : list A) (f g : A → S → result S) (s : S) :
  (∀ x s, x ∈ xs → f x s = g x s) → for_in xs f s = for_in xs g s.
Proof.
  revert s. induction xs as [|x xs IH]; intros s H; [done|]. simpl.
  rewrite (H x s) by by left. destruct (g x s); simpl; try done.
  apply IH. intros; apply H. by right.
Qed.

Lemma range_S n : range (S n) = range n ++ [Z.of_nat n].
Proof. unfold range. by rewrite seq_S, fmap_app. Qed.

(** Walking the positions of [s] backwards is walking [s] backwards. *)
Lemma walk_by_index {S : Type} (s : list Z) (body : Z → S → result S) (st : S) :
  for_in (reverse (range (length s))) (λ i st, donor ← getitem s i; body donor st) st
  = for_in (reverse s) body st.
Proof.
  revert st. induction s as [|x s IH] using rev_ind; intros st; [done|].
  rewrite length_app, Nat.add_1_r, range_S, !reverse_app. simpl.
  rewrite (getitem_nonneg (s ++ [x]) (Z.of_nat (length s)) x); [|lia|].
  2:{ rewrite Nat2Z.id, lookup_app_r, Nat.sub_diag by done. done. }
  simpl. destruct (body x st) as [st'| |]; simpl; try done.
  rewrite <- IH. apply for_in_ext. intros i st1 Hi%range_reverse_elem.
  assert (getitem (s ++ [x]) i = getitem s i) as ->; [|done].
  unfold getitem. rewrite length_app. simpl.
  rewrite !py_index_nonneg by lia. simpl.
  rewrite lookup_app_l by lia. done.
Qed.

Lemma range_split n pre (v : Z) post :
  range n = pre ++ v :: post → v = Z.of_nat (length pre) ∧ (length pre < n)%nat.
Proof.
  intros H.
  assert (length pre < n)%nat as Hlt.
  { rewrite <- (range_length n), H, length_app. simpl. lia. }
  split; [|done].
  pose proof (range_lookup n (length pre) Hlt) as Hl.
  rewrite H, list_lookup_middle in Hl by done. congruence.
Qed.

(** ** Conservation of the seeded total *)

Section conservation.
Context {n q : nat} {r : list (list Z)} {p : list (list Q)}.
Context (Hok : tables_ok n q r p).
Context (Hsum : ∀ i prow, p !! i = Some prow → (pos_sum prow == 1)%Q).
Context (Hself : self_loops_at_base r p).
Context (Hterm : base_terminal r p).

(** What node [v] still holds once the nodes of [P] have been processed: a
    processed node that is not base-level has passed everything on. *)
Definition held (r : list (list Z)) (P : list Z) (a : list Q) (v : nat) : Q :=
  if decide (Z.of_nat v ∈ P ∧ ¬ is_base r (Z.of_nat v)) then 0%Q else at_ a v.

Lemma held_insert_ne P a (k v : nat) x :
  k ≠ v → held r P (<[k:=x]> a) v = held r P a v.
Proof. intros H. unfold held. by rewrite at_insert_ne. Qed.

Lemma held_snoc_ne P a (d : Z) (v : nat) :
  Z.of_nat v ≠ d → held r (P ++ [d]) a v = held r P a v.
Proof.
  intros H. unfold held.
  destruct (decide (Z.of_nat v ∈ P ∧ ¬ is_base r (Z.of_nat v))) as [[H1 H2]|Hn].
  - rewrite decide_True; [done|]. split; [|done]. apply elem_of_app. by left.
  - rewrite decide_False; [done|].
    intros [[?|?%list_elem_of_singleton]%elem_of_app ?]; [by apply Hn|done].
Qed.

Lemma donor_slots_base (d : Z) (a0 dq0 : list Q) :
  0 ≤ d < Z.of_nat n → is_base r d → length a0 = n → length dq0 = n →
  for_in (range q) (λ v st, accumulate_body r p d v st) (a0, dq0)
  = Ok (a0, dq0).
Proof.
  intros Hd Hb Hla Hlq.
  destruct (for_in_invariant (λ _ st, st = (a0, dq0)) (range q)
              (λ v st, accumulate_body r p d v st) (a0, dq0))
    as (st & -> & ->); [done| |done].
  intros pre v post st Hsplit ->.
  assert (0 ≤ v < Z.of_nat q) as Hv.
  { apply elem_of_range. rewrite Hsplit. apply elem_of_app. right. by left. }
  destruct (accumulate_body_spec n q r p d v a0 dq0 Hok Hd Hv Hla Hlq)
    as (x & pr & Hent & [(Hpr & Hne & Hx & _)|(_ & ->)]); [|by eexists].
  exfalso. apply Hne. apply (Hterm d x Hb). split; [lia|]. eauto.
Qed.

Lemma donor_slots_pass (P : list Z) (d : Z) (a0 dq0 : list Q) :
  0 ≤ d < Z.of_nat n → ¬ is_base r d → d ∉ P →
  (∀ x, edge r p d x → x ≠ d → x ∉ P) →
  length a0 = n → length dq0 = n →
  ∃ a dq,
    for_in (range q) (λ v st, accumulate_body r p d v st) (a0, dq0) = Ok (a, dq)
    ∧ length a = n ∧ length dq = n
    ∧ at_ a (Z.to_nat d) = at_ a0 (Z.to_nat d)
    ∧ (sum_nodes n (held r P a)
       == sum_nodes n (held r P a0) + at_ a0 (Z.to_nat d))%Q.
Proof.
  intros Hd Hnb HdP Hrecv Hla Hlq.
  destruct (lookup_lt_is_Some_2 p (Z.to_nat d)) as [prow Hprow].
  { destruct Hok as [_ [Hpn _] _]. lia. }
  assert (length prow = q) as Hlprow.
  { destruct Hok as [_ [_ Hpq] _]. apply (Forall_lookup_1 _ _ _ _ Hpq Hprow). }
  destruct (for_in_invariant
    (λ pre st, length st.1 = n ∧ length st.2 = n
       ∧ at_ st.1 (Z.to_nat d) = at_ a0 (Z.to_nat d)
       ∧ (sum_nodes n (held r P st.1)
          == sum_nodes n (held r P a0)
             + pos_sum (take (length pre) prow) * at_ a0 (Z.to_nat d))%Q)
    (range q) (λ v st, accumulate_body r p d v st) (a0, dq0))
    as ([a dq] & Hrun & Ha & Hdq & Hatd & Hs).
  - simpl. repeat split; try done. unfold pos_sum. simpl. ring.
  - intros pre v post [a dq] Hsplit (Ha & Hdq & Hatd & Hs).
    simpl in Ha, Hdq, Hatd, Hs.
    destruct (range_split q pre v post Hsplit) as [-> Hlt].
    destruct (accumulate_body_spec n q r p d (Z.of_nat (length pre)) a dq
                Hok Hd ltac:(lia) Ha Hdq) as (x & pr & Hent & Hcase).
    rewrite Nat2Z.id in Hent.
    assert (prow !! length pre = Some pr) as Hpr.
    { destruct Hent as (row & prow' & _ & Hp' & _ & Hpr). congruence. }
    pose proof (pos_sum_take_S prow (length pre) pr Hpr) as Hps.
    assert (length (pre ++ [Z.of_nat (length pre)]) = S (length pre)) as Hlp.
    { rewrite length_app. simpl. lia. }
    destruct Hcase as [(Hpos & Hne & Hx & ->)|(Hno & ->)].
    + eexists. split; [done|]. simpl. rewrite !length_insert.
      split; [done|]. split; [done|].
      assert (Z.to_nat x ≠ Z.to_nat d) as Hne' by lia.
      split; [by rewrite at_insert_ne|].
      assert (gt0 pr = true) as Hg by by apply gt0_spec.
      rewrite Hg in Hps. rewrite Hlp, Hps.
      assert (x ∉ P) as HxP.
      { apply Hrecv; [|done]. split; [lia|]. eauto. }
      rewrite (sum_nodes_bump n _ (held r P a) (Z.to_nat x)
                 (pr * at_ a (Z.to_nat d))%Q).
      * rewrite Hs, Hatd. ring.
      * lia.
      * intros w Hw Hwx. by rewrite held_insert_ne.
      * assert (¬ (Z.of_nat (Z.to_nat x) ∈ P
                   ∧ ¬ is_base r (Z.of_nat (Z.to_nat x)))) as Hout.
        { rewrite Z2Nat.id by lia. tauto. }
        unfold held. rewrite !decide_False by done.
        rewrite at_insert_eq by lia. reflexivity.
    + eexists. split; [done|]. simpl. repeat split; try done.
      assert (gt0 pr = false) as Hg.
      { destruct (gt0 pr) eqn:Hg; [|done]. apply gt0_spec in Hg.
        destruct Hno as [Hno| ->]; [done|]. exfalso. apply Hnb, Hself.
        split; [lia|]. eauto. }
      rewrite Hg in Hps. rewrite Hlp, Hps, Hs. ring.
  - exists a, dq. simpl in *. repeat split; try done.
    rewrite Hs, range_length, <- Hlprow, firstn_all.
    rewrite (Hsum _ _ Hprow). ring.
Qed.

(** One donor of the reverse walk keeps the held total. *)
Lemma donor_step_held (P : list Z) (d : Z) (a0 dq0 : list Q) :
  0 ≤ d < Z.of_nat n → d ∉ P →
  (∀ x, edge r p d x → x ≠ d → x ∉ P) →
  length a0 = n → length dq0 = n →
  ∃ a dq,
    for_in (range q) (λ v st, accumulate_body r p d v st) (a0, dq0) = Ok (a, dq)
    ∧ length a = n ∧ length dq = n
    ∧ (sum_nodes n (held r (P ++ [d]) a) == sum_nodes n (held r P a0))%Q.
Proof.
  intros Hd HdP Hrecv Hla Hlq.
  destruct (decide (is_base r d)) as [Hb|Hnb].
  - exists a0, dq0. rewrite donor_slots_base by done. repeat split; try done.
    apply sum_nodes_ext. intros v Hv.
    destruct (decide (Z.of_nat v = d)) as [<-|Hvd].
    + unfold held. rewrite !decide_False by tauto. reflexivity.
    + rewrite held_snoc_ne by done. reflexivity.
  - destruct (donor_slots_pass P d a0 dq0 Hd Hnb HdP Hrecv Hla Hlq)
      as (a & dq & Hrun & Ha & Hdq & Hatd & Hs).
    exists a, dq. repeat split; try done.
    rewrite (sum_nodes_bump n _ (held r P a) (Z.to_nat d)
               (- at_ a0 (Z.to_nat d))%Q).
    + rewrite Hs. ring.
    + lia.
    + intros w Hw Hwd. rewrite held_snoc_ne by lia. reflexivity.
    + unfold held. rewrite Z2Nat.id by lia.
      rewrite decide_True.
      2:{ split; [|done]. apply elem_of_app. right. by left. }
      rewrite decide_False by tauto. rewrite Hatd. ring.
Qed.

Lemma walk_conserves (s : list Z) (a0 dq0 : list Q) :
  s ≡ₚ range n →
  (∀ u x (i j : nat), edge r p u x → u ≠ x →
     s !! i = Some x → s !! j = Some u → (i < j)%nat) →
  length a0 = n → length dq0 = n →
  ∃ a dq,
    for_in (reverse s)
      (λ donor st, for_in (range q) (λ v st, accumulate_body r p donor v st) st)
      (a0, dq0) = Ok (a, dq)
    ∧ (sum_nodes n (λ v, if decide (is_base r (Z.of_nat v)) then at_ a v else 0%Q)
       == sum_nodes n (at_ a0))%Q.
Proof.
  intros Hperm Htopo Hla Hlq.
  assert (NoDup (reverse s)) as Hnd.
  { rewrite reverse_Permutation, Hperm. apply NoDup_range. }
  destruct (for_in_invariant
    (λ P st, length st.1 = n ∧ length st.2 = n
       ∧ (sum_nodes n (held r P st.1) == sum_nodes n (at_ a0))%Q)
    (reverse s)
    (λ donor st, for_in (range q) (λ v st, accumulate_body r p donor v st) st)
    (a0, dq0)) as ([a dq] & Hrun & Ha & Hdq & Hs).
  - simpl. split; [done|]. split; [done|]. apply sum_nodes_ext. intros v Hv.
    unfold held. rewrite decide_False; [reflexivity|].
    intros [?%elem_of_nil _]. done.
  - intros P d post [a dq] Hsplit (Ha & Hdq & Hs). simpl in Ha, Hdq, Hs.
    assert (0 ≤ d < Z.of_nat n) as Hd.
    { apply elem_of_range. rewrite <- Hperm. apply elem_of_reverse.
      rewrite Hsplit. apply elem_of_app. right. by left. }
    rewrite Hsplit in Hnd. apply NoDup_app in Hnd as (_ & Hdis & Hnd').
    apply NoDup_cons in Hnd' as [_ _].
    assert (d ∉ P) as HdP.
    { intros Hin. apply (Hdis d Hin). by left. }
    assert (∀ x, edge r p d x → x ≠ d → x ∉ P) as Hrecv.
    { intros x He Hne Hin. apply list_elem_of_lookup in Hin as [i Hi].
      pose proof (lookup_lt_Some _ _ _ Hi) as Hilt.
      assert (reverse s !! i = Some x) as Hx.
      { rewrite Hsplit. by rewrite lookup_app_l. }
      assert (reverse s !! length P = Some d) as Hdd.
      { rewrite Hsplit. by rewrite list_lookup_middle. }
      assert (length (reverse s) = length P + S (length post))%nat as Hlen.
      { rewrite Hsplit, length_app. done. }
      rewrite length_reverse in Hlen.
      rewrite reverse_lookup in Hx by lia.
      rewrite reverse_lookup in Hdd by lia.
      pose proof (Htopo d x _ _ He ltac:(done) Hx Hdd). lia. }
    destruct (donor_step_held P d a dq Hd HdP Hrecv Ha Hdq)
      as (a' & dq' & -> & Ha' & Hdq' & Hs').
    eexists. split; [done|]. simpl. repeat split; try done.
    by rewrite Hs'.
  - exists a, dq. split; [done|]. simpl in Hs. rewrite <- Hs.
    apply sum_nodes_ext. intros v Hv. unfold held.
    assert (Z.of_nat v ∈ reverse s) as Hin.
    { apply elem_of_reverse. rewrite Hperm. apply elem_of_range. lia. }
    destruct (decide (is_base r (Z.of_nat v))).
    + rewrite decide_False by tauto. reflexivity.
    + rewrite decide_True by done. reflexivity.
Qed.
End conservation.

(** ** The edges as a list, for tables given in full *)

Definition slot_edge (r : list (list Z)) (p : list (list Q)) (i v : nat)
  : option (Z * Z) :=
  row ← r !! i; prow ← p !! i; x ← row !! v; pr ← prow !! v;
  if gt0 pr then Some (Z.of_nat i, x) else None.

Definition edges_of (r : list (list Z)) (p : list (list Q)) : list (Z * Z) :=
  i ← seq 0 (length r);
  omap (slot_edge r p i) (seq 0 (length (default [] (r !! i)))).

Lemma elem_of_edges_of r p u x : (u, x) ∈ edges_of r p ↔ edge r p u x.
Proof.
  unfold edges_of, edge. rewrite list_elem_of_bind. split.
  - intros (i & (v & _ & Hv)%list_elem_of_omap & _).
    unfold slot_edge in Hv.
    destruct (r !! i) as [row|] eqn:Hr; [|done].
    destruct (p !! i) as [prow|] eqn:Hp; [|done]. simpl in Hv.
    destruct (row !! v) as [x'|] eqn:Hx; [|done].
    destruct (prow !! v) as [pr|] eqn:Hpr; [|done]. simpl in Hv.
    destruct (gt0 pr) eqn:Hg; [|done]. injection Hv as <- <-.
    split; [lia|]. exists v, pr. rewrite Nat2Z.id.
    split; [by exists row, prow|by apply gt0_spec].
  - intros (Hu & v & pr & (row & prow & Hr & Hp & Hx & Hpr) & Hpos).
    exists (Z.to_nat u). split.
    + apply list_elem_of_omap. exists v. split.
      * rewrite Hr. simpl. apply elem_of_seq. apply lookup_lt_Some in Hx. lia.
      * unfold slot_edge. rewrite Hr, Hp. simpl. rewrite Hx, Hpr. simpl.
        apply gt0_spec in Hpos. rewrite Hpos. f_equal. f_equal. lia.
    + apply elem_of_seq. apply lookup_lt_Some in Hr. lia.
Qed.

Lemma edges_Forall r p (P : Z → Z → Prop) :
  Forall (λ e, P e.1 e.2) (edges_of r p) → ∀ u x, edge r p u x → P u x.
Proof.
  intros H u x He%elem_of_edges_of.
  by apply (proj1 (Forall_forall _ _) H (u, x)).
Qed.

(** A rank that strictly drops along every edge between distinct nodes rules
    out cycles. *)
Lemma ranked_no_cycle r p (h : Z → Z) :
  (∀ u x, edge r p u x → u ≠ x → h x < h u) →
  ∀ u, ¬ tc (λ a b, edge r p a b ∧ a ≠ b) u u.
Proof.
  intros Hh u Hc.
  assert (∀ a b, tc (λ a b, edge r p a b ∧ a ≠ b) a b → h b < h a) as Hlt.
  { intros a b Hab. induction Hab as [a b [He Hne]|a b c [He Hne] _ IH].
    - by apply Hh.
    - pose proof (Hh a b He Hne). lia. }
  specialize (Hlt u u Hc). lia.
Qed.

(** A duplicate-free list that fits into [k] and is as long is a permutation
    of [k]. *)
Lemma permutation_by_check (l k : list Z) :
  NoDup l → Forall (λ x, x ∈ k) l → (length k ≤ length l)%nat → l ≡ₚ k.
Proof.
  intros Hnd Hin Hlen. apply submseteq_length_Permutation; [|done].
  apply NoDup_submseteq; [done|]. by apply Forall_forall.
Qed.

(** The position of [x] in [s]. *)
Definition pos_of (s : list Z) (x : Z) : option nat :=
  fst <$> list_find (λ y, y = x) s.

Lemma pos_of_unique (s : list Z) x (i k : nat) :
  NoDup s → pos_of s x = Some k → s !! i = Some x → i = k.
Proof.
  intros Hnd Hpos Hi. unfold pos_of in Hpos.
  destruct (list_find _ s) as [[k' y]|] eqn:Hf; [|done].
  injection Hpos as ->. apply list_find_Some in Hf as (Hk & -> & _).
  by apply (NoDup_lookup s i k x).
Qed.

(** [s] lists every receiver before its donors. *)
Definition topological (r : list (list Z)) (p : list (list Q)) (s : list Z)
  : Prop :=
  ∀ u x (i j : nat), edge r p u x → u ≠ x →
    s !! i = Some x → s !! j = Some u → (i < j)%nat.

Definition edge_in_order (s : list Z) (e : Z * Z) : Prop :=
  e.1 = e.2 ∨ ∃ i j, pos_of s e.2 = Some i ∧ pos_of s e.1 = Some j ∧ (i < j)%nat.

#[global] Instance edge_in_order_dec s e : Decision (edge_in_order s e).
Proof.
  unfold edge_in_order.
  destruct (decide (e.1 = e.2)) as [?|Hne]; [left; by left|].
  destruct (pos_of s e.2) as [i|] eqn:Hi.
  - destruct (pos_of s e.1) as [j|] eqn:Hj.
    + destruct (decide (i < j)%nat).
      * left. right. eauto.
      * right. intros [?|(i' & j' & [= <-] & [= <-] & ?)]; done.
    + right. intros [?|(i' & j' & _ & [=] & _)]. done.
  - right. intros [?|(i' & j' & [=] & _)]. done.
Defined.

Lemma topological_by_check r p s :
  NoDup s → Forall (edge_in_order s) (edges_of r p) → topological r p s.
Proof.
  intros Hnd Hall u x i j He Hne Hi Hj.
  pose proof (edges_Forall r p (λ u x, edge_in_order s (u, x)) Hall u x He)
    as [?|(i' & j' & Hpi & Hpj & Hlt)]; [done|]. simpl in *.
  by rewrite (pos_of_unique s x i i' Hnd Hpi Hi),
             (pos_of_unique s u j j' Hnd Hpj Hj).
Qed.

(** C4 (mass conservation), as the code has it.  When every row of positive
    proportions sums to one, the only self-loops are those of base-level
    nodes, base-level nodes send flow to no other node, and [s] is a
    downstream-to-upstream topological order of all nodes, the call returns
    and the drainage areas of the base-level nodes add up to the seeds of all
    nodes, exactly. *)
Theorem base_level_area_is_seeded_total
    (n q : nat) r p s area runoff bn :
  tables_ok n q r p → s ≡ₚ range n →
  (∀ i prow, p !! i = Some prow → (pos_sum prow == 1)%Q) →
  self_loops_at_base r p → base_terminal r p → topological r p s →
  size_ok n area → size_ok n runoff → boundary_ok n bn →
  ∃ a dq,
    find_drainage_area_and_discharge_to_n s r p area runoff bn = Ok (a, dq)
    ∧ (sum_nodes n (λ v, if decide (is_base r (Z.of_nat v)) then at_ a v else 0%Q)
       == sum_nodes n (seed area bn))%Q.
Proof.
  intros Hok Hperm Hsum Hself Hterm Htopo Ha Hr Hbn.
  assert (length s = n) as Hls by by rewrite Hperm, range_length.
  subst n.
  destruct (find_drainage_unfold _ q r p s area runoff bn Hok Ha Hr Hbn)
    as (a0 & q0 & local & Hla & Hlq & Hva & _ & _ & ->).
  rewrite (walk_by_index s
    (λ donor st, for_in (range q) (λ v st, accumulate_body r p donor v st) st)).
  destruct (walk_conserves Hok Hsum Hself Hterm s a0 q0 Hperm Htopo Hla Hlq)
    as (a & dq & -> & Hs).
  exists a, dq. split; [done|]. rewrite Hs. by apply sum_nodes_ext.
Qed.

(** ** Checking the hypotheses on tables given in full *)

Lemma tables_ok_by_check (n q : nat) r p :
  length r = n → Forall (λ row, length row = q) r →
  length p = n → Forall (λ row, length row = q) p →
  Forall (λ e, 0 ≤ e.2 < Z.of_nat n) (edges_of r p) →
  tables_ok n q r p.
Proof.
  intros Hr Hrq Hp Hpq He. split; [done..|].
  intros i v x pr Hent Hpos.
  apply (edges_Forall r p (λ _ x, 0 ≤ x < Z.of_nat n) He (Z.of_nat i) x).
  split; [lia|]. exists v, pr. by rewrite Nat2Z.id.
Qed.

Lemma self_loops_by_check r p :
  Forall (λ e, e.1 = e.2 → is_base r e.1) (edges_of r p) →
  self_loops_at_base r p.
Proof.
  intros H u He.
  by apply (edges_Forall r p (λ u x, u = x → is_base r u) H u u He).
Qed.

Lemma base_terminal_by_check r p :
  Forall (λ e, is_base r e.1 → e.2 = e.1) (edges_of r p) → base_terminal r p.
Proof.
  intros H b x Hb He.
  by apply (edges_Forall r p (λ u x, is_base r u → x = u) H b x He).
Qed.

Lemma acyclic_by_check r p (h : Z → Z) :
  Forall (λ e, e.1 = e.2 → is_base r e.1) (edges_of r p) →
  Forall (λ e, e.1 ≠ e.2 → h e.2 < h e.1) (edges_of r p) →
  acyclic r p.
Proof.
  intros Hs Hh. split; [by apply self_loops_by_check|].
  apply (ranked_no_cycle r p h). intros u x He Hne.
  by apply (edges_Forall r p (λ u x, u ≠ x → h x < h u) Hh u x He).
Qed.

Lemma pos_sum_by_check (p : list (list Q)) :
  Forall (λ prow, Qeq_bool (pos_sum prow) 1 = true) p →
  ∀ (i : nat) prow, p !! i = Some prow → (pos_sum prow == 1)%Q.
Proof.
  intros H i prow Hi. apply Qeq_bool_iff.
  apply (Forall_lookup_1 _ _ _ _ H Hi).
Qed.

Ltac by_compute := apply (bool_decide_unpack _); vm_compute; exact I.

(** A two-node network whose node 1 is base-level by its first slot and also
    sends half of its flow to node 0. *)
Definition r_split : list (list Z) := [[0; -1]; [1; 0]].
Definition p_split : list (list Q) := [[1; 0]; [1#2; 1#2]]%Q.

(** C4 as stated fails: all its hypotheses hold on [r_split], [p_split] with
    the order [0; 1] and unit cell areas, yet the base-level nodes hold 5/2
    while the seeds add up to 2. *)
Lemma mass_conservation_counterexample :
  tables_ok 2 2 r_split p_split
  ∧ (∀ (i : nat) prow, p_split !! i = Some prow → (pos_sum prow == 1)%Q)
  ∧ acyclic r_split p_split
  ∧ (∀ v, 0 ≤ v < 2 → drains_to_base r_split p_split v)
  ∧ [0; 1] ≡ₚ range 2
  ∧ topological r_split p_split [0; 1]
  ∧ ∃ a dq,
      find_drainage_area_and_discharge_to_n [0; 1] r_split p_split
        (Float 1) (Float 1) None = Ok (a, dq)
      ∧ (sum_nodes 2 (λ v, if decide (is_base r_split (Z.of_nat v))
                           then at_ a v else 0%Q) == 5 # 2)%Q
      ∧ (sum_nodes 2 (seed (Float 1) None) == 2)%Q
      ∧ ¬ (sum_nodes 2 (λ v, if decide (is_base r_split (Z.of_nat v))
                             then at_ a v else 0%Q)
           == sum_nodes 2 (seed (Float 1) None))%Q.
Proof.
  split.
  { apply tables_ok_by_check; by_compute. }
  split.
  { apply pos_sum_by_check. by_compute. }
  split.
  { apply (acyclic_by_check _ _ (λ v, v)); by_compute. }
  split.
  { intros v Hv. exists v. split; [|done].
    assert (v = 0 ∨ v = 1) as [-> | ->] by lia; by_compute. }
  split.
  { apply permutation_by_check; by_compute. }
  split.
  { apply topological_by_check; by_compute. }
  eexists _, _. split; [vm_compute; reflexivity|].
  split; [by vm_compute|]. split; [by vm_compute|]. by vm_compute.
Qed.

Lemma base_level_area_is_seeded_total_witness :
  ∃ a dq,
    find_drainage_area_and_discharge_to_n [4; 5; 1; 7; 2; 6; 0; 8; 3; 9]
      r_ref p_ref (Float 1) (Float 1) None = Ok (a, dq)
    ∧ (sum_nodes 10 (λ v, if decide (is_base r_ref (Z.of_nat v))
                          then at_ a v else 0%Q)
       == sum_nodes 10 (seed (Float 1) None))%Q.
Proof.
  apply (base_level_area_is_seeded_total 10 2 r_ref p_ref
           [4; 5; 1; 7; 2; 6; 0; 8; 3; 9] (Float 1) (Float 1) None).
  - apply tables_ok_by_check; by_compute.
  - apply permutation_by_check; by_compute.
  - apply pos_sum_by_check. by_compute.
  - apply self_loops_by_check. by_compute.
  - apply base_terminal_by_check. by_compute.
  - apply topological_by_check; by_compute.
  - exact I.
  - exact I.
  - exact I.
Defined.

(** * Stage 1: the donor counts *)

(** The spec's donor count: the number of (node, slot) pairs with a positive
    proportion whose receiver is [x]. *)
Definition donor_count (r : list (list Z)) (p : list (list Q)) (x : Z) : Z :=
  count_occ_Z x (edges_of r p).*2.

Lemma omap_as_bind {A B : Type} (f : A → option B) (l : list A) :
  omap f l = l ≫= (λ x, option_list (f x)).
Proof.
  induction l as [|a l IH]; [done|]. rewrite bind_cons, <- IH. csimpl.
  by destruct (f a).
Qed.

Lemma fmap_bind_list {A B C : Type} (f : B → C) (g : A → list B) (l : list A) :
  f <$> (l ≫= g) = l ≫= (λ x, f <$> g x).
Proof.
  induction l as [|a l IH]; [done|]. by rewrite !bind_cons, fmap_app, IH.
Qed.

(** A loop over the positions of [l] that only reads [l] at its position is a
    loop over [l]. *)
Lemma bind_seq_lookup {A B : Type} (l : list A) (g : A → list B)
    (f : nat → list B) (k : nat) :
  (∀ i x, l !! i = Some x → f (k + i)%nat = g x) →
  seq k (length l) ≫= f = l ≫= g.
Proof.
  revert k. induction l as [|a l IH]; intros k H; [done|].
  change (seq k (length (a :: l))) with (k :: seq (S k) (length l)).
  rewrite !bind_cons, (IH (S k)).
  - by rewrite <- (H 0%nat a), Nat.add_0_r.
  - intros i x Hi. rewrite <- (H (S i) x Hi). f_equal. lia.
Qed.

Lemma mask_filter_zip (row : list Z) (prow : list Q) :
  mask_filter row (gt0 <$> prow)
  = zip row prow ≫= (λ xp, if gt0 xp.2 then [xp.1] else []).
Proof.
  revert prow. induction row as [|x row IH]; intros [|pr prow]; try done.
  change (zip (x :: row) (pr :: prow)) with ((x, pr) :: zip row prow).
  rewrite bind_cons, <- IH. simpl. by destruct (gt0 pr).
Qed.

Lemma mask_filter_app xs ys m1 m2 :
  length xs = length m1 →
  mask_filter (xs ++ ys) (m1 ++ m2) = mask_filter xs m1 ++ mask_filter ys m2.
Proof.
  revert m1. induction xs as [|x xs IH]; intros [|b m1] Hl; try done.
  simpl in *. rewrite IH by lia. by destruct b.
Qed.

Lemma mask_filter_subseteq xs m y : y ∈ mask_filter xs m → y ∈ xs.
Proof.
  revert m. induction xs as [|x xs IH]; intros [|b m]; simpl; try done.
  - by intros ?%elem_of_nil.
  - destruct b.
    + intros [->|?]%elem_of_cons; [by left|right; eauto].
    + intros ?. right. eauto.
Qed.

Lemma r_filter_flat_rows (n q : nat) (r : list (list Z)) (p : list (list Q)) :
  ndarray2 n q r → ndarray2 n q p →
  mask_filter (concat r) (gt0 <$> concat p)
  = zip r p ≫= (λ rp, mask_filter rp.1 (gt0 <$> rp.2)).
Proof.
  intros [Hr Hrq] [Hp Hpq]. subst n. revert p Hp Hpq.
  induction Hrq as [|row r Hrow Hrq IH]; intros [|prow p] Hp Hpq; try done.
  apply Forall_cons in Hpq as [Hprow Hpq].
  change (zip (row :: r) (prow :: p)) with ((row, prow) :: zip r p).
  rewrite bind_cons. simpl. rewrite fmap_app, mask_filter_app.
  - f_equal. apply IH; [simpl in Hp; lia|done].
  - rewrite length_fmap. congruence.
Qed.

(** What stage 1 counts is the receivers of the positive-proportion edges. *)
Lemma r_filter_flat_edges (n q : nat) (r : list (list Z)) (p : list (list Q)) :
  ndarray2 n q r → ndarray2 n q p →
  mask_filter (concat r) (gt0 <$> concat p) = (edges_of r p).*2.
Proof.
  intros Hr Hp. rewrite (r_filter_flat_rows n q r p Hr Hp).
  destruct Hr as [Hrn Hrq], Hp as [Hpn Hpq].
  unfold edges_of. rewrite fmap_bind_list.
  assert (length r = length (zip r p)) as -> by (rewrite length_zip; lia).
  symmetry. apply (bind_seq_lookup (zip r p) _ _ 0).
  intros i [row prow] [Hrow Hprow]%lookup_zip_Some. simpl.
  rewrite Hrow. simpl.
  pose proof (Forall_lookup_1 _ _ _ _ Hrq Hrow) as Hlr.
  pose proof (Forall_lookup_1 _ _ _ _ Hpq Hprow) as Hlp. simpl in *.
  rewrite omap_as_bind, fmap_bind_list, mask_filter_zip.
  assert (length row = length (zip row prow)) as -> by (rewrite length_zip; lia).
  apply (bind_seq_lookup (zip row prow) _ _ 0).
  intros v [x pr] [Hx Hpr]%lookup_zip_Some. simpl.
  unfold slot_edge. rewrite Hrow, Hprow. simpl. rewrite Hx, Hpr. simpl.
  by destruct (gt0 pr).
Qed.

Lemma length_concat_rect {A : Type} (n q : nat) (t : list (list A)) :
  ndarray2 n q t → length (concat t) = (n * q)%nat.
Proof.
  intros [Hn Hq]. subst n. induction Hq as [|row t Hrow Hq IH]; [done|].
  simpl. rewrite length_app, IH. lia.
Qed.

Lemma foldr_max_ge (x : Z) (xs : list Z) y :
  y ∈ x :: xs → y ≤ foldr Z.max x xs.
Proof.
  induction xs as [|z xs IH]; simpl.
  - intros ->%list_elem_of_singleton. lia.
  - intros [->|[->|Hy]%elem_of_cons]%elem_of_cons.
    + specialize (IH ltac:(by left)). lia.
    + lia.
    + specialize (IH ltac:(by right)). lia.
Qed.

Lemma foldr_max_in (x : Z) (xs : list Z) : foldr Z.max x xs ∈ x :: xs.
Proof.
  induction xs as [|z xs IH]; simpl; [by left|].
  destruct (Z.max_spec z (foldr Z.max x xs)) as [[_ ->]|[_ ->]].
  - apply elem_of_cons in IH as [->|?]; [by left|]. right. by right.
  - right. by left.
Qed.

Lemma elem_of_concat {A : Type} (t : list (list A)) (y : A) :
  y ∈ concat t ↔ ∃ row, y ∈ row ∧ row ∈ t.
Proof.
  induction t as [|row t IH]; simpl.
  - split; [by intros ?%elem_of_nil|by intros (? & _ & ?%elem_of_nil)].
  - rewrite elem_of_app, IH. split.
    + intros [?|(row' & ? & ?)]; [exists row|exists row']; split; try done;
        [by left|by right].
    + intros (row' & ? & [->|?]%elem_of_cons); [by left|right; eauto].
Qed.

(** Every cell of [r] is an entry of the tables. *)
Lemma concat_entry (n q : nat) (r : list (list Z)) (p : list (list Q)) y :
  ndarray2 n q r → ndarray2 n q p → y ∈ concat r →
  ∃ i v pr, entry r p i v y pr.
Proof.
  intros [Hrn Hrq] [Hpn Hpq] (row & Hy & Hrow)%elem_of_concat.
  apply list_elem_of_lookup in Hrow as [i Hi].
  apply list_elem_of_lookup in Hy as [v Hv].
  destruct (lookup_lt_is_Some_2 p i) as [prow Hprow].
  { apply lookup_lt_Some in Hi. lia. }
  pose proof (Forall_lookup_1 _ _ _ _ Hrq Hi) as Hlr.
  pose proof (Forall_lookup_1 _ _ _ _ Hpq Hprow) as Hlp. simpl in *.
  destruct (lookup_lt_is_Some_2 prow v) as [pr Hpr].
  { apply lookup_lt_Some in Hv. lia. }
  exists i, v, pr. by exists row, prow.
Qed.

Lemma entry_in_concat (r : list (list Z)) (p : list (list Q)) i v y pr :
  entry r p i v y pr → y ∈ concat r.
Proof.
  intros (row & prow & Hr & _ & Hy & _). apply elem_of_concat.
  exists row. split; by eapply list_elem_of_lookup_2.
Qed.

Lemma entry_edge r p (i v : nat) x pr :
  entry r p i v x pr → (0 < pr)%Q → edge r p (Z.of_nat i) x.
Proof. intros He Hp. split; [lia|]. exists v, pr. by rewrite Nat2Z.id. Qed.

Lemma count_occ_Z_nonneg v xs : 0 ≤ count_occ_Z v xs.
Proof. unfold count_occ_Z. lia. Qed.

Lemma count_occ_Z_zero v xs : v ∉ xs → count_occ_Z v xs = 0.
Proof.
  intros H. unfold count_occ_Z.
  assert (filter (λ x, x = v) xs = []) as ->; [|done].
  induction xs as [|x xs IH]; [done|].
  apply not_elem_of_cons in H as [Hne Hxs].
  rewrite filter_cons, decide_False by done. by apply IH.
Qed.


Lemma bincount_length xs counts :
  bincount xs = Ok counts →
  match xs with
  | [] => counts = []
  | x :: xs' =>
      counts = (λ v, count_occ_Z v xs) <$> range (Z.to_nat (foldr Z.max x xs' + 1))
  end ∧ Forall (λ x, 0 ≤ x) xs.
Proof.
  unfold bincount. case_decide as Hnn; [|done].
  destruct xs; intros [= <-]; done.
Qed.

(** C6 (out-of-range receivers fail fast).  If some slot carries a positive
    proportion towards an id outside [0, n), the donor-count stage raises
    [ValueError]: a negative id is refused by [bincount], and an id of [n] or
    more makes the bin array longer than the slice of [nd] it is assigned
    to. *)
Theorem out_of_range_receiver_raises
    (n q : nat) (r : list (list Z)) (p : list (list Q)) (i v : nat) x pr :
  ndarray2 n q r → ndarray2 n q p →
  entry r p i v x pr → (0 < pr)%Q → ¬ (0 ≤ x < Z.of_nat n) →
  _make_number_of_donors_array_to_n r p = Raise ValueError.
Proof.
  intros Hr Hp Hent Hpos Hout.
  pose proof (entry_in_concat r p i v x pr Hent) as Hxr.
  assert (x ∈ mask_filter (concat r) (gt0 <$> concat p)) as HxF.
  { rewrite (r_filter_flat_edges n q r p Hr Hp). apply list_elem_of_fmap.
    exists (Z.of_nat i, x). split; [done|].
    apply elem_of_edges_of. by eapply entry_edge. }
  assert (0 < n)%nat as Hn.
  { destruct Hent as (row & _ & Hrow%lookup_lt_Some & _). destruct Hr. lia. }
  unfold _make_number_of_donors_array_to_n, mask_select.
  rewrite decide_True.
  2:{ rewrite length_fmap.
      by rewrite (length_concat_rect n q r Hr), (length_concat_rect n q p Hp). }
  remember (mask_filter (concat r) (gt0 <$> concat p)) as F eqn:HF.
  clear HF.
  destruct (concat r) as [|c0 cs] eqn:Hcat; [by apply elem_of_nil in Hxr|].
  simpl. destruct (bincount F) as [counts| |] eqn:Hbin; simpl.
  - apply bincount_length in Hbin as [Hcounts Hnn].
    destruct F as [|f0 F']; [by apply elem_of_nil in HxF|].
    pose proof (foldr_max_ge f0 F' x HxF) as HmF.
    pose proof (foldr_max_ge c0 cs x Hxr) as HM.
    pose proof (proj1 (Forall_forall _ _) Hnn x HxF) as Hx0. simpl in Hx0.
    assert (length counts = Z.to_nat (foldr Z.max f0 F' + 1)) as Hlen.
    { by rewrite Hcounts, length_fmap, range_length. }
    assert (slice_bound n (foldr Z.max c0 cs + 1) = n) as Hsb.
    { unfold slice_bound. rewrite decide_False by lia. lia. }
    unfold assign_prefix. rewrite length_replicate.
    destruct Hr as [Hrn _]. rewrite Hrn, Hsb, decide_False by lia.
    destruct counts as [|c1 [|c2 counts']]; simpl in Hlen; try done. lia.
  - unfold bincount in Hbin. case_decide; [|by injection Hbin as <-].
    by destruct F.
  - unfold bincount in Hbin. case_decide; [|done].
    by destruct F.
Qed.

(** A receiver table that sends node 0 to the id 5 of a three-node grid. *)
Lemma out_of_range_receiver_raises_witness :
  _make_number_of_donors_array_to_n [[5]; [0]; [1]] [[1]; [1]; [1]]%Q
  = Raise ValueError.
Proof.
  apply (out_of_range_receiver_raises 3 1 [[5]; [0]; [1]] [[1]; [1]; [1]]%Q
           0 0 5 1%Q).
  - split; [reflexivity|]. repeat constructor.
  - split; [reflexivity|]. repeat constructor.
  - exists [5], [1%Q]. repeat split; reflexivity.
  - reflexivity.
  - lia.
Defined.

Lemma edge_receiver_in_range (n q : nat) r p u x :
  tables_ok n q r p → edge r p u x → 0 ≤ x < Z.of_nat n.
Proof. intros Hok (_ & v & pr & Hent & Hpos). by eapply (ok_recv _ _ _ _ Hok). Qed.

Lemma edge_donor_in_range (n q : nat) r p u x :
  tables_ok n q r p → edge r p u x → 0 ≤ u < Z.of_nat n.
Proof.
  intros [[Hrn _] _ _] (Hu & v & pr & (row & _ & Hrow%lookup_lt_Some & _) & _).
  lia.
Qed.

Lemma elem_of_receivers r p x : x ∈ (edges_of r p).*2 ↔ ∃ u, edge r p u x.
Proof.
  rewrite list_elem_of_fmap. split.
  - intros ([u x'] & -> & He%elem_of_edges_of). by exists u.
  - intros (u & He%elem_of_edges_of). by exists (u, x).
Qed.

Lemma lookup_fmap_range {B : Type} (f : Z → B) (n j : nat) :
  (j < n)%nat → (f <$> range n) !! j = Some (f (Z.of_nat j)).
Proof. intros H. by rewrite list_lookup_fmap, range_lookup. Qed.

Lemma length_fmap_range {B : Type} (f : Z → B) (n : nat) :
  length (f <$> range n) = n.
Proof. by rewrite length_fmap, range_length. Qed.

(** Stage 1 on well-formed tables whose unused slots hold the sentinel: the
    call returns the donor count of every node. *)
Lemma number_of_donors_spec (n q : nat) r p :
  tables_ok n q r p → sentinel_ok r p → (0 < n)%nat → (0 < q)%nat →
  _make_number_of_donors_array_to_n r p = Ok (donor_count r p <$> range n).
Proof.
  intros Hok Hsent Hn Hq. pose proof (ok_r _ _ _ _ Hok) as Hr.
  pose proof (ok_p _ _ _ _ Hok) as Hp.
  unfold _make_number_of_donors_array_to_n, mask_select, donor_count.
  rewrite decide_True.
  2:{ rewrite length_fmap.
      by rewrite (length_concat_rect n q r Hr), (length_concat_rect n q p Hp). }
  rewrite (r_filter_flat_edges n q r p Hr Hp).
  assert (∀ y, y ∈ (edges_of r p).*2 → 0 ≤ y < Z.of_nat n) as HFr.
  { intros y (u & He)%elem_of_receivers. by eapply edge_receiver_in_range. }
  assert (∀ y, y ∈ (edges_of r p).*2 → y ∈ concat r) as HFc.
  { intros y (u & _ & v & pr & Hent & _)%elem_of_receivers.
    by eapply entry_in_concat. }
  assert (∀ y, y ∈ concat r → y ∈ (edges_of r p).*2 ∨ y = -1) as HcF.
  { intros y (i & v & pr & Hent)%(concat_entry n q r p); [|done..].
    destruct (Qlt_le_dec 0 pr) as [Hpos|Hle].
    - left. apply elem_of_receivers. exists (Z.of_nat i). by eapply entry_edge.
    - right. apply (Hsent i v y pr Hent). by apply Qle_not_lt. }
  remember ((edges_of r p).*2) as F eqn:HF. clear HF.
  assert (fst (shape r) = n) as -> by by destruct Hr.
  pose proof (length_concat_rect n q r Hr) as Hlc.
  destruct (concat r) as [|c0 cs] eqn:Hcat; [simpl in Hlc; lia|]. simpl.
  pose proof (foldr_max_in c0 cs) as HMin.
  unfold bincount. rewrite decide_True.
  2:{ apply Forall_forall. intros y Hy. apply HFr in Hy. lia. }
  destruct F as [|f0 F']; simpl.
  - assert (foldr Z.max c0 cs = -1) as ->.
    { destruct (HcF _ HMin) as [?%elem_of_nil|?]; done. }
    assert (slice_bound n (-1 + 1) = 0%nat) as Hsb.
    { unfold slice_bound. rewrite decide_False by lia. lia. }
    unfold assign_prefix. rewrite length_replicate, Hsb. simpl. f_equal.
    rewrite drop_0. apply list_eq. intros j.
    destruct (decide (j < n)%nat).
    + by rewrite lookup_replicate_2, lookup_fmap_range.
    + rewrite !lookup_ge_None_2; [done|rewrite length_fmap_range; lia|].
      rewrite length_replicate. lia.
  - pose proof (foldr_max_in f0 F') as HmFin.
    pose proof (HFr _ HmFin) as HmFr.
    assert (foldr Z.max c0 cs = foldr Z.max f0 F') as ->.
    { pose proof (foldr_max_ge c0 cs _ (HFc _ HmFin)).
      destruct (HcF _ HMin) as [HinF|?]; [|lia].
      pose proof (foldr_max_ge f0 F' _ HinF). lia. }
    set (mF := foldr Z.max f0 F') in *.
    assert (slice_bound n (mF + 1) = Z.to_nat (mF + 1)) as Hsb.
    { unfold slice_bound. rewrite decide_False by lia. lia. }
    unfold assign_prefix. rewrite length_replicate, Hsb.
    rewrite decide_True by by rewrite length_fmap_range.
    f_equal. apply list_eq. intros j.
    destruct (decide (j < Z.to_nat (mF + 1))%nat) as [Hj|Hj].
    + rewrite lookup_app_l by (rewrite length_fmap_range; lia).
      rewrite !lookup_fmap_range by lia. done.
    + rewrite lookup_app_r by (rewrite length_fmap_range; lia).
      rewrite length_fmap_range, lookup_drop.
      destruct (decide (j < n)%nat).
      * rewrite lookup_replicate_2, lookup_fmap_range by lia. f_equal.
        symmetry. apply count_occ_Z_zero. intros Hin.
        pose proof (foldr_max_ge f0 F' _ Hin). lia.
      * rewrite !lookup_ge_None_2; [done|rewrite length_fmap_range; lia|].
        rewrite length_replicate. lia.
Qed.

(** * Stage 2: the offsets are the prefix sums of the counts *)

Lemma sum_app xs ys : sum (xs ++ ys) = sum xs + sum ys.
Proof. induction xs as [|x xs IH]; simpl; lia. Qed.

Lemma sum_reverse xs : sum (reverse xs) = sum xs.
Proof.
  induction xs as [|x xs IH]; [done|].
  rewrite reverse_cons, sum_app, IH. simpl. lia.
Qed.

Lemma sum_nonneg xs : Forall (λ x, 0 ≤ x) xs → 0 ≤ sum xs.
Proof. induction 1; simpl; lia. Qed.

Lemma length_cumsum_from acc xs : length (cumsum_from acc xs) = length xs.
Proof. revert acc. induction xs as [|x xs IH]; intros acc; simpl; [done|]. by rewrite IH. Qed.

Lemma cumsum_from_lookup acc xs (j : nat) :
  (j < length xs)%nat →
  cumsum_from acc xs !! j = Some (acc + sum (take (S j) xs)).
Proof.
  revert acc j. induction xs as [|x xs IH]; intros acc j Hj; simpl in *; [lia|].
  destruct j as [|j]; simpl.
  - destruct xs; simpl; f_equal; lia.
  - rewrite IH by lia. f_equal. simpl. lia.
Qed.

Lemma length_delta nd : length (_make_delta_array_to_n nd) = S (length nd).
Proof.
  unfold _make_delta_array_to_n.
  rewrite length_app, length_reverse, length_zip_with, length_replicate.
  unfold cumsum. rewrite length_cumsum_from, length_reverse. simpl. lia.
Qed.

Lemma delta_lookup nd (i : nat) :
  (i ≤ length nd)%nat →
  _make_delta_array_to_n nd !! i = Some (sum (take i nd)).
Proof.
  intros Hi. unfold _make_delta_array_to_n.
  set (l := zip_with Z.sub (replicate (length nd) (sum nd)) (cumsum (reverse nd))).
  assert (length l = length nd) as Hl.
  { unfold l, cumsum.
    rewrite length_zip_with, length_replicate, length_cumsum_from, length_reverse.
    lia. }
  destruct (decide (i = length nd)) as [->|Hne].
  - rewrite lookup_app_r by (rewrite length_reverse; lia).
    rewrite length_reverse, Hl, Nat.sub_diag, firstn_all. done.
  - rewrite lookup_app_l by (rewrite length_reverse; lia).
    rewrite reverse_lookup by lia. rewrite Hl. unfold l.
    rewrite lookup_zip_with, lookup_replicate_2 by lia. simpl.
    unfold cumsum. rewrite cumsum_from_lookup by (rewrite length_reverse; lia).
    simpl. f_equal.
    rewrite take_reverse, sum_reverse.
    replace (length nd - S (length nd - S i))%nat with i by lia.
    rewrite <- (take_drop i nd) at 1. rewrite sum_app. lia.
Qed.

Lemma delta_ref_prefix :
  _make_delta_array_to_n [0; 2; 2; 0; 4; 4; 2; 3; 1; 0] !! 5%nat = Some 8.
Proof. by rewrite delta_lookup by (simpl; lia). Qed.

(** * Stage 3: the donor lists *)

Lemma bind_Ok_r {A : Type} (m : result A) : m ≫= Ok = m.
Proof. by destruct m. Qed.

Lemma for_in_app {A S : Type} (l1 l2 : list A) (body : A → S → result S) (s : S) :
  for_in (l1 ++ l2) body s = for_in l1 body s ≫= for_in l2 body.
Proof.
  revert s. induction l1 as [|x l1 IH]; intros s; [done|]. simpl.
  destruct (body x s); simpl; [apply IH|done..].
Qed.

Lemma for_in_bind {A B S : Type} (xs : list A) (f : A → list B)
    (body : B → S → result S) (s : S) :
  for_in (xs ≫= f) body s = for_in xs (λ x s, for_in (f x) body s) s.
Proof.
  revert s. induction xs as [|x xs IH]; intros s; [done|].
  rewrite bind_cons, for_in_app. simpl.
  destruct (for_in (f x) body s); simpl; [apply IH|done..].
Qed.

(** The (slot, node) pairs in the order the two nested loops visit them. *)
Definition col_major (q n : nat) : list (Z * Z) :=
  v ← range q; i ← range n; [(v, i)].

Lemma nested_for_in {S : Type} (q n : nat) (f : Z → Z → S → result S) (s : S) :
  for_in (range q) (λ v st, for_in (range n) (λ i st, f v i st) st) s
  = for_in (col_major q n) (λ vi st, f vi.1 vi.2 st) s.
Proof.
  unfold col_major. rewrite for_in_bind. apply for_in_ext. intros v st _.
  rewrite for_in_bind. apply for_in_ext. intros i st' _. simpl.
  by rewrite bind_Ok_r.
Qed.

Lemma elem_of_col_major q n v i :
  (v, i) ∈ col_major q n ↔ 0 ≤ v < Z.of_nat q ∧ 0 ≤ i < Z.of_nat n.
Proof.
  unfold col_major. rewrite list_elem_of_bind. split.
  - intros (v' & (i' & Hin & Hi)%list_elem_of_bind & Hv).
    apply list_elem_of_singleton in Hin. injection Hin as -> ->.
    by rewrite <- !elem_of_range.
  - intros [Hv Hi]. exists v. split; [|by apply elem_of_range].
    apply list_elem_of_bind. exists i. split; [by left|by apply elem_of_range].
Qed.

(** The edge, if any, that the loop body handles at the pair (slot, node). *)
Definition loop_edge (r : list (list Z)) (p : list (list Q)) (vi : Z * Z)
  : option (Z * Z) :=
  slot_edge r p (Z.to_nat vi.2) (Z.to_nat vi.1).

Lemma bind_app_perm {A B : Type} (f g : A → list B) (l : list A) :
  l ≫= (λ x, f x ++ g x) ≡ₚ (l ≫= f) ++ (l ≫= g).
Proof.
  induction l as [|a l IH]; [done|]. rewrite !bind_cons, IH.
  rewrite <- !(assoc_L (++)). apply Permutation_app_head.
  rewrite !(assoc_L (++)). apply Permutation_app_tail.
  apply Permutation_app_comm.
Qed.

(** Two nested loops may be swapped, up to the order of the results. *)
Lemma bind_comm_perm {A B C : Type} (h : A → B → list C) (l : list A) (k : list B) :
  l ≫= (λ x, k ≫= (λ y, h x y)) ≡ₚ k ≫= (λ y, l ≫= (λ x, h x y)).
Proof.
  induction l as [|a l IH].
  - simpl. induction k as [|b k IHk]; [done|]. by rewrite bind_cons, <- IHk.
  - rewrite bind_cons, IH.
    rewrite <- (bind_app_perm (λ y, h a y) (λ y, l ≫= (λ x, h x y)) k).
    apply Permutation_refl'. apply list_bind_ext; [|done]. intros y.
    by rewrite bind_cons.
Qed.

Lemma omap_col_major {B : Type} (g : Z * Z → option B) (q n : nat) :
  omap g (col_major q n)
  = seq 0 q ≫= (λ v, seq 0 n ≫= (λ i, option_list (g (Z.of_nat v, Z.of_nat i)))).
Proof.
  unfold col_major, range. rewrite list_fmap_bind.
  induction (seq 0 q) as [|v l IH]; [done|].
  rewrite !bind_cons, omap_app, IH. f_equal. simpl.
  rewrite list_fmap_bind. clear IH.
  induction (seq 0 n) as [|i k IHk]; [done|].
  rewrite !bind_cons, omap_app, IHk. f_equal; simpl; by destruct (g _).
Qed.

(** Over all pairs the loops handle each positive-proportion edge once. *)
Lemma loop_edges_perm (n q : nat) r p :
  ndarray2 n q r → omap (loop_edge r p) (col_major q n) ≡ₚ edges_of r p.
Proof.
  intros [Hrn Hrq]. rewrite omap_col_major, bind_comm_perm.
  apply Permutation_refl'. unfold edges_of. rewrite Hrn.
  apply Forall_bind_ext, Forall_forall. intros i Hi%elem_of_seq.
  destruct (lookup_lt_is_Some_2 r i) as [row Hrow]; [lia|].
  rewrite Hrow. simpl. rewrite (Forall_lookup_1 _ _ _ _ Hrq Hrow).
  rewrite omap_as_bind. apply Forall_bind_ext, Forall_forall. intros v _.
  unfold loop_edge. simpl. by rewrite !Nat2Z.id.
Qed.

Lemma count_occ_Z_perm x l k : l ≡ₚ k → count_occ_Z x l = count_occ_Z x k.
Proof. intros H. unfold count_occ_Z. by rewrite H. Qed.

Lemma count_occ_Z_app x l k :
  count_occ_Z x (l ++ k) = count_occ_Z x l + count_occ_Z x k.
Proof. unfold count_occ_Z. by rewrite filter_app, length_app, Nat2Z.inj_add. Qed.

Lemma count_occ_Z_cons x y l :
  count_occ_Z x (y :: l) = (if decide (y = x) then 1 else 0) + count_occ_Z x l.
Proof.
  unfold count_occ_Z. rewrite filter_cons.
  repeat case_decide; simpl; try done.
  by rewrite Nat2Z.inj_succ, Z.add_1_l.
Qed.

Lemma sum_fmap_add {A : Type} (f g : A → Z) (l : list A) :
  sum ((λ x, f x + g x) <$> l) = sum (f <$> l) + sum (g <$> l).
Proof. unfold sum. induction l as [|a l IH]; csimpl; lia. Qed.

Lemma sum_indicator (n : nat) (y : Z) :
  0 ≤ y < Z.of_nat n →
  sum ((λ x, if decide (y = x) then 1 else 0) <$> range n) = 1.
Proof.
  induction n as [|n IH]; intros Hy; [lia|].
  rewrite range_S, fmap_app, sum_app. simpl.
  destruct (decide (y = Z.of_nat n)) as [->|Hne].
  - assert (sum ((λ x, if decide (Z.of_nat n = x) then 1 else 0) <$> range n) = 0)
      as ->; [|lia].
    clear. assert (∀ m, (m ≤ n)%nat →
      sum ((λ x, if decide (Z.of_nat n = x) then 1 else 0) <$> range m) = 0)
      as H; [|by apply H].
    induction m as [|m IHm]; intros Hm; [done|].
    rewrite range_S, fmap_app, sum_app, IHm by lia. simpl.
    rewrite decide_False by lia. done.
  - rewrite IH by lia. lia.
Qed.

(** The counts of the values of a list of node ids add up to its length. *)
Lemma sum_counts (n : nat) (F : list Z) :
  (∀ y, y ∈ F → 0 ≤ y < Z.of_nat n) →
  sum ((λ x, count_occ_Z x F) <$> range n) = Z.of_nat (length F).
Proof.
  induction F as [|y F IH]; intros HF.
  - simpl. unfold sum. induction (range n) as [|m l IHl]; csimpl; [done|].
    by rewrite IHl.
  - erewrite (list_fmap_ext _ (λ x, (if decide (y = x) then 1 else 0)
                                     + count_occ_Z x F)); [|intros; apply count_occ_Z_cons].
    rewrite (sum_fmap_add (λ x, if decide (y = x) then 1 else 0)
               (λ x, count_occ_Z x F)).
    rewrite sum_indicator, IH; [simpl; lia| |].
    + intros z Hz. apply HF. by right.
    + apply HF. by left.
Qed.

(** The offset of node [x]: the number of edges into the nodes before it. *)
Definition offset_of (nd : list Z) (x : Z) : Z := sum (take (Z.to_nat x) nd).

Lemma sum_take_S (l : list Z) (k : nat) c :
  l !! k = Some c → sum (take (S k) l) = sum (take k l) + c.
Proof. intros H. rewrite (take_S_r _ _ _ H), sum_app. simpl. lia. Qed.

Lemma sum_take_mono (l : list Z) (i j : nat) :
  Forall (λ x, 0 ≤ x) l → (i ≤ j)%nat → sum (take i l) ≤ sum (take j l).
Proof.
  intros Hl. revert i j.
  induction Hl as [|x l Hx Hl IH]; intros [|i] [|j] Hij; simpl; try lia.
  - pose proof (sum_nonneg (take j l) (Forall_take _ _ _ Hl)). lia.
  - specialize (IH i j ltac:(lia)). lia.
Qed.

Section offsets.
Context (n : nat) (r : list (list Z)) (p : list (list Q)).

Local Abbreviation nd := (donor_count r p <$> range n).
Local Abbreviation delta := (_make_delta_array_to_n nd).
Local Abbreviation off := (offset_of nd).

Lemma nd_nonneg : Forall (λ x, 0 ≤ x) nd.
Proof.
  apply Forall_fmap, Forall_forall. intros x _. apply count_occ_Z_nonneg.
Qed.

Lemma getitem_delta (x : Z) :
  0 ≤ x ≤ Z.of_nat n → getitem delta x = Ok (off x).
Proof.
  intros Hx. apply getitem_nonneg; [lia|]. apply delta_lookup.
  rewrite length_fmap_range. lia.
Qed.

Lemma getitem_delta_last : getitem delta (-1) = Ok (off (Z.of_nat n)).
Proof.
  unfold getitem, py_index. rewrite length_delta, length_fmap_range.
  rewrite decide_False by lia. rewrite decide_True by lia. simpl.
  replace (Z.to_nat (Z.of_nat (S n) + -1)) with n by lia.
  rewrite delta_lookup by (rewrite length_fmap_range; lia).
  unfold offset_of. by rewrite Nat2Z.id.
Qed.

Lemma off_succ (x : Z) :
  0 ≤ x < Z.of_nat n → off (x + 1) = off x + donor_count r p x.
Proof.
  intros Hx. unfold offset_of.
  replace (Z.to_nat (x + 1)) with (S (Z.to_nat x)) by lia.
  rewrite (sum_take_S _ _ (donor_count r p x)); [done|].
  rewrite lookup_fmap_range by lia. f_equal. f_equal. lia.
Qed.

Lemma off_mono (x y : Z) : 0 ≤ x ≤ y → off x ≤ off y.
Proof.
  intros H. apply sum_take_mono; [apply nd_nonneg|lia].
Qed.

Lemma off_nonneg (x : Z) : 0 ≤ off x.
Proof. apply sum_nonneg, Forall_take, nd_nonneg. Qed.

Lemma off_total q :
  tables_ok n q r p → off (Z.of_nat n) = Z.of_nat (length (edges_of r p)).
Proof.
  intros Hok. unfold offset_of.
  rewrite Nat2Z.id, take_ge by (rewrite length_fmap_range; lia).
  unfold donor_count. rewrite sum_counts, length_fmap; [done|].
  intros y (u & He)%elem_of_receivers. by eapply edge_receiver_in_range.
Qed.
End offsets.

Section donor_lists.
Context {n q : nat} {r : list (list Z)} {p : list (list Q)}.
Context (Hok : tables_ok n q r p).

Local Abbreviation nd := (donor_count r p <$> range n).
Local Abbreviation delta := (_make_delta_array_to_n nd).
Local Abbreviation off := (offset_of nd).

(** The receivers of the edges handled over the pairs [pre]. *)
Definition handled (r : list (list Z)) (p : list (list Q))
    (pre : list (Z * Z)) : list Z :=
  (omap (loop_edge r p) pre).*2.

Lemma handled_snoc pre vi :
  handled r p (pre ++ [vi])
  = handled r p pre ++ match loop_edge r p vi with
                       | Some e => [e.2]
                       | None => []
                       end.
Proof.
  unfold handled. rewrite omap_app, fmap_app. simpl.
  by destruct (loop_edge r p vi).
Qed.

Lemma loop_edge_at (v i : Z) :
  0 ≤ v < Z.of_nat q → 0 ≤ i < Z.of_nat n →
  ∃ x pr, getitem2 r i v = Ok x ∧ getitem2 p i v = Ok pr
          ∧ loop_edge r p (v, i) = (if gt0 pr then Some (i, x) else None)
          ∧ (gt0 pr = true → 0 ≤ x < Z.of_nat n).
Proof.
  intros Hv Hi.
  destruct (getitem2_entry Hok i v Hi Hv) as (x & pr & Hgr & Hgp & Hent).
  exists x, pr. split; [done|]. split; [done|]. split.
  - destruct Hent as (row & prow & Hr & Hp & Hx & Hpr).
    unfold loop_edge, slot_edge. simpl. rewrite Hr, Hp. simpl.
    rewrite Hx, Hpr. simpl. destruct (gt0 pr); [|done].
    by rewrite Z2Nat.id by lia.
  - intros Hg%gt0_spec. by apply (ok_recv _ _ _ _ Hok _ _ _ _ Hent).
Qed.

Lemma handled_all y :
  count_occ_Z y (handled r p (col_major q n)) = donor_count r p y.
Proof.
  unfold handled, donor_count. apply count_occ_Z_perm.
  apply fmap_Permutation, (loop_edges_perm n q), Hok.
Qed.

Lemma handled_prefix_le pre post y :
  col_major q n = pre ++ post →
  count_occ_Z y (handled r p pre) ≤ donor_count r p y.
Proof.
  intros H. rewrite <- handled_all, H. unfold handled.
  rewrite omap_app, fmap_app, count_occ_Z_app.
  pose proof (count_occ_Z_nonneg y (omap (loop_edge r p) post).*2). lia.
Qed.

(** The loop invariant of [_make_array_of_donors_to_n]. *)
Record donors_inv (n : nat) (r : list (list Z)) (p : list (list Q))
    (pre : list (Z * Z)) (st : donors_state) : Prop := {
  inv_w : length (ds_w st) = n;
  inv_D : length (ds_D st)
          = Z.to_nat (offset_of (donor_count r p <$> range n) (Z.of_nat n));
  inv_count : ∀ x, 0 ≤ x < Z.of_nat n →
    ds_w st !! Z.to_nat x = Some (count_occ_Z x (handled r p pre));
  inv_log_edges : (λ e, (e.2, e.1.1)) <$> ds_log st = omap (loop_edge r p) pre;
  inv_log : ∀ ri ind i, (ri, ind, i) ∈ ds_log st →
    0 ≤ ri < Z.of_nat n
    ∧ offset_of (donor_count r p <$> range n) ri ≤ ind
      < offset_of (donor_count r p <$> range n) ri
        + count_occ_Z ri (handled r p pre);
  inv_log_D : ∀ ri ind i, (ri, ind, i) ∈ ds_log st →
    ds_D st !! Z.to_nat ind = Some i;
  inv_nodup : NoDup (ds_log st).*1.*2;
  inv_D_in : ∀ x j, 0 ≤ x < Z.of_nat n →
    (∃ k, 0 ≤ k < count_occ_Z x (handled r p pre)
          ∧ ds_D st
            !! Z.to_nat (offset_of (donor_count r p <$> range n) x + k)
            = Some j)
    ↔ (j, x) ∈ omap (loop_edge r p) pre
}.

(** Intervals of distinct receivers do not meet. *)
Lemma off_disjoint (x y a b : Z) :
  0 ≤ x < Z.of_nat n → 0 ≤ y < Z.of_nat n → x ≠ y →
  off x ≤ a < off (x + 1) → off y ≤ b < off (y + 1) → a ≠ b.
Proof.
  intros Hx Hy Hne Ha Hb.
  destruct (decide (x < y)).
  - pose proof (off_mono n r p (x + 1) y ltac:(lia)). lia.
  - pose proof (off_mono n r p (y + 1) x ltac:(lia)). lia.
Qed.

Lemma donors_body_inv pre v i post st :
  col_major q n = pre ++ (v, i) :: post →
  donors_inv n r p pre st →
  ∃ st', donors_body r p delta v i st = Ok st'
         ∧ donors_inv n r p (pre ++ [(v, i)]) st'.
Proof.
  intros Hsplit Hinv.
  assert (0 ≤ v < Z.of_nat q ∧ 0 ≤ i < Z.of_nat n) as [Hv Hi].
  { apply elem_of_col_major. rewrite Hsplit. apply elem_of_app. right. by left. }
  destruct (loop_edge_at v i Hv Hi) as (x & pr & Hgr & Hgp & Hle & Hx).
  unfold donors_body. rewrite Hgr, Hgp. simpl.
  destruct (gt0 pr) eqn:Hg.
  2:{ exists st. split; [done|]. destruct Hinv. split; try done.
      - by rewrite handled_snoc, Hle, app_nil_r.
      - rewrite omap_app. simpl. by rewrite Hle, app_nil_r.
      - by rewrite handled_snoc, Hle, app_nil_r.
      - intros y j Hy. rewrite handled_snoc, Hle, app_nil_r, omap_app. simpl.
        rewrite Hle, app_nil_r. by apply inv_D_in0. }
  specialize (Hx eq_refl).
  set (c := count_occ_Z x (handled r p pre)).
  assert (handled r p (pre ++ [(v, i)]) = handled r p pre ++ [x]) as Hsnoc.
  { by rewrite handled_snoc, Hle. }
  assert (∀ y, count_occ_Z y (handled r p (pre ++ [(v, i)]))
               = count_occ_Z y (handled r p pre) + (if decide (x = y) then 1 else 0))
    as Hcnt.
  { intros y. rewrite Hsnoc, count_occ_Z_app, count_occ_Z_cons.
    change (count_occ_Z y []) with 0. lia. }
  assert (∀ y, count_occ_Z y (handled r p (pre ++ [(v, i)])) ≤ donor_count r p y)
    as Hle'.
  { intros y. apply (handled_prefix_le _ post). by rewrite <- app_assoc. }
  pose proof (Hle' x) as Hc. rewrite Hcnt, decide_True in Hc by done. fold c in Hc.
  pose proof (count_occ_Z_nonneg x (handled r p pre)) as Hc0. fold c in Hc0.
  pose proof (off_succ n r p x Hx) as Hsx.
  pose proof (off_mono n r p (x + 1) (Z.of_nat n) ltac:(lia)) as Hxn.
  pose proof (off_nonneg n r p x) as Hox.
  destruct Hinv as [Hw HD Hcount Hedges Hlog HlogD Hnd HDin].
  rewrite (getitem_delta n r p x) by lia. simpl.
  rewrite (getitem_nonneg (ds_w st) x c) by (lia || by apply Hcount). simpl.
  rewrite setitem_nonneg by lia. simpl.
  rewrite setitem_nonneg by lia. simpl.
  eexists. split; [done|].
  assert (∀ ri ind j, (ri, ind, j) ∈ ds_log st → ind ≠ off x + c) as Hfresh.
  { intros ri ind j Hin. destruct (Hlog ri ind j Hin) as [Hri Hind].
    destruct (decide (ri = x)) as [->|Hne]; [fold c in Hind; lia|].
    pose proof (handled_prefix_le pre ((v, i) :: post) ri Hsplit).
    pose proof (off_succ n r p ri Hri).
    apply (off_disjoint ri x); try done; lia. }
  split; simpl.
  - by rewrite length_insert.
  - by rewrite length_insert.
  - intros y Hy. rewrite Hcnt. destruct (decide (x = y)) as [<-|Hne].
    + rewrite list_lookup_insert_eq by lia. done.
    + rewrite list_lookup_insert_ne by lia. rewrite Hcount by done.
      f_equal. lia.
  - rewrite fmap_app, omap_app, Hedges. simpl. by rewrite Hle.
  - intros ri ind j [Hin|Hin%list_elem_of_singleton]%elem_of_app.
    + destruct (Hlog ri ind j Hin) as [Hri Hind]. split; [done|].
      rewrite Hcnt. case_decide; lia.
    + injection Hin as -> -> ->. split; [done|].
      rewrite Hcnt, decide_True by done. fold c. lia.
  - intros ri ind j [Hin|Hin%list_elem_of_singleton]%elem_of_app.
    + pose proof (Hfresh ri ind j Hin).
      destruct (Hlog ri ind j Hin) as [Hri Hind].
      pose proof (off_nonneg n r p ri).
      rewrite list_lookup_insert_ne by lia. by apply (HlogD ri).
    + injection Hin as -> -> ->. apply list_lookup_insert_eq. lia.
  - rewrite !fmap_app. apply NoDup_app. split; [done|]. split.
    + intros ind Hin ->%list_elem_of_singleton.
      apply list_elem_of_fmap in Hin as ([ri ind'] & Heq & Hin). simpl in Heq.
      subst ind'.
      apply list_elem_of_fmap in Hin as ([[ri' ind'] j] & Heq & Hin).
      simpl in Heq. injection Heq as <- <-. by apply (Hfresh ri _ j Hin).
    + apply NoDup_singleton.
  - intros y j Hy. rewrite omap_app. simpl. rewrite Hle. simpl.
    rewrite elem_of_app, list_elem_of_singleton, <- HDin by done.
    rewrite Hcnt.
    pose proof (off_nonneg n r p y) as Hoy.
    pose proof (off_succ n r p y Hy) as Hsy.
    pose proof (handled_prefix_le pre ((v, i) :: post) y Hsplit) as Hyle.
    pose proof (Hle' y) as Hyle'. rewrite Hcnt in Hyle'.
    split.
    + intros (k & Hk & HDk).
      destruct (decide (off y + k = off x + c)) as [Heq|Hne].
      * assert (y = x) as ->.
        { destruct (decide (y = x)) as [|Hyx]; [done|]. exfalso.
          apply (off_disjoint y x (off y + k) (off x + c)); try done.
          - case_decide; lia.
          - lia. }
        right. rewrite Heq, list_lookup_insert_eq in HDk by lia. congruence.
      * left. exists k. rewrite list_lookup_insert_ne in HDk by lia.
        split; [|done]. case_decide; [subst y; fold c in Hk|]; lia.
    + intros [(k & Hk & HDk)|Heq].
      * exists k. split; [case_decide; lia|].
        rewrite list_lookup_insert_ne; [done|].
        destruct (decide (y = x)) as [->|Hyx]; [fold c in Hk; lia|].
        assert (off y + k ≠ off x + c); [|lia].
        apply (off_disjoint y x); try done; lia.
      * injection Heq as -> ->. exists c. rewrite decide_True by done.
        split; [fold c; lia|]. apply list_lookup_insert_eq. lia.
Qed.
End donor_lists.

Lemma elem_of_py_slice {A : Type} (l : list A) (a b : Z) (j : A) :
  0 ≤ a ≤ b → b ≤ Z.of_nat (length l) →
  j ∈ py_slice l a b ↔ ∃ k, 0 ≤ k < b - a ∧ l !! Z.to_nat (a + k) = Some j.
Proof.
  intros Hab Hb. unfold py_slice, slice_bound.
  rewrite !decide_False by lia. rewrite list_elem_of_lookup.
  replace (Z.to_nat (Z.min a (Z.of_nat (length l)))) with (Z.to_nat a) by lia.
  replace (Z.to_nat (Z.min b (Z.of_nat (length l)))) with (Z.to_nat b) by lia.
  split.
  - intros (i & [Hi Hlt]%lookup_take_Some). rewrite lookup_drop in Hi.
    exists (Z.of_nat i). split; [lia|].
    by replace (Z.to_nat (a + Z.of_nat i)) with (Z.to_nat a + i)%nat by lia.
  - intros (k & Hk & Hl). exists (Z.to_nat k). apply lookup_take_Some.
    split; [|lia]. rewrite lookup_drop.
    by replace (Z.to_nat a + Z.to_nat k)%nat with (Z.to_nat (a + k)) by lia.
Qed.

(** Tables without rows have, as far as the code can tell, no columns. *)
Lemma tables_ok_shape (n q : nat) r p :
  tables_ok n q r p → ∃ q', tables_ok n q' r p ∧ shape r = (n, q').
Proof.
  intros Hok. destruct (shape_ok Hok) as [Hs|[-> Hs]]; [by exists q|].
  exists 0%nat. split; [|done]. destruct Hok as [[Hr _] [Hp _] Hrecv].
  destruct r, p; done.
Qed.

(** What [_make_array_of_donors_to_n] achieves when [delta] is built from the
    donor counts: every write lands in the interval of its receiver, the
    writes cover [D] exactly once, and the interval of a node lists its
    donors. *)
Lemma donors_log_spec (n q : nat) r p :
  tables_ok n q r p →
  let nd := donor_count r p <$> range n in
  let delta := _make_delta_array_to_n nd in
  ∃ st,
    _make_array_of_donors_to_n_log r p delta = Ok st
    ∧ Z.of_nat (length (ds_D st)) = offset_of nd (Z.of_nat n)
    ∧ ((λ e, (e.2, e.1.1)) <$> ds_log st ≡ₚ edges_of r p
       ∧ ∀ ri ind i, (ri, ind, i) ∈ ds_log st →
         0 ≤ ri < Z.of_nat n
         ∧ offset_of nd ri ≤ ind < offset_of nd (ri + 1)
         ∧ offset_of nd (ri + 1) ≤ offset_of nd (Z.of_nat n)
         ∧ ds_D st !! Z.to_nat ind = Some i)
    ∧ (ds_log st).*1.*2 ≡ₚ seqZ 0 (offset_of nd (Z.of_nat n))
    ∧ (∀ x j, 0 ≤ x < Z.of_nat n →
         j ∈ py_slice (ds_D st) (offset_of nd x) (offset_of nd (x + 1))
         ↔ edge r p j x).
Proof.
  intros Hok0. cbv zeta.
  destruct (tables_ok_shape n q r p Hok0) as (q' & Hok & Hshape). clear q Hok0.
  pose proof (off_nonneg n r p (Z.of_nat n)) as Hnt.
  unfold _make_array_of_donors_to_n_log. rewrite Hshape.
  rewrite getitem_delta_last. simpl.
  rewrite decide_False by lia.
  rewrite (nested_for_in q' n (donors_body r p (_make_delta_array_to_n
             (donor_count r p <$> range n)))).
  destruct (for_in_invariant (donors_inv n r p) (col_major q' n)
    (λ vi st, donors_body r p
                (_make_delta_array_to_n (donor_count r p <$> range n))
                vi.1 vi.2 st)
    (DonorsState (replicate n 0)
       (replicate (Z.to_nat (offset_of (donor_count r p <$> range n)
                               (Z.of_nat n))) 0) []))
    as (st & Hrun & Hinv).
  - split; simpl.
    + by rewrite length_replicate.
    + by rewrite length_replicate.
    + intros x Hx. by rewrite lookup_replicate_2 by lia.
    + done.
    + by intros ri ind i ?%elem_of_nil.
    + by intros ri ind i ?%elem_of_nil.
    + constructor.
    + intros x j Hx. split; [|by intros ?%elem_of_nil].
      intros (k & Hk & _). change (count_occ_Z x (handled r p [])) with 0 in Hk.
      lia.
  - intros pre [v i] post st Hsplit Hinv. simpl.
    by apply (donors_body_inv Hok pre v i post).
  - exists st. split; [done|].
    destruct Hinv as [Hw HD Hcount Hedges Hlog HlogD Hnd HDin].
    assert (length (ds_log st) = length (handled r p (col_major q' n)))
      as Hloglen.
    { unfold handled. rewrite length_fmap, <- Hedges. by rewrite length_fmap. }
    assert (∀ y, count_occ_Z y (handled r p (col_major q' n)) = donor_count r p y)
      as Hall by (intros; by apply handled_all).
    assert (∀ ri ind i, (ri, ind, i) ∈ ds_log st →
         0 ≤ ri < Z.of_nat n
         ∧ offset_of (donor_count r p <$> range n) ri ≤ ind
           < offset_of (donor_count r p <$> range n) (ri + 1)
         ∧ offset_of (donor_count r p <$> range n) (ri + 1)
           ≤ offset_of (donor_count r p <$> range n) (Z.of_nat n)
         ∧ ds_D st !! Z.to_nat ind = Some i) as Hlog'.
    { intros ri ind i Hin. destruct (Hlog ri ind i Hin) as [Hri Hind].
      rewrite Hall in Hind. split; [done|].
      pose proof (off_succ n r p ri Hri).
      pose proof (off_mono n r p (ri + 1) (Z.of_nat n) ltac:(lia)).
      split; [lia|]. split; [lia|]. by apply (HlogD ri). }
    split; [lia|]. split.
    { split; [|done]. rewrite Hedges.
      apply (loop_edges_perm n q' r p (ok_r _ _ _ _ Hok)). }
    split.
    + apply permutation_by_check; [done| |].
      * apply Forall_forall. intros ind Hin.
        apply list_elem_of_fmap in Hin as ([ri ind'] & -> & Hin). simpl.
        apply list_elem_of_fmap in Hin as ([[ri' ind''] j] & Heq & Hin).
        simpl in Heq. injection Heq as <- <-.
        destruct (Hlog' ri ind' j Hin) as (Hri & Hind & Hle & _).
        pose proof (off_nonneg n r p ri). apply elem_of_seqZ. lia.
      * rewrite length_seqZ, !length_fmap, Hloglen. unfold handled.
        rewrite length_fmap.
        rewrite (Permutation_length (loop_edges_perm n q' r p (ok_r _ _ _ _ Hok))).
        pose proof (off_total n r p q' Hok). lia.
    + intros x j Hx.
      pose proof (off_nonneg n r p x).
      pose proof (off_mono n r p (x + 1) (Z.of_nat n) ltac:(lia)).
      pose proof (off_succ n r p x Hx) as Hsx.
      pose proof (count_occ_Z_nonneg x (edges_of r p).*2) as Hdc.
      fold (donor_count r p x) in Hdc.
      rewrite elem_of_py_slice by lia.
      rewrite <- elem_of_edges_of, <- (loop_edges_perm n q' r p (ok_r _ _ _ _ Hok)).
      rewrite <- (HDin x j Hx), Hall.
      replace (offset_of (donor_count r p <$> range n) (x + 1)
               - offset_of (donor_count r p <$> range n) x)
        with (donor_count r p x) by lia.
      done.
Qed.

(** C10 (in-bounds donor-list construction).  With [delta] built from the
    donor counts of the same tables, [_make_array_of_donors_to_n] returns an
    array [D] of [delta[-1]] entries.  Its loop performs one write
    [D[ind] = i] for each positive-proportion entry (donor [i], receiver [ri])
    of the tables, at [ind = delta[ri] + w[ri]]; each write has
    [delta[ri] <= ind < delta[ri+1] <= delta[-1]], hence lies inside [D]; the
    indices written are exactly [0 .. len(D) - 1], each once; and the
    returned [D] holds at [ind] the value [i] of that one write. *)
Theorem donor_writes_in_bounds_once
    (n q : nat) (r : list (list Z)) (p : list (list Q)) (nd delta : list Z) :
  tables_ok n q r p →
  nd = donor_count r p <$> range n →
  delta = _make_delta_array_to_n nd →
  ∃ st nt,
    _make_array_of_donors_to_n_log r p delta = Ok st
    ∧ _make_array_of_donors_to_n r p delta = Ok (ds_D st)
    ∧ getitem delta (-1) = Ok nt
    ∧ Z.of_nat (length (ds_D st)) = nt
    ∧ (λ e, (e.2, e.1.1)) <$> ds_log st ≡ₚ edges_of r p
    ∧ (∀ ri ind i, (ri, ind, i) ∈ ds_log st →
         ∃ d d', getitem delta ri = Ok d ∧ getitem delta (ri + 1) = Ok d'
                 ∧ d ≤ ind < d' ∧ d' ≤ nt
                 ∧ 0 ≤ ind < Z.of_nat (length (ds_D st))
                 ∧ getitem (ds_D st) ind = Ok i)
    ∧ (ds_log st).*1.*2 ≡ₚ seqZ 0 (Z.of_nat (length (ds_D st))).
Proof.
  intros Hok -> ->.
  destruct (donors_log_spec n q r p Hok)
    as (st & Hrun & HD & [Hedges Hlog] & Hperm & _).
  exists st, (offset_of (donor_count r p <$> range n) (Z.of_nat n)).
  split; [done|].
  split; [unfold _make_array_of_donors_to_n; by rewrite Hrun|].
  split; [apply getitem_delta_last|]. split; [done|]. split; [done|].
  split; [|by rewrite HD].
  intros ri ind i Hin. destruct (Hlog ri ind i Hin) as (Hri & Hind & Hle & HDi).
  exists (offset_of (donor_count r p <$> range n) ri),
         (offset_of (donor_count r p <$> range n) (ri + 1)).
  rewrite !getitem_delta by lia.
  pose proof (off_nonneg n r p ri).
  repeat split; try done; try lia.
  apply getitem_nonneg; [lia|done].
Qed.

Lemma donor_writes_in_bounds_once_witness :
  ∃ st nt,
    _make_array_of_donors_to_n_log r_ref p_ref
      (_make_delta_array_to_n (donor_count r_ref p_ref <$> range 10)) = Ok st
    ∧ _make_array_of_donors_to_n r_ref p_ref
        (_make_delta_array_to_n (donor_count r_ref p_ref <$> range 10))
      = Ok (ds_D st)
    ∧ getitem (_make_delta_array_to_n (donor_count r_ref p_ref <$> range 10))
        (-1) = Ok nt
    ∧ Z.of_nat (length (ds_D st)) = nt
    ∧ (λ e, (e.2, e.1.1)) <$> ds_log st ≡ₚ edges_of r_ref p_ref
    ∧ (∀ ri ind i, (ri, ind, i) ∈ ds_log st →
         ∃ d d',
           getitem (_make_delta_array_to_n (donor_count r_ref p_ref <$> range 10))
             ri = Ok d
           ∧ getitem (_make_delta_array_to_n (donor_count r_ref p_ref <$> range 10))
               (ri + 1) = Ok d'
           ∧ d ≤ ind < d' ∧ d' ≤ nt
           ∧ 0 ≤ ind < Z.of_nat (length (ds_D st))
           ∧ getitem (ds_D st) ind = Ok i)
    ∧ (ds_log st).*1.*2 ≡ₚ seqZ 0 (Z.of_nat (length (ds_D st))).
Proof.
  apply (donor_writes_in_bounds_once 10 2 r_ref p_ref
           (donor_count r_ref p_ref <$> range 10)
           (_make_delta_array_to_n (donor_count r_ref p_ref <$> range 10))).
  - apply tables_ok_by_check; by_compute.
  - reflexivity.
  - reflexivity.
Defined.

Example donor_count_ref :
  donor_count r_ref p_ref <$> range 10 = [0; 2; 2; 0; 4; 4; 2; 3; 1; 0].
Proof. by vm_compute. Qed.

(** * The ordering pipeline *)

Lemma baselevel_of_spec (n q : nat) (r : list (list Z)) :
  ndarray2 n q r → (0 < q)%nat →
  ∃ bl, baselevel_of r = Ok bl ∧ ∀ b, b ∈ bl ↔ is_base r b.
Proof.
  intros [Hrn Hrq] Hq. unfold baselevel_of.
  destruct (for_in_invariant
    (λ pre acc, Forall2 (λ (row : list Z) x, row !! 0%nat = Some x) pre acc)
    r (λ row acc, x ← getitem row 0; Ok (acc ++ [x])) [])
    as (col0 & -> & Hcol).
  - constructor.
  - intros pre row post acc Hsplit Hacc.
    assert (length row = q) as Hlen.
    { apply (proj1 (Forall_forall _ _) Hrq). rewrite Hsplit.
      apply elem_of_app. right. by left. }
    destruct (getitem_in_range row 0 ltac:(lia)) as (x & -> & Hx). simpl.
    eexists. split; [done|]. apply Forall2_app; [done|]. by constructor.
  - simpl. eexists. split; [done|]. intros b.
    rewrite list_elem_of_fmap. split.
    + intros ([b' x] & -> & [Heq Hin]%list_elem_of_filter). simpl in *.
      subst x. apply list_elem_of_lookup in Hin as [i Hi].
      apply lookup_zip_Some in Hi as [Hb Hx].
      pose proof (lookup_lt_Some _ _ _ Hb) as Hi. rewrite range_length in Hi.
      rewrite range_lookup in Hb by lia. injection Hb as <-.
      destruct (Forall2_lookup_r _ _ _ _ _ Hcol Hx) as (row & Hrow & H0).
      split; [lia|]. exists row. by rewrite Nat2Z.id.
    + intros (Hb & row & Hrow & H0).
      destruct (Forall2_lookup_l _ _ _ _ _ Hcol Hrow) as (x & Hx & H0').
      assert (x = b) as -> by congruence.
      exists (b, b). split; [done|]. apply list_elem_of_filter. split; [done|].
      apply (list_elem_of_lookup_2 _ (Z.to_nat b)). apply lookup_zip_Some.
      split; [|done]. apply lookup_lt_Some in Hrow.
      rewrite range_lookup by lia. f_equal. lia.
Qed.

(** The CSR arrays [delta], [D] encode the donor relation of the tables. *)
Definition encodes (n : nat) (r : list (list Z)) (p : list (list Q))
    (delta D : list Z) : Prop :=
  length delta = S n ∧
  ∀ x, 0 ≤ x < Z.of_nat n →
    ∃ ds, donors_of delta D x = Ok ds ∧ ∀ j, j ∈ ds ↔ edge r p j x.

(** Stages 1 to 3 on well-formed tables hand the traversal an encoding of the
    donor relation and the base-level nodes. *)
Lemma pipeline_spec (n q : nat) r p :
  tables_ok n q r p → sentinel_ok r p → (0 < n)%nat → (0 < q)%nat →
  ∃ delta D bl,
    encodes n r p delta D
    ∧ (∀ b, b ∈ bl ↔ is_base r b)
    ∧ ∀ fuel, ordered_visit_time fuel r p
              = construct__stack_visit_time fuel delta D bl.
Proof.
  intros Hok Hsent Hn Hq.
  destruct (baselevel_of_spec n q r (ok_r _ _ _ _ Hok) Hq) as (bl & Hbl & Hbase).
  destruct (donors_log_spec n q r p Hok) as (st & Hrun & HD & _ & _ & Hdon).
  exists (_make_delta_array_to_n (donor_count r p <$> range n)), (ds_D st), bl.
  split; [|split; [done|]].
  - split; [by rewrite length_delta, length_fmap_range|].
    intros x Hx. eexists. split; [|intros j; by apply (Hdon x j)].
    unfold donors_of. by rewrite !getitem_delta by lia.
  - intros fuel. unfold ordered_visit_time. rewrite Hbl. simpl.
    rewrite (number_of_donors_spec n q r p Hok Hsent Hn Hq). simpl.
    unfold _make_array_of_donors_to_n. by rewrite Hrun.
Qed.

(** * The breadth-first traversal *)

(** The donors of the nodes of [X], read off the tables. *)
Definition upstream_set (r : list (list Z)) (p : list (list Q)) (X : gset Z)
  : gset Z :=
  list_to_set ((filter (λ e, e.2 ∈ X) (edges_of r p)).*1).

(** [lev r p k X]: the set [base] holds after [k] further rounds of the loop
    started with [base = X]. *)
Fixpoint lev (r : list (list Z)) (p : list (list Q)) (k : nat) (X : gset Z)
  : gset Z :=
  match k with
  | O => X
  | S k' => lev r p k' (upstream_set r p X)
  end.

Lemma elem_of_upstream_set r p X j :
  j ∈ upstream_set r p X ↔ ∃ x, x ∈ X ∧ edge r p j x.
Proof.
  unfold upstream_set. rewrite elem_of_list_to_set, list_elem_of_fmap. split.
  - intros ([u x] & -> & [Hx He]%list_elem_of_filter). simpl in *.
    exists x. split; [done|]. by apply elem_of_edges_of.
  - intros (x & Hx & He). exists (j, x). split; [done|].
    apply list_elem_of_filter. split; [done|]. by apply elem_of_edges_of.
Qed.

Lemma upstream_set_empty r p : upstream_set r p ∅ = ∅.
Proof.
  apply set_eq. intros j. rewrite elem_of_upstream_set. split.
  - intros (x & Hx & _). by apply not_elem_of_empty in Hx.
  - intros Hj. by apply not_elem_of_empty in Hj.
Qed.

Lemma lev_empty r p k : lev r p k ∅ = ∅.
Proof. induction k as [|k IH]; [done|]. simpl. by rewrite upstream_set_empty. Qed.

Lemma lev_S r p k X : lev r p (S k) X = upstream_set r p (lev r p k X).
Proof. revert X. induction k as [|k IH]; intros X; [done|]. simpl. by rewrite <- IH. Qed.

(** [vt'] is [vt] with the entries of [X] set to [c]. *)
Definition marks (vt : list Z) (X : gset Z) (c : Z) (vt' : list Z) : Prop :=
  length vt' = length vt ∧
  ∀ k : nat, (Z.of_nat k ∈ X → vt' !! k = Some c) ∧
             (Z.of_nat k ∉ X → vt' !! k = vt !! k).

Lemma setitems_marks (vt : list Z) (X : gset Z) (c : Z) :
  (∀ x, x ∈ X → 0 ≤ x < Z.of_nat (length vt)) →
  ∃ vt', setitems vt (elements X) c = Ok vt' ∧ marks vt X c vt'.
Proof.
  intros HX.
  destruct (setitems_valid vt (elements X) c) as (vt' & Hrun & Hlen & Hk).
  { apply Forall_forall. intros x Hx%elem_of_elements. by apply HX. }
  exists vt'. split; [done|]. split; [done|]. intros k. split.
  - intros Hin. apply Hk; [by apply elem_of_elements|].
    specialize (HX _ Hin). lia.
  - intros Hin. apply Hk. by rewrite elem_of_elements.
Qed.

Section traversal.
Context {n q : nat} {r : list (list Z)} {p : list (list Q)}.
Context (Hok : tables_ok n q r p).
Context {delta D : list Z} (Henc : encodes n r p delta D).

Local Abbreviation nodes X := (∀ x : Z, x ∈ X → 0 ≤ x < Z.of_nat n).
Local Abbreviation U := (upstream_set r p).

Lemma nodes_upstream (X : gset Z) : nodes (U X).
Proof.
  intros j (x & _ & He)%elem_of_upstream_set.
  by apply (edge_donor_in_range n q r p j x).
Qed.

Lemma nodes_lev k (X : gset Z) : nodes X → nodes (lev r p k X).
Proof.
  revert X. induction k as [|k IH]; intros X HX; [done|].
  simpl. apply IH, nodes_upstream.
Qed.

Lemma collect_upstream_spec (base : gset Z) :
  nodes base → collect_upstream delta D base = Ok (U base).
Proof.
  intros Hb. unfold collect_upstream.
  destruct (for_in_invariant
    (λ pre (acc : gset Z), ∀ j, j ∈ acc ↔ ∃ x, x ∈ pre ∧ edge r p j x)
    (elements base)
    (λ node_i upstream,
       ds ← donors_of delta D node_i; Ok (upstream ∪ list_to_set ds))
    ∅) as (acc & Hrun & Hacc).
  - intros j. split; [set_solver|]. intros (x & Hx & _). by apply elem_of_nil in Hx.
  - intros pre x post acc Hsplit Hacc.
    assert (x ∈ base) as Hx.
    { apply elem_of_elements. rewrite Hsplit.
      apply elem_of_app. right. by apply elem_of_cons; left. }
    destruct Henc as [_ Hdon].
    destruct (Hdon x (Hb x Hx)) as (ds & Hds & Hin).
    rewrite Hds. simpl. eexists. split; [done|].
    intros j. rewrite elem_of_union, elem_of_list_to_set, Hacc, Hin. split.
    + intros [(y & Hy & He)|He].
      * exists y. split; [|done]. apply elem_of_app. by left.
      * exists x. split; [|done]. apply elem_of_app. right.
        by apply list_elem_of_singleton.
    + intros (y & [Hy| ->%list_elem_of_singleton]%elem_of_app & He).
      * left. by exists y.
      * by right.
  - rewrite Hrun. f_equal. apply set_eq. intros j.
    rewrite Hacc, elem_of_upstream_set.
    split; intros (x & Hx & He); exists x; (split; [|done]);
      by apply elem_of_elements.
Qed.

Lemma stack_loop_stop fuel i vt (base : gset Z) :
  stack_loop fuel delta D i vt base ∅ = Ok vt.
Proof.
  assert (¬ (0 < size (∅ : gset Z))%nat) as H0 by (rewrite size_empty; lia).
  destruct fuel; unfold stack_loop; fold stack_loop; by rewrite decide_False.
Qed.

Lemma stack_loop_out_of_fuel i vt (base up : gset Z) :
  up ≠ ∅ → stack_loop 0 delta D i vt base up = OutOfFuel.
Proof.
  intros Hup.
  assert (size up ≠ 0%nat) as Hsz.
  { apply (size_non_empty_iff (C := gset Z)). intros He. apply Hup.
    by apply leibniz_equiv. }
  unfold stack_loop. rewrite decide_True; [done|lia].
Qed.

Lemma stack_loop_step fuel i vt (base up : gset Z) :
  up ≠ ∅ → nodes base → length vt = n →
  ∃ vt', marks vt (base ∖ U base) (i + 1) vt' ∧
    stack_loop (S fuel) delta D i vt base up
    = stack_loop fuel delta D (i + 1) vt' (U base) (U base).
Proof.
  intros Hup Hb Hlen.
  destruct (setitems_marks vt (base ∖ U base) (i + 1)) as (vt' & Hrun & Hm).
  { intros x [Hx _]%elem_of_difference. rewrite Hlen. by apply Hb. }
  exists vt'. split; [done|].
  assert (size up ≠ 0%nat) as Hsz.
  { apply (size_non_empty_iff (C := gset Z)). intros He. apply Hup.
    by apply leibniz_equiv. }
  unfold stack_loop at 1; fold stack_loop. rewrite decide_True by lia.
  rewrite (collect_upstream_spec base Hb). simpl. rewrite Hrun. simpl.
  f_equal. apply set_eq. intros x.
  rewrite elem_of_union, !elem_of_difference.
  destruct (decide (x ∈ U base)); tauto.
Qed.

(** A finished run leaves every entry as it was or above the round counter. *)
Lemma stack_loop_monotone fuel : ∀ i vt (base up : gset Z) vtf,
  nodes base → length vt = n →
  stack_loop fuel delta D i vt base up = Ok vtf →
  length vtf = n ∧
  ∀ (k : nat) c, vt !! k = Some c →
    ∃ c', vtf !! k = Some c' ∧ (c' = c ∨ i < c').
Proof.
  induction fuel as [|fuel IH]; intros i vt base up vtf Hb Hlen Hrun;
    (destruct (decide (up = ∅)) as [->|Hne];
     [rewrite stack_loop_stop in Hrun; injection Hrun as <-;
      split; [done|]; intros k c Hk; exists c; auto|]).
  - by rewrite stack_loop_out_of_fuel in Hrun.
  - destruct (stack_loop_step fuel i vt base up Hne Hb Hlen)
      as (vt' & [Hl' Hm] & Heq).
    rewrite Heq in Hrun.
    destruct (IH _ _ _ _ _ (nodes_upstream base) (eq_trans Hl' Hlen) Hrun)
      as [Hlf Hmono].
    split; [done|]. intros k c Hk.
    destruct (decide (Z.of_nat k ∈ base ∖ U base)) as [Hin|Hin].
    + destruct (Hmono k (i + 1)) as (c' & Hc' & Hor); [by apply Hm|].
      exists c'. split; [done|]. right. lia.
    + destruct (Hmono k c) as (c' & Hc' & Hor).
      { destruct (Hm k) as [_ ->]; done. }
      exists c'. split; [done|]. destruct Hor; [by left|right; lia].
Qed.

(** A node still in [base] after [k] more rounds is visited no sooner than
    round [i + k + 1]. *)
Lemma stack_loop_lower fuel : ∀ i vt (base up : gset Z) vtf,
  nodes base → base ⊆ up → length vt = n →
  stack_loop fuel delta D i vt base up = Ok vtf →
  ∀ (k : nat) x, x ∈ lev r p k base →
    ∃ c, vtf !! Z.to_nat x = Some c ∧ i + Z.of_nat k + 1 ≤ c.
Proof.
  induction fuel as [|fuel IH]; intros i vt base up vtf Hb Hsub Hlen Hrun k x Hx;
    (destruct (decide (up = ∅)) as [->|Hne];
     [assert (base = ∅) as -> by (apply set_eq; intros y; split; [apply Hsub|set_solver]);
      rewrite lev_empty in Hx; by apply not_elem_of_empty in Hx|]).
  - by rewrite stack_loop_out_of_fuel in Hrun.
  - destruct (stack_loop_step fuel i vt base up Hne Hb Hlen)
      as (vt' & [Hl' Hm] & Heq).
    rewrite Heq in Hrun.
    destruct k as [|k].
    + simpl in Hx. destruct (decide (x ∈ U base)) as [HU|HU].
      * destruct (IH _ _ _ _ _ (nodes_upstream base) (reflexivity _)
                   (eq_trans Hl' Hlen) Hrun 0%nat x HU) as (c & Hc & Hle).
        exists c. split; [done|]. lia.
      * destruct (stack_loop_monotone _ _ _ _ _ _ (nodes_upstream base)
                    (eq_trans Hl' Hlen) Hrun) as [_ Hmono].
        destruct (Hmono (Z.to_nat x) (i + 1)) as (c & Hc & Hor).
        { apply Hm. rewrite Z2Nat.id by (specialize (Hb x Hx); lia).
          by apply elem_of_difference. }
        exists c. split; [done|]. lia.
    + simpl in Hx.
      destruct (IH _ _ _ _ _ (nodes_upstream base) (reflexivity _)
                  (eq_trans Hl' Hlen) Hrun k x Hx) as (c & Hc & Hle).
      exists c. split; [done|]. lia.
Qed.

(** An entry above the round counter was written in a round in which its
    node was in [base]. *)
Lemma stack_loop_upper fuel : ∀ i vt (base up : gset Z) vtf,
  nodes base → length vt = n →
  (∀ (k : nat) c, vt !! k = Some c → c ≤ i) →
  stack_loop fuel delta D i vt base up = Ok vtf →
  ∀ (k : nat) c, vtf !! k = Some c → i < c →
    ∃ j : nat, c = i + Z.of_nat j + 1 ∧ Z.of_nat k ∈ lev r p j base.
Proof.
  induction fuel as [|fuel IH]; intros i vt base up vtf Hb Hlen Hle Hrun k c Hk Hc;
    (destruct (decide (up = ∅)) as [->|Hne];
     [rewrite stack_loop_stop in Hrun; injection Hrun as <-;
      specialize (Hle k c Hk); lia|]).
  - by rewrite stack_loop_out_of_fuel in Hrun.
  - destruct (stack_loop_step fuel i vt base up Hne Hb Hlen)
      as (vt' & [Hl' Hm] & Heq).
    rewrite Heq in Hrun.
    assert (∀ (k : nat) c, vt' !! k = Some c → c ≤ i + 1) as Hle'.
    { intros k' c' Hk'.
      destruct (decide (Z.of_nat k' ∈ base ∖ U base)) as [Hin|Hin].
      - destruct (Hm k') as [Hset _]. rewrite (Hset Hin) in Hk'.
        injection Hk' as <-. lia.
      - destruct (Hm k') as [_ Hkeep]. rewrite (Hkeep Hin) in Hk'.
        specialize (Hle k' c' Hk'). lia. }
    destruct (decide (i + 1 < c)) as [Hbig|Hsmall].
    + destruct (IH _ _ _ _ _ (nodes_upstream base) (eq_trans Hl' Hlen) Hle' Hrun k c Hk Hbig)
        as (j & -> & Hj).
      exists (S j). split; [lia|done].
    + assert (c = i + 1) as -> by lia.
      destruct (stack_loop_monotone _ _ _ _ _ _ (nodes_upstream base)
                  (eq_trans Hl' Hlen) Hrun) as [Hlf Hmono].
      destruct (lookup_lt_is_Some_2 vt' k) as [c0 Hc0].
      { apply lookup_lt_Some in Hk. lia. }
      destruct (Hmono k c0 Hc0) as (c' & Hc' & Hor).
      rewrite Hk in Hc'. injection Hc' as <-.
      destruct Hor as [<-|Hlt]; [|lia].
      exists 0%nat. split; [lia|]. simpl.
      destruct (decide (Z.of_nat k ∈ base ∖ U base)) as [Hin|Hin].
      * by apply elem_of_difference in Hin as [Hin _].
      * destruct (Hm k) as [_ Hkeep]. rewrite (Hkeep Hin) in Hc0.
        specialize (Hle k _ Hc0). lia.
Qed.

(** The loop stops once [base] runs empty. *)
Lemma stack_loop_terminates K : ∀ fuel i vt (base up : gset Z),
  nodes base → length vt = n → lev r p K base = ∅ → (K < fuel)%nat →
  ∃ vtf, stack_loop fuel delta D i vt base up = Ok vtf.
Proof.
  induction K as [|K IH]; intros fuel i vt base up Hb Hlen Hlev Hfuel;
    (destruct (decide (up = ∅)) as [->|Hne];
     [exists vt; apply stack_loop_stop|]);
    (destruct fuel as [|fuel]; [lia|]);
    destruct (stack_loop_step fuel i vt base up Hne Hb Hlen)
      as (vt' & [Hl' Hm] & Heq); rewrite Heq.
  - simpl in Hlev. subst base. rewrite upstream_set_empty.
    exists vt'. apply stack_loop_stop.
  - apply IH; [apply nodes_upstream|lia|done|lia].
Qed.

(** ... and never stops while it does not. *)
Lemma stack_loop_diverges fuel : ∀ i vt (base up : gset Z),
  nodes base → length vt = n → up ≠ ∅ →
  (∀ k, lev r p (S k) base ≠ ∅) →
  stack_loop fuel delta D i vt base up = OutOfFuel.
Proof.
  induction fuel as [|fuel IH]; intros i vt base up Hb Hlen Hne Hlev.
  - by apply stack_loop_out_of_fuel.
  - destruct (stack_loop_step fuel i vt base up Hne Hb Hlen)
      as (vt' & [Hl' Hm] & Heq). rewrite Heq.
    apply IH; [apply nodes_upstream|lia|apply (Hlev 0%nat)|].
    intros k. apply (Hlev (S k)).
Qed.

End traversal.

(** ** Depth of the donor graph *)

Section depth.
Context {n q : nat} {r : list (list Z)} {p : list (list Q)}.
Context (Hok : tables_ok n q r p).
Context (Hterm : base_terminal r p).

(** Above nodes that are not base level there are no base-level nodes. *)
Lemma lev_not_base k : ∀ X : gset Z,
  (∀ x, x ∈ X → ¬ is_base r x) → ∀ x, x ∈ lev r p k X → ¬ is_base r x.
Proof.
  induction k as [|k IH]; intros X HX x Hx; [by apply HX|].
  simpl in Hx. apply (IH (upstream_set r p X)); [|done].
  intros j (y & Hy & He)%elem_of_upstream_set Hbase.
  apply (HX y Hy). by rewrite (Hterm j y Hbase He).
Qed.

Context (Hacyc : acyclic r p).

(** A node of level [k] heads a chain of [k + 1] distinct nodes. *)
Lemma lev_chain k (X : gset Z) :
  (∀ x, x ∈ X → 0 ≤ x < Z.of_nat n) → (∀ x, x ∈ X → ¬ is_base r x) →
  ∀ x, x ∈ lev r p k X →
    ∃ l, length l = S k ∧ NoDup l ∧
         ∀ b, b ∈ l → 0 ≤ b < Z.of_nat n
                      ∧ rtc (λ a b, edge r p a b ∧ a ≠ b) x b.
Proof.
  intros HXn HX. induction k as [|k IH]; intros x Hx.
  - exists [x]. simpl in Hx. split; [done|]. split; [apply NoDup_singleton|].
    intros b ->%list_elem_of_singleton. split; [by apply HXn|done].
  - rewrite lev_S in Hx. apply elem_of_upstream_set in Hx as (y & Hy & He).
    destruct (IH y Hy) as (l & Hlen & Hnd & Hl).
    assert (x ≠ y) as Hne.
    { intros ->. apply (lev_not_base k X HX y Hy). by apply Hacyc. }
    exists (x :: l). split; [simpl; lia|]. split.
    + apply NoDup_cons. split; [|done]. intros Hin.
      destruct (Hl x Hin) as [_ Hrtc]. apply (proj2 Hacyc x).
      eapply tc_rtc_r; [|done]. by apply tc_once.
    + intros b [->|Hb]%elem_of_cons.
      * split; [|done]. by apply (edge_donor_in_range n q r p x y).
      * destruct (Hl b Hb) as [Hbn Hrtc]. split; [done|].
        by eapply rtc_l.
Qed.

(** So no level beyond the number of nodes is inhabited. *)
Lemma lev_bound (X : gset Z) :
  (∀ x, x ∈ X → 0 ≤ x < Z.of_nat n) → (∀ x, x ∈ X → ¬ is_base r x) →
  lev r p n X = ∅.
Proof.
  intros HXn HX. apply leibniz_equiv, elem_of_equiv_empty. intros x Hx.
  destruct (lev_chain n X HXn HX x Hx) as (l & Hlen & Hnd & Hl).
  assert (length l ≤ length (range n))%nat as Hle.
  { apply submseteq_length, NoDup_submseteq; [done|].
    intros b Hb. apply elem_of_range. by apply Hl. }
  rewrite range_length in Hle. lia.
Qed.

End depth.

(** ** The visit times *)

Section visit_times.
Context {n q : nat} {r : list (list Z)} {p : list (list Q)}.
Context (Hok : tables_ok n q r p).
Context {delta D : list Z} (Henc : encodes n r p delta D).
Context {bl : list Z} (Hbl : ∀ b, b ∈ bl ↔ is_base r b).

Local Abbreviation B := (list_to_set bl : gset Z).
Local Abbreviation base0 := (upstream_set r p B ∖ B).

Lemma elem_of_B x : x ∈ B ↔ is_base r x.
Proof. by rewrite elem_of_list_to_set. Qed.

Lemma nodes_B x : x ∈ B → 0 ≤ x < Z.of_nat n.
Proof.
  intros (Hx & row & Hrow%lookup_lt_Some & _)%elem_of_B.
  destruct Hok as [[Hrn _] _ _]. lia.
Qed.

Lemma nodes_base0 x : x ∈ base0 → 0 ≤ x < Z.of_nat n.
Proof. intros [Hx _]%elem_of_difference. by apply (nodes_upstream Hok B). Qed.

Lemma base0_not_base x : x ∈ base0 → ¬ is_base r x.
Proof. intros [_ Hx]%elem_of_difference. by rewrite <- elem_of_B. Qed.

(** The code before the loop. *)
Lemma construct_unfold :
  ∃ vt0, marks (replicate n (-1)) B 0 vt0 ∧
    ∀ fuel, construct__stack_visit_time fuel delta D bl
            = stack_loop fuel delta D 0 vt0 base0 (upstream_set r p B).
Proof.
  destruct (setitems_marks (replicate n (-1)) B 0) as (vt0 & Hrun & Hm).
  { intros x Hx. rewrite length_replicate. by apply nodes_B. }
  exists vt0. split; [done|]. intros fuel.
  unfold construct__stack_visit_time. cbv zeta.
  destruct Henc as [Hlen _]. rewrite Hlen.
  rewrite decide_False by done.
  replace (S n - 1)%nat with n by lia.
  rewrite (collect_upstream_spec Hok Henc B nodes_B). simpl.
  by rewrite Hrun.
Qed.

Context {fuel : nat} {vtf : list Z}.
Context (Hrun : construct__stack_visit_time fuel delta D bl = Ok vtf).

Lemma visit_length : length vtf = n.
Proof.
  destruct construct_unfold as (vt0 & [Hl0 Hm] & Heq). rewrite Heq in Hrun.
  rewrite length_replicate in Hl0.
  by destruct (stack_loop_monotone Hok Henc _ _ _ _ _ _ nodes_base0 Hl0 Hrun).
Qed.

(** Every entry is [-1] or a round number. *)
Lemma visit_ge (k : nat) c : vtf !! k = Some c → -1 ≤ c.
Proof.
  intros Hk.
  destruct construct_unfold as (vt0 & [Hl0 Hm] & Heq). rewrite Heq in Hrun.
  rewrite length_replicate in Hl0.
  destruct (stack_loop_monotone Hok Henc _ _ _ _ _ _ nodes_base0 Hl0 Hrun)
    as [Hlf Hmono].
  destruct (lookup_lt_is_Some_2 vt0 k) as [c0 Hc0].
  { apply lookup_lt_Some in Hk. lia. }
  destruct (Hmono k c0 Hc0) as (c' & Hc' & Hor).
  rewrite Hk in Hc'. injection Hc' as <-.
  destruct Hor as [->|?]; [|lia].
  destruct (decide (Z.of_nat k ∈ B)) as [Hin|Hin].
  - destruct (Hm k) as [Hset _]. rewrite (Hset Hin) in Hc0.
    injection Hc0 as <-. lia.
  - destruct (Hm k) as [_ Hkeep]. rewrite (Hkeep Hin) in Hc0.
    apply lookup_replicate in Hc0 as [-> _]. lia.
Qed.

Lemma visit_base x :
  x ∈ B → ∃ c, vtf !! Z.to_nat x = Some c ∧ 0 ≤ c.
Proof.
  intros Hx.
  destruct construct_unfold as (vt0 & [Hl0 Hm] & Heq). rewrite Heq in Hrun.
  rewrite length_replicate in Hl0.
  destruct (stack_loop_monotone Hok Henc _ _ _ _ _ _ nodes_base0 Hl0 Hrun)
    as [_ Hmono].
  destruct (Hmono (Z.to_nat x) 0) as (c & Hc & Hor).
  { apply Hm. rewrite Z2Nat.id; [done|]. apply nodes_B in Hx. lia. }
  exists c. split; [done|]. lia.
Qed.

Lemma visit_lower (k : nat) x :
  x ∈ lev r p k base0 →
  ∃ c, vtf !! Z.to_nat x = Some c ∧ Z.of_nat k + 1 ≤ c.
Proof.
  intros Hx.
  destruct construct_unfold as (vt0 & [Hl0 Hm] & Heq). rewrite Heq in Hrun.
  rewrite length_replicate in Hl0.
  destruct (stack_loop_lower Hok Henc _ _ _ _ _ _ nodes_base0
              (subseteq_difference_l _ _ _ (reflexivity _)) Hl0 Hrun k x Hx)
    as (c & Hc & Hle).
  exists c. split; [done|]. lia.
Qed.

Lemma vt0_le (vt0 : list Z) :
  marks (replicate n (-1)) B 0 vt0 → ∀ (k : nat) c, vt0 !! k = Some c → c ≤ 0.
Proof.
  intros [_ Hm] k c Hc.
  destruct (decide (Z.of_nat k ∈ B)) as [Hin|Hin].
  - destruct (Hm k) as [Hset _]. rewrite (Hset Hin) in Hc.
    injection Hc as <-. lia.
  - destruct (Hm k) as [_ Hkeep]. rewrite (Hkeep Hin) in Hc.
    apply lookup_replicate in Hc as [-> _]. lia.
Qed.

Lemma visit_upper (k : nat) c :
  vtf !! k = Some c → 0 < c →
  ∃ j : nat, c = Z.of_nat j + 1 ∧ Z.of_nat k ∈ lev r p j base0.
Proof.
  intros Hk Hc.
  destruct construct_unfold as (vt0 & Hm & Heq). rewrite Heq in Hrun.
  pose proof Hm as [Hl0 _]. rewrite length_replicate in Hl0.
  destruct (stack_loop_upper Hok Henc _ _ _ _ _ _ nodes_base0 Hl0
              (vt0_le vt0 Hm) Hrun k c Hk Hc) as (j & -> & Hj).
  exists j. split; [lia|done].
Qed.

Lemma visit_zero (k : nat) : vtf !! k = Some 0 → Z.of_nat k ∈ B.
Proof.
  intros Hk.
  destruct construct_unfold as (vt0 & [Hl0 Hm] & Heq). rewrite Heq in Hrun.
  rewrite length_replicate in Hl0.
  destruct (stack_loop_monotone Hok Henc _ _ _ _ _ _ nodes_base0 Hl0 Hrun)
    as [Hlf Hmono].
  destruct (decide (Z.of_nat k ∈ B)) as [Hin|Hin]; [done|].
  destruct (lookup_lt_is_Some_2 vt0 k) as [c0 Hc0].
  { apply lookup_lt_Some in Hk. lia. }
  destruct (Hmono k c0 Hc0) as (c' & Hc' & Hor).
  rewrite Hk in Hc'. injection Hc' as <-.
  destruct (Hm k) as [_ Hkeep]. rewrite (Hkeep Hin) in Hc0.
  apply lookup_replicate in Hc0 as [-> _]. lia.
Qed.

(** A node the traversal never reaches keeps the default [-1]. *)
Lemma visit_unreached (k : nat) :
  (k < n)%nat → Z.of_nat k ∉ B → (∀ j, Z.of_nat k ∉ lev r p j base0) →
  vtf !! k = Some (-1).
Proof.
  intros Hkn HB Hlev.
  destruct (lookup_lt_is_Some_2 vtf k) as [c Hc]; [by rewrite visit_length|].
  pose proof (visit_ge k c Hc).
  destruct (decide (0 < c)) as [Hpos|Hnp].
  - destruct (visit_upper k c Hc Hpos) as (j & _ & Hj). by destruct (Hlev j).
  - destruct (decide (c = 0)) as [->|Hnz]; [by apply visit_zero in Hc|].
    rewrite Hc. f_equal. lia.
Qed.

End visit_times.

(** ** Reachability *)

Section reach.
Context {n q : nat} {r : list (list Z)} {p : list (list Q)}.
Context (Hok : tables_ok n q r p).
Context {bl : list Z} (Hbl : ∀ b, b ∈ bl ↔ is_base r b).

Local Abbreviation B := (list_to_set bl : gset Z).
Local Abbreviation base0 := (upstream_set r p B ∖ B).

Lemma lev_edge k (X : gset Z) u x :
  x ∈ lev r p k X → edge r p u x → u ∈ lev r p (S k) X.
Proof. intros Hx He. rewrite lev_S. apply elem_of_upstream_set. eauto. Qed.

(** The traversal reaches exactly the nodes that drain to base level. *)
Lemma drains_reached v :
  drains_to_base r p v → v ∈ B ∨ ∃ k, v ∈ lev r p k base0.
Proof.
  intros (b & Hb & Hrtc). induction Hrtc as [x|x y z Hxy Hyz IH].
  - left. by apply (elem_of_B Hbl).
  - destruct (IH Hb) as [HyB|[k Hk]].
    + destruct (decide (x ∈ B)) as [?|HxB]; [by left|].
      right. exists 0%nat. simpl. apply elem_of_difference. split; [|done].
      apply elem_of_upstream_set. eauto.
    + right. exists (S k). by apply (lev_edge k _ x y).
Qed.

Lemma reached_drains v :
  v ∈ B ∨ (∃ k, v ∈ lev r p k base0) → drains_to_base r p v.
Proof.
  intros [HB|[k Hk]].
  - exists v. split; [by apply (elem_of_B Hbl)|done].
  - revert v Hk. induction k as [|k IH]; intros v Hk.
    + simpl in Hk. apply elem_of_difference in Hk as [Hk _].
      apply elem_of_upstream_set in Hk as (b & Hb%(elem_of_B Hbl) & He).
      exists b. split; [done|]. by apply rtc_once.
    + rewrite lev_S in Hk. apply elem_of_upstream_set in Hk as (y & Hy & He).
      destruct (IH y Hy) as (b & Hb & Hrtc).
      exists b. split; [done|]. by eapply rtc_l.
Qed.

Context {delta D : list Z} (Henc : encodes n r p delta D).
Context (Hterm : base_terminal r p).
Context {fuel : nat} {vtf : list Z}.
Context (Hrun : construct__stack_visit_time fuel delta D bl = Ok vtf).

(** A base-level node keeps visit time 0. *)
Lemma visit_base_zero b : is_base r b → key vtf b = 0.
Proof.
  intros Hb. apply (elem_of_B Hbl) in Hb as HB.
  destruct (visit_base Hok Henc Hbl Hrun b HB) as (c & Hc & Hle).
  unfold key. rewrite Hc. simpl.
  destruct (decide (0 < c)) as [Hpos|?]; [|lia].
  destruct (visit_upper Hok Henc Hbl Hrun _ c Hc Hpos) as (j & _ & Hj).
  rewrite Z2Nat.id in Hj by (apply (nodes_B Hok Hbl) in HB; lia).
  by destruct (lev_not_base Hterm j base0 (base0_not_base Hbl) b Hj).
Qed.

(** A donor is visited strictly later than the node it drains to. *)
Lemma visit_edge_lt u v :
  edge r p u v → u ≠ v → drains_to_base r p v → key vtf v < key vtf u.
Proof.
  intros He Hne [HB|[k Hk]]%drains_reached.
  - rewrite (visit_base_zero v) by by apply (elem_of_B Hbl).
    assert (u ∈ lev r p 0 base0) as Hu.
    { simpl. apply elem_of_difference. split.
      - apply elem_of_upstream_set. eauto.
      - intros Hub%(elem_of_B Hbl). by destruct (Hne (eq_sym (Hterm u v Hub He))). }
    destruct (visit_lower Hok Henc Hbl Hrun 0%nat u Hu) as (c & Hc & Hle).
    unfold key. rewrite Hc. simpl. lia.
  - destruct (visit_lower Hok Henc Hbl Hrun k v Hk) as (c & Hc & Hle).
    destruct (visit_upper Hok Henc Hbl Hrun _ c Hc ltac:(lia)) as (j & -> & Hj).
    rewrite Z2Nat.id in Hj by (apply (nodes_lev Hok k base0 (nodes_base0 Hok)) in Hk; lia).
    pose proof (lev_edge j _ u v Hj He) as Hu.
    destruct (visit_lower Hok Henc Hbl Hrun (S j) u Hu) as (c' & Hc' & Hle').
    unfold key. rewrite Hc, Hc'. simpl. lia.
Qed.

Lemma visit_tc_lt u v :
  tc (edge r p) u v → drains_to_base r p v →
  key vtf v ≤ key vtf u ∧ (u ≠ v → key vtf v < key vtf u).
Proof.
  intros Htc Hv. induction Htc as [u v He|u w v He Htc IH].
  - destruct (decide (u = v)) as [->|Hne]; [split; [lia|done]|].
    pose proof (visit_edge_lt u v He Hne Hv). split; [lia|done].
  - destruct (IH Hv) as [Hle Hlt].
    assert (drains_to_base r p w) as Hw.
    { destruct Hv as (b & Hb & Hrtc). exists b. split; [done|].
      etrans; [by apply tc_rtc|done]. }
    destruct (decide (u = w)) as [->|Hne]; [done|].
    pose proof (visit_edge_lt u w He Hne Hw).
    split; [lia|]. intros _. lia.
Qed.

End reach.

(** * The order returned *)

(** ** [numpy.argsort] *)

Lemma insert_by_perm vt x s : insert_by vt x s ≡ₚ x :: s.
Proof.
  induction s as [|y s IH]; [done|]. simpl. case_decide; [done|].
  rewrite IH. apply Permutation_swap.
Qed.

Lemma insert_by_sorted vt x s :
  StronglySorted (λ a b, key vt a ≤ key vt b) s →
  StronglySorted (λ a b, key vt a ≤ key vt b) (insert_by vt x s).
Proof.
  induction 1 as [|y s Hs IH Hy]; simpl.
  - repeat constructor.
  - case_decide as Hxy.
    + constructor; [by constructor|]. constructor; [done|].
      eapply Forall_impl; [done|]. simpl. intros z Hz. lia.
    + constructor; [done|]. rewrite insert_by_perm.
      constructor; [lia|done].
Qed.

(** The executable sort is one of the orders [numpy.argsort] may return. *)
Lemma argsort_is_argsort vt : is_argsort vt (argsort vt).
Proof.
  unfold is_argsort, argsort. generalize (range (length vt)). intros l.
  induction l as [|x l [IHp IHs]]; simpl.
  - split; [done|constructor].
  - split; [by rewrite insert_by_perm, IHp|by apply insert_by_sorted].
Qed.

Lemma sorted_lookup_le vt s (i j : nat) a b :
  StronglySorted (λ a b, key vt a ≤ key vt b) s → (i < j)%nat →
  s !! i = Some a → s !! j = Some b → key vt a ≤ key vt b.
Proof.
  intros Hs. revert i j. induction Hs as [|y s Hs IH Hy]; intros i j Hij Hi Hj.
  - done.
  - destruct j as [|j]; [lia|]. simpl in Hj. destruct i as [|i].
    + injection Hi as <-.
      apply (proj1 (Forall_forall _ _) Hy b), (list_elem_of_lookup_2 _ _ _ Hj).
    + simpl in Hi. apply (IH i j); [lia|done..].
Qed.

(** In an argsort, a strictly smaller key stands strictly earlier. *)
Lemma is_argsort_lt vt s (i j : nat) a b :
  is_argsort vt s → s !! i = Some a → s !! j = Some b →
  key vt a < key vt b → (i < j)%nat.
Proof.
  intros [_ Hs] Hi Hj Hlt.
  destruct (decide (i < j)%nat) as [?|Hge]; [done|].
  destruct (decide (i = j)) as [->|Hne].
  - rewrite Hi in Hj. injection Hj as ->. lia.
  - pose proof (sorted_lookup_le vt s j i b a Hs ltac:(lia) Hj Hi). lia.
Qed.

(** ** Shape of the visit times *)

Lemma slice_bound_le len i : (slice_bound len i ≤ len)%nat.
Proof. unfold slice_bound. case_decide; lia. Qed.

Lemma assign_prefix_length nd k vals nd' :
  assign_prefix nd k vals = Ok nd' → length nd' = length nd.
Proof.
  unfold assign_prefix. pose proof (slice_bound_le (length nd) k).
  case_decide as Hv.
  - intros [= <-]. rewrite length_app, length_drop. lia.
  - destruct vals as [|c [|]]; [done| |done].
    intros [= <-]. rewrite length_app, length_replicate, length_drop. lia.
Qed.

Lemma number_of_donors_length r p nd :
  _make_number_of_donors_array_to_n r p = Ok nd → length nd = length r.
Proof.
  unfold _make_number_of_donors_array_to_n.
  intros (mx & _ & (f & _ & (c & _ & H)%bind_Ok)%bind_Ok)%bind_Ok.
  apply assign_prefix_length in H. by rewrite length_replicate in H.
Qed.

Lemma stack_loop_length fuel delta D : ∀ i vt (base up : gset Z) vtf,
  stack_loop fuel delta D i vt base up = Ok vtf → length vtf = length vt.
Proof.
  induction fuel as [|fuel IH]; intros i vt base up vtf; simpl;
    (case_decide; [|by intros [= ->]]); [done|].
  intros (up' & _ & (vt' & Hset%setitems_length & Hrun)%bind_Ok)%bind_Ok.
  apply IH in Hrun. congruence.
Qed.

Lemma construct_length fuel delta D bl vt :
  construct__stack_visit_time fuel delta D bl = Ok vt →
  S (length vt) = length delta.
Proof.
  unfold construct__stack_visit_time. cbv zeta. case_decide as Hd; [done|].
  intros (up & _ & (vt' & Hset%setitems_length & Hrun%stack_loop_length)%bind_Ok)%bind_Ok.
  rewrite length_replicate in Hset. lia.
Qed.

(** The visit times have one entry per node, on every input. *)
Lemma ordered_visit_time_length fuel r p vt :
  ordered_visit_time fuel r p = Ok vt → length vt = length r.
Proof.
  unfold ordered_visit_time.
  intros (bl & _ & (nd & Hnd%number_of_donors_length
                    & (D & _ & Hrun%construct_length)%bind_Ok)%bind_Ok)%bind_Ok.
  rewrite length_delta in Hrun. lia.
Qed.

Lemma make_ordered_unfold fuel r p :
  make_ordered_node_array_to_n fuel r p
  = vt ← ordered_visit_time fuel r p; Ok (argsort vt).
Proof.
  unfold make_ordered_node_array_to_n, ordered_visit_time, construct__stack.
  destruct (baselevel_of r); [simpl|done..].
  destruct (_make_number_of_donors_array_to_n r p); [simpl|done..].
  by destruct (_make_array_of_donors_to_n r p _).
Qed.

(** What [make_ordered_node_array_to_n] returns is one of the admitted
    orders. *)
Lemma make_ordered_returns fuel r p s :
  make_ordered_node_array_to_n fuel r p = Ok s → returns_order fuel r p s.
Proof.
  rewrite make_ordered_unfold. intros (vt & Hvt & [= <-])%bind_Ok.
  exists vt. split; [done|apply argsort_is_argsort].
Qed.

(** ** Totality *)

Lemma ordered_visit_time_total (n q : nat) r p :
  tables_ok n q r p → sentinel_ok r p → (0 < n)%nat → (0 < q)%nat →
  acyclic r p → base_terminal r p →
  ∀ fuel, (n < fuel)%nat → ∃ vt, ordered_visit_time fuel r p = Ok vt.
Proof.
  intros Hok Hsent Hn Hq Hacyc Hterm fuel Hfuel.
  destruct (pipeline_spec n q r p Hok Hsent Hn Hq)
    as (delta & D & bl & Henc & Hbl & Heq).
  rewrite Heq.
  destruct (construct_unfold Hok Henc Hbl) as (vt0 & [Hl0 _] & Heq').
  rewrite Heq'. rewrite length_replicate in Hl0.
  apply (stack_loop_terminates Hok Henc n); [apply (nodes_base0 Hok)|done| |done].
  apply (lev_bound Hok Hterm Hacyc); [apply (nodes_base0 Hok)|apply (base0_not_base Hbl)].
Qed.

Lemma sentinel_ok_by_check r p :
  Forall2 (Forall2 (λ (x : Z) (pr : Q), gt0 pr = true ∨ x = -1)) r p →
  sentinel_ok r p.
Proof.
  intros H i v x pr (row & prow & Hr & Hp & Hx & Hpr) Hnp.
  pose proof (Forall2_lookup_lr _ _ _ _ _ _ H Hr Hp) as Hrow.
  destruct (Forall2_lookup_lr _ _ _ _ _ _ Hrow Hx Hpr) as [Hg|?]; [|done].
  by apply gt0_spec in Hg.
Qed.

(** * Termination of the traversal *)

(** A three-node network: node 0 is an outlet, node 1 drains to it, and
    node 2 is base level by its first slot while its second slot sends half
    of its flow to node 1. *)
Definition r_loop : list (list Z) := [[0; -1]; [0; -1]; [2; 1]].
Definition p_loop : list (list Q) := [[1; 0]; [1; 0]; [1#2; 1#2]]%Q.

Lemma edge_by_check r p u x : (u, x) ∈ edges_of r p → edge r p u x.
Proof. apply elem_of_edges_of. Qed.

(** C7 as stated fails: [r_loop], [p_loop] is a well-formed, row-stochastic
    input whose positive-proportion graph has no cycle apart from the
    self-loops of the base-level nodes 0 and 2, and the loop never ends on
    it: node 2 is its own donor, so once it enters [base] the set
    [upstream] holds it in every later round. *)
Lemma traversal_diverges_counterexample :
  tables_ok 3 2 r_loop p_loop
  ∧ sentinel_ok r_loop p_loop
  ∧ (∀ (i : nat) prow, p_loop !! i = Some prow → (pos_sum prow == 1)%Q)
  ∧ acyclic r_loop p_loop
  ∧ (∀ fuel, ordered_visit_time fuel r_loop p_loop = OutOfFuel)
  ∧ ∀ fuel, make_ordered_node_array_to_n fuel r_loop p_loop = OutOfFuel.
Proof.
  assert (tables_ok 3 2 r_loop p_loop) as Hok
    by (apply tables_ok_by_check; by_compute).
  assert (sentinel_ok r_loop p_loop) as Hsent
    by (apply sentinel_ok_by_check; by_compute).
  assert (∀ fuel, ordered_visit_time fuel r_loop p_loop = OutOfFuel) as Hdiv.
  { intros fuel.
    destruct (pipeline_spec 3 2 r_loop p_loop Hok Hsent ltac:(lia) ltac:(lia))
      as (delta & D & bl & Henc & Hbl & Heq).
    rewrite Heq.
    destruct (construct_unfold Hok Henc Hbl) as (vt0 & [Hl0 _] & Heq').
    rewrite Heq'. rewrite length_replicate in Hl0.
    assert (is_base r_loop 0) as Hb0 by by_compute.
    assert (¬ is_base r_loop 1) as Hb1 by by_compute.
    assert (edge r_loop p_loop 0 0) as He00 by (apply edge_by_check; by_compute).
    assert (edge r_loop p_loop 1 0) as He10 by (apply edge_by_check; by_compute).
    assert (edge r_loop p_loop 2 1) as He21 by (apply edge_by_check; by_compute).
    assert (edge r_loop p_loop 2 2) as He22 by (apply edge_by_check; by_compute).
    apply (stack_loop_diverges Hok Henc); [apply (nodes_base0 Hok)|done| |].
    - intros Hempty.
      assert (0 ∈ upstream_set r_loop p_loop (list_to_set bl)) as Hin.
      { apply elem_of_upstream_set. exists 0. split; [|done].
        by apply (elem_of_B Hbl). }
      rewrite Hempty in Hin. by apply not_elem_of_empty in Hin.
    - intros k.
      assert (2 ∈ lev r_loop p_loop (S k)
                (upstream_set r_loop p_loop (list_to_set bl) ∖ list_to_set bl))
        as Hin.
      { induction k as [|k IH].
        - apply (lev_edge 0 _ 2 1); [|done]. simpl.
          apply elem_of_difference. split.
          + apply elem_of_upstream_set. exists 0. split; [|done].
            by apply (elem_of_B Hbl).
          + by rewrite (elem_of_B Hbl).
        - by apply (lev_edge (S k) _ 2 2). }
      intros Hempty. rewrite Hempty in Hin. by apply not_elem_of_empty in Hin. }
  split; [done|]. split; [done|].
  split; [apply pos_sum_by_check; by_compute|].
  split; [apply (acyclic_by_check _ _ id); by_compute|].
  split; [done|].
  intros fuel. by rewrite make_ordered_unfold, Hdiv.
Qed.

(** C7 (amended): on a well-formed input (receiver and proportion tables of
    shape N x Q with N, Q >= 1, positive-proportion receivers in [0, N),
    inert slots holding the sentinel -1) whose positive-proportion graph is
    acyclic apart from base-level self-loops and whose base-level nodes send
    flow to no other node, the while-loop of [construct__stack] ends after at
    most N + 1 rounds, and [make_ordered_node_array_to_n] returns an order. *)
Theorem traversal_terminates (n q : nat) r p :
  tables_ok n q r p → sentinel_ok r p → (0 < n)%nat → (0 < q)%nat →
  acyclic r p → base_terminal r p →
  ∀ fuel, (n < fuel)%nat →
    ∃ vt, ordered_visit_time fuel r p = Ok vt
          ∧ make_ordered_node_array_to_n fuel r p = Ok (argsort vt).
Proof.
  intros Hok Hsent Hn Hq Hacyc Hterm fuel Hfuel.
  destruct (ordered_visit_time_total n q r p Hok Hsent Hn Hq Hacyc Hterm
              fuel Hfuel) as (vt & Hvt).
  exists vt. split; [done|]. by rewrite make_ordered_unfold, Hvt.
Qed.

Lemma sentinel_ok_ref : sentinel_ok r_ref p_ref.
Proof. apply sentinel_ok_by_check; by_compute. Qed.

Lemma acyclic_ref : acyclic r_ref p_ref.
Proof.
  apply (acyclic_by_check _ _ (key [4; 2; 3; 4; 0; 1; 3; 2; 4; 5])); by_compute.
Qed.

Lemma base_terminal_ref : base_terminal r_ref p_ref.
Proof. apply base_terminal_by_check; by_compute. Qed.

Lemma traversal_terminates_witness :
  ∃ vt, ordered_visit_time 11 r_ref p_ref = Ok vt
        ∧ make_ordered_node_array_to_n 11 r_ref p_ref = Ok (argsort vt).
Proof.
  apply (traversal_terminates 10 2 r_ref p_ref);
    [apply tables_ok_ref|apply sentinel_ok_ref|lia|lia
    |apply acyclic_ref|apply base_terminal_ref|lia].
Defined.

(** * Downstream before upstream *)

(** Two nodes that are both base level by their first slot, the first of
    which also sends half of its flow to the second. *)
Definition r_tie : list (list Z) := [[0; 1]; [1; -1]].
Definition p_tie : list (list Q) := [[1#2; 1#2]; [1; 0]]%Q.

(** Two nodes without an outlet: node 0 drains to node 1, which drains
    nowhere. *)
Definition r_dry : list (list Z) := [[1; -1]; [-1; -1]].
Definition p_dry : list (list Q) := [[1; 0]; [0; 0]]%Q.

(** C1 as stated fails.  On [r_tie], [p_tie] (well formed, row-stochastic,
    acyclic apart from base-level self-loops) node 0 is a donor of node 1,
    both are base level and share visit time 0, and the order returned is
    [0; 1]: the donor comes first.  On [r_dry], [p_dry] node 0 is a donor of
    node 1, neither is reached from a base-level node, both keep visit time
    -1, and again the order is [0; 1]. *)
Lemma downstream_first_counterexample :
  (tables_ok 2 2 r_tie p_tie ∧ sentinel_ok r_tie p_tie
   ∧ (∀ (i : nat) prow, p_tie !! i = Some prow → (pos_sum prow == 1)%Q)
   ∧ acyclic r_tie p_tie
   ∧ edge r_tie p_tie 0 1
   ∧ ordered_visit_time 3 r_tie p_tie = Ok [0; 0]
   ∧ make_ordered_node_array_to_n 3 r_tie p_tie = Ok [0; 1])
  ∧ (tables_ok 2 2 r_dry p_dry ∧ sentinel_ok r_dry p_dry
     ∧ acyclic r_dry p_dry
     ∧ edge r_dry p_dry 0 1
     ∧ ordered_visit_time 3 r_dry p_dry = Ok [-1; -1]
     ∧ make_ordered_node_array_to_n 3 r_dry p_dry = Ok [0; 1]).
Proof.
  split.
  - split; [apply tables_ok_by_check; by_compute|].
    split; [apply sentinel_ok_by_check; by_compute|].
    split; [apply pos_sum_by_check; by_compute|].
    split; [apply (acyclic_by_check _ _ (λ x, - x)); by_compute|].
    split; [apply edge_by_check; by_compute|].
    split; vm_compute; reflexivity.
  - split; [apply tables_ok_by_check; by_compute|].
    split; [apply sentinel_ok_by_check; by_compute|].
    split; [apply (acyclic_by_check _ _ (λ x, - x)); by_compute|].
    split; [apply edge_by_check; by_compute|].
    split; vm_compute; reflexivity.
Qed.

(** C1 (amended): on a well-formed input (tables of shape N x Q with
    N, Q >= 1, positive-proportion receivers in [0, N), inert slots holding
    -1) whose positive-proportion graph is acyclic apart from base-level
    self-loops and whose base-level nodes send flow to no other node,
    [make_ordered_node_array_to_n] returns an order, and in every order it
    may return each node [v] that drains to a base-level node stands
    strictly before every node [u] distinct from [v] that is a donor of [v],
    directly or transitively, through positive-proportion edges. *)
Theorem downstream_before_upstream (n q : nat) r p u v :
  tables_ok n q r p → sentinel_ok r p → (0 < n)%nat → (0 < q)%nat →
  acyclic r p → base_terminal r p →
  tc (edge r p) u v → u ≠ v → drains_to_base r p v →
  (∃ s, make_ordered_node_array_to_n (S n) r p = Ok s)
  ∧ ∀ fuel s (i j : nat), returns_order fuel r p s →
      s !! i = Some v → s !! j = Some u → (i < j)%nat.
Proof.
  intros Hok Hsent Hn Hq Hacyc Hterm Htc Hne Hv. split.
  - destruct (ordered_visit_time_total n q r p Hok Hsent Hn Hq Hacyc Hterm
                (S n) ltac:(lia)) as (vt & Hvt).
    exists (argsort vt). by rewrite make_ordered_unfold, Hvt.
  - intros fuel s i j (vt & Hvt & Hsort) Hi Hj.
    destruct (pipeline_spec n q r p Hok Hsent Hn Hq)
      as (delta & D & bl & Henc & Hbl & Heq).
    rewrite Heq in Hvt.
    destruct (visit_tc_lt Hok Hbl Henc Hterm Hvt u v Htc Hv) as [_ Hlt].
    by apply (is_argsort_lt vt s i j v u Hsort Hi Hj), Hlt.
Qed.

Lemma downstream_before_upstream_witness :
  tc (edge r_ref p_ref) 9 4 ∧ drains_to_base r_ref p_ref 4
  ∧ returns_order 10 r_ref p_ref [4; 5; 1; 7; 2; 6; 0; 3; 8; 9]
  ∧ (0 < 9)%nat.
Proof.
  assert (tc (edge r_ref p_ref) 9 4) as Htc.
  { apply (tc_l _ 9 7 4); [|apply tc_once]; apply edge_by_check; by_compute. }
  assert (drains_to_base r_ref p_ref 4) as Hv.
  { exists 4. split; [by_compute|apply rtc_refl]. }
  assert (returns_order 10 r_ref p_ref [4; 5; 1; 7; 2; 6; 0; 3; 8; 9]) as Hs.
  { apply make_ordered_returns, s_ref. }
  split; [done|]. split; [done|]. split; [done|].
  apply (proj2 (downstream_before_upstream 10 2 r_ref p_ref 9 4
                  tables_ok_ref sentinel_ok_ref ltac:(lia) ltac:(lia)
                  acyclic_ref base_terminal_ref Htc ltac:(lia) Hv)
           10%nat _ 0%nat 9%nat Hs); reflexivity.
Defined.

(** * The order is a permutation *)

(** C2: whatever [make_ordered_node_array_to_n] returns, and whatever
    [flow_accumulation_to_n] returns as its third result, lists every node id
    of [0, N) exactly once; this holds for each order [numpy.argsort] may
    produce from the visit times.  On a well-formed input whose graph is
    acyclic apart from base-level self-loops and whose base-level nodes are
    termini, an order is returned. *)
Theorem order_is_permutation (fuel : nat) r p :
  (∀ s, returns_order fuel r p s →
        s ≡ₚ range (length r) ∧ NoDup s
        ∧ ∀ x, x ∈ s ↔ 0 ≤ x < Z.of_nat (length r))
  ∧ (∀ s, make_ordered_node_array_to_n fuel r p = Ok s →
          returns_order fuel r p s)
  ∧ (∀ area rate bn a dq s,
       flow_accumulation_to_n fuel r p area rate bn = Ok (a, dq, s) →
       returns_order fuel r p s)
  ∧ (∀ n q, tables_ok n q r p → sentinel_ok r p → (0 < n)%nat → (0 < q)%nat →
            acyclic r p → base_terminal r p → (n < fuel)%nat →
            ∃ s, make_ordered_node_array_to_n fuel r p = Ok s).
Proof.
  split; [|split; [|split]].
  - intros s (vt & Hvt%ordered_visit_time_length & [Hperm _]).
    rewrite Hvt in Hperm. split; [done|]. split.
    + rewrite Hperm. apply NoDup_range.
    + intros x. by rewrite Hperm, elem_of_range.
  - apply make_ordered_returns.
  - intros area rate bn a dq s. unfold flow_accumulation_to_n.
    case_decide; [|done].
    intros (s' & Hs' & ([a' dq'] & _ & [= _ _ <-])%bind_Ok)%bind_Ok.
    by apply make_ordered_returns.
  - intros n q Hok Hsent Hn Hq Hacyc Hterm Hfuel.
    destruct (ordered_visit_time_total n q r p Hok Hsent Hn Hq Hacyc Hterm
                fuel Hfuel) as (vt & Hvt).
    exists (argsort vt). by rewrite make_ordered_unfold, Hvt.
Qed.

Lemma order_is_permutation_witness :
  [4; 5; 1; 7; 2; 6; 0; 3; 8; 9] ≡ₚ range 10.
Proof.
  apply (proj1 (order_is_permutation 10 r_ref p_ref)).
  apply make_ordered_returns, s_ref.
Defined.

(** * The reference network *)

Definition vt_ref : list Z := [4; 2; 3; 4; 0; 1; 3; 2; 4; 5].


Lemma ordered_visit_time_ref : ordered_visit_time 10 r_ref p_ref = Ok vt_ref.
Proof. vm_compute. reflexivity. Qed.




(** The stated areas as numpy holds them: the binary64 numbers read from
    the decimal literals. *)
Definition area_ref_binary64 : list float :=
  [1; 2.575; 1.5; 1; 10; 5.2465; 2.74; 2.845; 1.05; 1]%float.

(** What binary64 returns when the order lists node 1 before node 7: the
    values at nodes 4 and 5 are one and two units in the last place above the
    stated ones. *)
Definition area_ref_rounded : list float :=
  [1; 2.575; 1.5; 1; 10.000000000000002; 5.246500000000001;
   2.74; 2.845; 1.05; 1]%float.


Lemma returns_order_docstring :
  returns_order 10 r_ref p_ref [4; 5; 1; 7; 2; 6; 0; 8; 3; 9].
Proof.
  exists vt_ref. split; [apply ordered_visit_time_ref|]. split.
  - apply permutation_by_check; by_compute.
  - repeat constructor; vm_compute; discriminate.
Qed.

(** In binary64 the order of the docstring does not give the stated area: at
    node 4 it gives 10.000000000000002, the number 10 + 2^-49, not 10. *)
Lemma reference_area_rounding_counterexample :
  returns_order 10 r_ref p_ref [4; 5; 1; 7; 2; 6; 0; 8; 3; 9]
  ∧ Binary64.find_drainage_area_and_discharge_to_n
      [4; 5; 1; 7; 2; 6; 0; 8; 3; 9] r_ref p_ref_binary64
      (Binary64.Float 1) (Binary64.Float 1) None
    = Ok (area_ref_rounded, area_ref_rounded)
  ∧ area_ref_rounded !! 4%nat = Some 10.000000000000002%float
  ∧ area_ref_binary64 !! 4%nat = Some 10%float
  ∧ (10.000000000000002 =? 10)%float = false
  ∧ Binary64.to_Q 10.000000000000002 = Some (10 + (1 # 2 ^ 49))%Q
  ∧ area_ref_rounded ≠ area_ref_binary64.
Proof.
  split; [apply returns_order_docstring|].
  split; [vm_compute; reflexivity|].
  split; [reflexivity|]. split; [reflexivity|].
  split; [vm_compute; reflexivity|]. split; [vm_compute; reflexivity|].
  intros H.
  apply (f_equal (λ l : list float,
           match l !! 4%nat with
           | Some x => (x =? 10)%float
           | None => true
           end)) in H.
  vm_compute in H. discriminate.
Qed.


(** * Inert entries *)

(** Two tables that differ only in a slot of proportion 0. *)
Definition r_inert : list (list Z) := [[0; 1]; [0; -1]].
Definition r_inert' : list (list Z) := [[0; -1]; [0; -1]].
Definition p_inert : list (list Q) := [[1; 0]; [1; 0]]%Q.

(** ... and two more, over three nodes. *)
Definition r_inert3 : list (list Z) := [[0; 2]; [1; -1]; [1; -1]].
Definition r_inert3' : list (list Z) := [[0; -1]; [1; -1]; [1; -1]].
Definition p_inert3 : list (list Q) := [[1; 0]; [1; 0]; [1; 0]]%Q.

(** C5 fails on the code: [max_index] is the maximum of the whole table [r],
    inert slots included, while [bincount] sees the filtered entries only.
    [r_inert] and [r_inert'] have the same positive-proportion entries (two
    edges into node 0), yet the first gives [2; 2] (the one count is
    broadcast over [nd[:2]]) and the second the true counts [2; 0].
    On [r_inert3] the inert entry [2] makes the slice one longer than the
    counts and the call raises, while [r_inert3'] gives [1; 2; 0]. *)
Theorem inert_entries_change_donor_counts :
  edges_of r_inert p_inert = edges_of r_inert' p_inert
  ∧ _make_number_of_donors_array_to_n r_inert p_inert = Ok [2; 2]
  ∧ _make_number_of_donors_array_to_n r_inert' p_inert = Ok [2; 0]
  ∧ donor_count r_inert p_inert <$> range 2 = [2; 0]
  ∧ edges_of r_inert3 p_inert3 = edges_of r_inert3' p_inert3
  ∧ _make_number_of_donors_array_to_n r_inert3 p_inert3 = Raise ValueError
  ∧ _make_number_of_donors_array_to_n r_inert3' p_inert3 = Ok [1; 2; 0].
Proof. repeat split; vm_compute; reflexivity. Qed.

(** X1 (donor counts on sentinel tables).  On well-formed tables whose inert
    slots hold the sentinel [-1], the counts are right: node [x] gets the
    number of positive-proportion slots that name it. *)
Theorem donor_counts_with_sentinel (n q : nat) r p :
  tables_ok n q r p → sentinel_ok r p → (0 < n)%nat → (0 < q)%nat →
  _make_number_of_donors_array_to_n r p = Ok (donor_count r p <$> range n).
Proof. apply number_of_donors_spec. Qed.

Lemma donor_counts_with_sentinel_witness :
  _make_number_of_donors_array_to_n r_ref p_ref
  = Ok (donor_count r_ref p_ref <$> range 10).
Proof.
  apply (donor_counts_with_sentinel 10 2);
    [apply tables_ok_ref|apply sentinel_ok_ref|lia|lia].
Defined.

(** * Nodes the traversal does not reach *)

(** Node 1 is base level by its receiver entry, which carries proportion 0;
    node 2 drains to node 0, which drains nowhere. *)
Definition r_orphan : list (list Z) := [[-1]; [1]; [0]].
Definition p_orphan : list (list Q) := [[0]; [0]; [1]]%Q.

Lemma not_drains_by_check r p (X : list Z) :
  Forall (λ e, e.1 ∈ X → e.2 ∈ X) (edges_of r p) →
  Forall (λ x, ¬ is_base r x) X →
  ∀ v, v ∈ X → ¬ drains_to_base r p v.
Proof.
  intros Hclosed Hnb v Hv (b & Hb & Hrtc).
  assert (b ∈ X) as HbX.
  { induction Hrtc as [|x y z Hxy _ IH]; [done|]. apply IH; try done.
    by apply (edges_Forall r p (λ u x, u ∈ X → x ∈ X) Hclosed x y Hxy). }
  by apply (proj1 (Forall_forall _ _) Hnb b HbX).
Qed.

(** C9 fails on the code, through the same defect of the donor count: on
    [r_orphan], [p_orphan] the only edge is 2 -> 0, the maximum of [r] is 1,
    and the single count is broadcast to [nd = [1; 1; 0]].  Node 1 is thereby
    given a donor slot that is never written and reads as node 0.  Nodes 0
    and 2 have no path to a base-level node, yet they get visit times 1 and
    2 instead of -1, and the order starts with the base-level node 1. *)
Theorem unreached_nodes_get_visit_times :
  is_base r_orphan 1
  ∧ ¬ drains_to_base r_orphan p_orphan 0
  ∧ ¬ drains_to_base r_orphan p_orphan 2
  ∧ edges_of r_orphan p_orphan = [(2, 0)]
  ∧ _make_number_of_donors_array_to_n r_orphan p_orphan = Ok [1; 1; 0]
  ∧ ordered_visit_time 4 r_orphan p_orphan = Ok [1; 0; 2]
  ∧ make_ordered_node_array_to_n 4 r_orphan p_orphan = Ok [1; 0; 2].
Proof.
  split; [by_compute|].
  split; [apply (not_drains_by_check _ _ [0; 2]); [by_compute..|set_solver]|].
  split; [apply (not_drains_by_check _ _ [0; 2]); [by_compute..|set_solver]|].
  repeat split; vm_compute; reflexivity.
Qed.

(** X2 (unreached nodes come first).  On well-formed tables whose inert
    slots hold the sentinel [-1], a node without a path to base level keeps
    visit time [-1], and every order returned places it before every
    base-level node. *)
Theorem unreached_nodes_first (n q : nat) r p fuel s u b (i j : nat) :
  tables_ok n q r p → sentinel_ok r p → (0 < n)%nat → (0 < q)%nat →
  returns_order fuel r p s →
  ¬ drains_to_base r p u → is_base r b →
  s !! i = Some u → s !! j = Some b →
  (∃ vt, ordered_visit_time fuel r p = Ok vt ∧ is_argsort vt s
         ∧ vt !! Z.to_nat u = Some (-1))
  ∧ (i < j)%nat.
Proof.
  intros Hok Hsent Hn Hq (vt & Hvt & Hs) Hu Hb Hi Hj.
  destruct (pipeline_spec n q r p Hok Hsent Hn Hq)
    as (delta & D & bl & Henc & Hbl & Heq).
  pose proof (ordered_visit_time_length _ _ _ _ Hvt) as Hlen.
  rewrite Heq in Hvt.
  assert (0 ≤ u < Z.of_nat (length vt)) as Hur.
  { destruct Hs as [Hperm _]. apply elem_of_range. rewrite <- Hperm.
    by apply (list_elem_of_lookup_2 _ i). }
  pose proof (ok_r _ _ _ _ Hok) as [Hrn _].
  assert (vt !! Z.to_nat u = Some (-1)) as Hvu.
  { apply (visit_unreached Hok Henc Hbl Hvt); [lia| |].
    - rewrite Z2Nat.id by lia. intros HB. apply Hu.
      apply (reached_drains Hbl). by left.
    - intros k. rewrite Z2Nat.id by lia. intros Hk. apply Hu.
      apply (reached_drains Hbl). right. by exists k. }
  split.
  - exists vt. by rewrite Heq.
  - apply (is_argsort_lt vt s i j u b Hs Hi Hj).
    destruct (visit_base Hok Henc Hbl Hvt b) as (c & Hc & Hle);
      [by apply (elem_of_B Hbl)|].
    unfold key. rewrite Hvu, Hc. simpl. lia.
Qed.

(** An outlet (node 0) beside a chain 1 -> 2 that ends nowhere. *)
Definition r_isle : list (list Z) := [[0; -1]; [2; -1]; [-1; -1]].
Definition p_isle : list (list Q) := [[1; 0]; [1; 0]; [0; 0]]%Q.

Lemma unreached_nodes_first_witness :
  returns_order 2 r_isle p_isle [1; 2; 0]
  ∧ ¬ drains_to_base r_isle p_isle 1
  ∧ is_base r_isle 0
  ∧ (∃ vt, ordered_visit_time 2 r_isle p_isle = Ok vt
           ∧ is_argsort vt [1; 2; 0] ∧ vt !! Z.to_nat 1 = Some (-1))
  ∧ (0 < 2)%nat.
Proof.
  assert (returns_order 2 r_isle p_isle [1; 2; 0]) as Hs.
  { apply make_ordered_returns. vm_compute. reflexivity. }
  assert (¬ drains_to_base r_isle p_isle 1) as Hu.
  { apply (not_drains_by_check _ _ [1; 2]); [by_compute..|set_solver]. }
  assert (is_base r_isle 0) as Hb by by_compute.
  split; [done|]. split; [done|]. split; [done|].
  apply (unreached_nodes_first 3 2 r_isle p_isle 2 [1; 2; 0] 1 0 0 2);
    [apply tables_ok_by_check; by_compute|apply sentinel_ok_by_check; by_compute
    |lia|lia|done|done|done|reflexivity|reflexivity].
Defined.

(** * Further properties of the stages *)

(** ** The offsets *)

(** X3 (offsets are prefix sums).  For every count array [nd] the array
    [_make_delta_array_to_n nd] has one entry more than [nd], starts with 0,
    ends with [sum(nd)], and satisfies the recurrence of the loop the
    vectorised code replaces: [delta[i+1] = delta[i] + nd[i]].  When the
    counts are non-negative the offsets do not decrease and the last one is
    their maximum, as the docstring's [sum(nd) == max(delta)] has it. *)
Theorem delta_is_prefix_sums (nd : list Z) :
  length (_make_delta_array_to_n nd) = S (length nd)
  ∧ getitem (_make_delta_array_to_n nd) 0 = Ok 0
  ∧ getitem (_make_delta_array_to_n nd) (-1) = Ok (sum nd)
  ∧ (∀ (i : nat) c, nd !! i = Some c →
       ∃ d, _make_delta_array_to_n nd !! i = Some d
            ∧ _make_delta_array_to_n nd !! S i = Some (d + c))
  ∧ (Forall (λ c, 0 ≤ c) nd →
       ∀ (i j : nat) a b, (i ≤ j)%nat →
         _make_delta_array_to_n nd !! i = Some a →
         _make_delta_array_to_n nd !! j = Some b →
         0 ≤ a ∧ a ≤ b ∧ b ≤ sum nd).
Proof.
  split; [apply length_delta|]. split; [|split; [|split]].
  - apply getitem_nonneg; [done|]. by rewrite delta_lookup by lia.
  - unfold getitem, py_index. rewrite length_delta.
    rewrite decide_False by lia. rewrite decide_True by lia. simpl.
    replace (Z.to_nat (Z.of_nat (S (length nd)) + -1)) with (length nd) by lia.
    rewrite delta_lookup by lia. by rewrite firstn_all.
  - intros i c Hi. pose proof (lookup_lt_Some _ _ _ Hi) as Hlt.
    exists (sum (take i nd)). rewrite !delta_lookup by lia.
    by rewrite (sum_take_S _ _ _ Hi).
  - intros Hnn i j a b Hij Ha Hb.
    pose proof (lookup_lt_Some _ _ _ Hb) as Hj. rewrite length_delta in Hj.
    rewrite delta_lookup in Ha by lia. rewrite delta_lookup in Hb by lia.
    injection Ha as <-. injection Hb as <-.
    split; [apply sum_nonneg, Forall_take, Hnn|].
    split; [by apply sum_take_mono|].
    rewrite <- (firstn_all nd) at 2. apply sum_take_mono; [done|lia].
Qed.

(** ** The donor lists *)

Lemma py_slice_length {A : Type} (l : list A) (a b : Z) :
  0 ≤ a ≤ b → b ≤ Z.of_nat (length l) →
  Z.of_nat (length (py_slice l a b)) = b - a.
Proof.
  intros Hab Hb. unfold py_slice, slice_bound.
  rewrite !decide_False by lia.
  rewrite length_take, length_drop. lia.
Qed.

(** X4 (the donor lists hold the donors).  On well-formed tables, with
    [delta] built from the donor counts, [_make_array_of_donors_to_n] returns
    an array [D] with one slot per positive-proportion entry of the tables,
    and for every node [x] the slice [D[delta[x]:delta[x+1]]] has as many
    entries as [x] has incoming positive-proportion slots and holds exactly
    the donors of [x]. *)
Theorem donor_lists_hold_the_donors (n q : nat) r p (delta : list Z) :
  tables_ok n q r p →
  delta = _make_delta_array_to_n (donor_count r p <$> range n) →
  ∃ D, _make_array_of_donors_to_n r p delta = Ok D
       ∧ length D = length (edges_of r p)
       ∧ ∀ x, 0 ≤ x < Z.of_nat n →
           ∃ ds, donors_of delta D x = Ok ds
                 ∧ Z.of_nat (length ds) = donor_count r p x
                 ∧ ∀ j, j ∈ ds ↔ edge r p j x.
Proof.
  intros Hok ->.
  destruct (donors_log_spec n q r p Hok) as (st & Hrun & HD & _ & _ & Hdon).
  exists (ds_D st). unfold _make_array_of_donors_to_n. rewrite Hrun.
  split; [done|].
  rewrite (off_total n r p q Hok) in HD. split; [lia|].
  intros x Hx. eexists. split.
  { unfold donors_of. by rewrite !getitem_delta by lia. }
  split; [|intros j; apply (Hdon x j Hx)].
  pose proof (off_nonneg n r p x) as H0.
  pose proof (off_mono n r p x (x + 1) ltac:(lia)) as H1.
  pose proof (off_mono n r p (x + 1) (Z.of_nat n) ltac:(lia)) as H2.
  rewrite py_slice_length by (rewrite ?(off_total n r p q Hok) in *; lia).
  rewrite (off_succ n r p x Hx). lia.
Qed.

Lemma donor_lists_hold_the_donors_witness :
  ∃ D, _make_array_of_donors_to_n r_ref p_ref
         (_make_delta_array_to_n (donor_count r_ref p_ref <$> range 10)) = Ok D
       ∧ length D = length (edges_of r_ref p_ref)
       ∧ ∀ x, 0 ≤ x < 10 →
           ∃ ds, donors_of
                   (_make_delta_array_to_n (donor_count r_ref p_ref <$> range 10))
                   D x = Ok ds
                 ∧ Z.of_nat (length ds) = donor_count r_ref p_ref x
                 ∧ ∀ j, j ∈ ds ↔ edge r_ref p_ref j x.
Proof.
  apply (donor_lists_hold_the_donors 10 2 r_ref p_ref _ tables_ok_ref).
  reflexivity.
Defined.

(** ** Discharge under a uniform runoff rate *)





(** ** The balance of flow at every node *)

(** What slot [k] of node [u] passes on to node [v], as a proportion: the
    accumulator moves flow along the slots of positive proportion whose
    receiver is another node. *)
Definition weight (r : list (list Z)) (p : list (list Q)) (u k v : nat) : Q :=
  match r !! u, p !! u with
  | Some row, Some prow =>
      match row !! k, prow !! k with
      | Some x, Some pr =>
          if decide (x = Z.of_nat v ∧ u ≠ v)
          then (if gt0 pr then pr else 0%Q) else 0%Q
      | _, _ => 0%Q
      end
  | _, _ => 0%Q
  end.

(** The proportion of the flow of [u] that goes to [v]. *)
Definition passes (q : nat) (r : list (list Z)) (p : list (list Q))
    (u v : nat) : Q :=
  sum_nodes q (λ k, weight r p u k v).

(** What [v] receives from the other nodes when their values are [a]. *)
Definition inflow (n q : nat) (r : list (list Z)) (p : list (list Q))
    (a : list Q) (v : nat) : Q :=
  sum_nodes n (λ u, passes q r p u v * at_ a u)%Q.

Lemma weight_entry r p (u k v : nat) x pr :
  entry r p u k x pr →
  weight r p u k v
  = if decide (x = Z.of_nat v ∧ u ≠ v) then (if gt0 pr then pr else 0%Q) else 0%Q.
Proof.
  intros (row & prow & Hr & Hp & Hx & Hpr). unfold weight.
  by rewrite Hr, Hp, Hx, Hpr.
Qed.

Lemma weight_no_edge r p (u k v : nat) :
  ¬ (edge r p (Z.of_nat u) (Z.of_nat v) ∧ u ≠ v) → weight r p u k v = 0%Q.
Proof.
  intros Hno. unfold weight.
  destruct (r !! u) as [row|] eqn:Hr; [|done].
  destruct (p !! u) as [prow|] eqn:Hp; [|done].
  destruct (row !! k) as [x|] eqn:Hx; [|done].
  destruct (prow !! k) as [pr|] eqn:Hpr; [|done].
  case_decide as Hc; [|done]. destruct (gt0 pr) eqn:Hg; [|done].
  destruct Hc as [-> Hne]. exfalso. apply Hno. split; [|done].
  split; [lia|]. exists k, pr. rewrite Nat2Z.id.
  split; [by exists row, prow|by apply gt0_spec].
Qed.

Lemma sum_nodes_zero n f : (∀ v, (v < n)%nat → f v = 0%Q) → (sum_nodes n f == 0)%Q.
Proof.
  induction n as [|n IH]; intros H; [reflexivity|].
  rewrite sum_nodes_S, IH, H by (intros; try apply H; lia). ring.
Qed.

Lemma passes_no_edge q r p (u v : nat) :
  ¬ (edge r p (Z.of_nat u) (Z.of_nat v) ∧ u ≠ v) → (passes q r p u v == 0)%Q.
Proof. intros Hno. apply sum_nodes_zero. intros k _. by apply weight_no_edge. Qed.

Section balance.
Context {n q : nat} {r : list (list Z)} {p : list (list Q)}.
Context (Hok : tables_ok n q r p).

(** One donor of the walk: every node receives its share of what the donor
    holds, in both fields. *)
Lemma donor_slots_shares (d : Z) (a0 dq0 : list Q) :
  0 ≤ d < Z.of_nat n → length a0 = n → length dq0 = n →
  ∃ a dq,
    for_in (range q) (λ v st, accumulate_body r p d v st) (a0, dq0) = Ok (a, dq)
    ∧ length a = n ∧ length dq = n
    ∧ (∀ v, (v < n)%nat →
         (at_ a v == at_ a0 v + passes q r p (Z.to_nat d) v * at_ a0 (Z.to_nat d))%Q)
    ∧ (∀ v, (v < n)%nat →
         (at_ dq v == at_ dq0 v + passes q r p (Z.to_nat d) v * at_ dq0 (Z.to_nat d))%Q).
Proof.
  intros Hd Hla Hlq.
  destruct (for_in_invariant
    (λ pre (st : list Q * list Q), length st.1 = n ∧ length st.2 = n
       ∧ at_ st.1 (Z.to_nat d) = at_ a0 (Z.to_nat d)
       ∧ at_ st.2 (Z.to_nat d) = at_ dq0 (Z.to_nat d)
       ∧ (∀ v, (v < n)%nat →
            (at_ st.1 v == at_ a0 v
               + sum_nodes (length pre) (λ k, weight r p (Z.to_nat d) k v)
                 * at_ a0 (Z.to_nat d))%Q)
       ∧ (∀ v, (v < n)%nat →
            (at_ st.2 v == at_ dq0 v
               + sum_nodes (length pre) (λ k, weight r p (Z.to_nat d) k v)
                 * at_ dq0 (Z.to_nat d))%Q))
    (range q) (λ v st, accumulate_body r p d v st) (a0, dq0))
    as ([a dq] & Hrun & Ha & Hdq & _ & _ & Hva & Hvq).
  - simpl. repeat split; try done; intros v Hv; unfold sum_nodes; simpl; ring.
  - intros pre k post [a dq] Hsplit (Ha & Hdq & Hda & Hdd & Hva & Hvq).
    simpl in Ha, Hdq, Hda, Hdd, Hva, Hvq.
    destruct (range_split q pre k post Hsplit) as [-> Hlt].
    destruct (accumulate_body_spec n q r p d (Z.of_nat (length pre)) a dq
                Hok Hd ltac:(lia) Ha Hdq) as (x & pr & Hent & Hcase).
    rewrite Nat2Z.id in Hent.
    assert (length (pre ++ [Z.of_nat (length pre)]) = S (length pre)) as ->.
    { rewrite length_app. simpl. lia. }
    destruct Hcase as [(Hpos & Hne & Hx & ->)|(Hno & ->)].
    + assert (gt0 pr = true) as Hg by by apply gt0_spec.
      assert (Z.to_nat x ≠ Z.to_nat d) as Hne' by lia.
      eexists. split; [done|]. simpl. rewrite !length_insert.
      split; [done|]. split; [done|].
      split; [by rewrite at_insert_ne|]. split; [by rewrite at_insert_ne|].
      split; intros v Hv; rewrite sum_nodes_S, (weight_entry _ _ _ _ _ _ _ Hent), Hg;
        (destruct (decide (Z.to_nat x = v)) as [<-|Hxv];
         [rewrite at_insert_eq by lia;
          rewrite decide_True by (split; [lia|lia])
         |rewrite at_insert_ne by done;
          rewrite decide_False by (intros [-> _]; apply Hxv; lia)]).
      * rewrite (Hva _ Hv), Hda. ring.
      * rewrite (Hva _ Hv). ring.
      * rewrite (Hvq _ Hv), Hdd. ring.
      * rewrite (Hvq _ Hv). ring.
    + eexists. split; [done|]. simpl.
      split; [done|]. split; [done|]. split; [done|]. split; [done|].
      assert (∀ v, weight r p (Z.to_nat d) (length pre) v = 0%Q) as Hw.
      { intros v. rewrite (weight_entry _ _ _ _ _ _ _ Hent).
        case_decide as Hc; [|done]. destruct (gt0 pr) eqn:Hg; [|done].
        apply gt0_spec in Hg. destruct Hc as [-> Hc].
        destruct Hno as [Hno|Hno]; [done|]. lia. }
      split; intros v Hv; rewrite sum_nodes_S, Hw.
      * rewrite (Hva _ Hv). ring.
      * rewrite (Hvq _ Hv). ring.
  - exists a, dq. split; [done|]. split; [done|]. split; [done|].
    rewrite range_length in Hva, Hvq. by split.
Qed.

(** The invariant of the walk for one field: each node holds its seed and
    the shares of the donors processed so far. *)
Definition balanced (P : list Z) (a0 a : list Q) : Prop :=
  ∀ v, (v < n)%nat →
    (at_ a v == at_ a0 v
       + sum_nodes n (λ u, if decide (Z.of_nat u ∈ P)
                           then passes q r p u v * at_ a u else 0))%Q.

Lemma balanced_nil a0 : balanced [] a0 a0.
Proof.
  intros v Hv. rewrite sum_nodes_zero; [ring|].
  intros u _. rewrite decide_False; [done|]. by intros ?%elem_of_nil.
Qed.

Lemma balanced_step (P : list Z) (d : Z) (a0 a a' : list Q) :
  0 ≤ d < Z.of_nat n → d ∉ P →
  (∀ x, edge r p d x → x ≠ d → x ∉ P) →
  balanced P a0 a →
  (∀ v, (v < n)%nat →
     (at_ a' v == at_ a v + passes q r p (Z.to_nat d) v * at_ a (Z.to_nat d))%Q) →
  balanced (P ++ [d]) a0 a'.
Proof.
  intros Hd HdP Hrecv Hbal Hupd v Hv.
  assert (∀ u, (u < n)%nat → Z.of_nat u ∈ P ∨ u = Z.to_nat d →
               (at_ a' u == at_ a u)%Q) as Hsame.
  { intros u Hu Hin. rewrite (Hupd u Hu), passes_no_edge; [ring|].
    intros [He Hne]. rewrite Z2Nat.id in He by lia.
    destruct Hin as [Hin| ->]; [|done].
    apply (Hrecv _ He); [lia|done]. }
  rewrite (Hupd v Hv), (Hbal v Hv).
  rewrite (sum_nodes_bump n
             (λ u, if decide (Z.of_nat u ∈ P ++ [d])
                   then passes q r p u v * at_ a' u else 0)%Q
             (λ u, if decide (Z.of_nat u ∈ P)
                   then passes q r p u v * at_ a u else 0)%Q
             (Z.to_nat d)
             (passes q r p (Z.to_nat d) v * at_ a (Z.to_nat d))%Q);
    [ring|lia| |].
  - intros u Hu Hne.
    destruct (decide (Z.of_nat u ∈ P)) as [Hin|Hin].
    + rewrite decide_True by (apply elem_of_app; by left).
      rewrite (Hsame u Hu (or_introl Hin)). reflexivity.
    + rewrite decide_False; [reflexivity|].
      intros [?|?%list_elem_of_singleton]%elem_of_app; [done|lia].
  - rewrite decide_True
      by (apply elem_of_app; right; apply list_elem_of_singleton; lia).
    rewrite decide_False by (rewrite Z2Nat.id by lia; done).
    rewrite (Hsame (Z.to_nat d) ltac:(lia) (or_intror eq_refl)). ring.
Qed.

Lemma balanced_all (P : list Z) (a0 a : list Q) :
  (∀ u, (u < n)%nat → Z.of_nat u ∈ P) → balanced P a0 a →
  ∀ v, (v < n)%nat → (at_ a v == at_ a0 v + inflow n q r p a v)%Q.
Proof.
  intros Hall Hbal v Hv. rewrite (Hbal v Hv). unfold inflow.
  rewrite (sum_nodes_ext n _ (λ u, passes q r p u v * at_ a u)%Q); [reflexivity|].
  intros u Hu. rewrite decide_True by by apply Hall. reflexivity.
Qed.

(** The whole walk over a topological order. *)
Lemma walk_balances (s : list Z) (a0 dq0 : list Q) :
  s ≡ₚ range n → topological r p s →
  length a0 = n → length dq0 = n →
  ∃ a dq,
    for_in (reverse s)
      (λ donor st, for_in (range q) (λ v st, accumulate_body r p donor v st) st)
      (a0, dq0) = Ok (a, dq)
    ∧ length a = n ∧ length dq = n
    ∧ (∀ v, (v < n)%nat → (at_ a v == at_ a0 v + inflow n q r p a v)%Q)
    ∧ (∀ v, (v < n)%nat → (at_ dq v == at_ dq0 v + inflow n q r p dq v)%Q).
Proof.
  intros Hperm Htopo Hla Hlq.
  assert (NoDup (reverse s)) as Hnd.
  { rewrite reverse_Permutation, Hperm. apply NoDup_range. }
  destruct (for_in_invariant
    (λ P (st : list Q * list Q), length st.1 = n ∧ length st.2 = n
       ∧ balanced P a0 st.1 ∧ balanced P dq0 st.2)
    (reverse s)
    (λ donor st, for_in (range q) (λ v st, accumulate_body r p donor v st) st)
    (a0, dq0)) as ([a dq] & Hrun & Ha & Hdq & Hba & Hbq).
  - simpl. split; [done|]. split; [done|]. split; apply balanced_nil.
  - intros P d post [a dq] Hsplit (Ha & Hdq & Hba & Hbq).
    simpl in Ha, Hdq, Hba, Hbq.
    assert (0 ≤ d < Z.of_nat n) as Hd.
    { apply elem_of_range. rewrite <- Hperm. apply elem_of_reverse.
      rewrite Hsplit. apply elem_of_app. right. by left. }
    rewrite Hsplit in Hnd. apply NoDup_app in Hnd as (_ & Hdis & Hnd').
    apply NoDup_cons in Hnd' as [_ _].
    assert (d ∉ P) as HdP.
    { intros Hin. apply (Hdis d Hin). by left. }
    assert (∀ x, edge r p d x → x ≠ d → x ∉ P) as Hrecv.
    { intros x He Hne Hin. apply list_elem_of_lookup in Hin as [i Hi].
      pose proof (lookup_lt_Some _ _ _ Hi) as Hilt.
      assert (reverse s !! i = Some x) as Hx.
      { rewrite Hsplit. by rewrite lookup_app_l. }
      assert (reverse s !! length P = Some d) as Hdd.
      { rewrite Hsplit. by rewrite list_lookup_middle. }
      assert (length (reverse s) = length P + S (length post))%nat as Hlen.
      { rewrite Hsplit, length_app. done. }
      rewrite length_reverse in Hlen.
      rewrite reverse_lookup in Hx by lia.
      rewrite reverse_lookup in Hdd by lia.
      pose proof (Htopo d x _ _ He ltac:(done) Hx Hdd). lia. }
    destruct (donor_slots_shares d a dq Hd Ha Hdq)
      as (a' & dq' & -> & Ha' & Hdq' & Hua & Huq).
    eexists. split; [done|]. simpl. split; [done|]. split; [done|].
    split; [by apply (balanced_step P d a0 a a')
           |by apply (balanced_step P d dq0 dq dq')].
  - exists a, dq. split; [done|]. split; [done|]. split; [done|].
    assert (∀ u, (u < n)%nat → Z.of_nat u ∈ reverse s) as Hall.
    { intros u Hu. apply elem_of_reverse. rewrite Hperm. apply elem_of_range. lia. }
    split; by apply (balanced_all (reverse s)).
Qed.

End balance.

Section balance_unique.
Context {n q : nat} {r : list (list Z)} {p : list (list Q)}.
Context (Hok : tables_ok n q r p).


(** The accumulator on a topological order: it returns, and both fields
    satisfy the balance equations. *)
Lemma find_drainage_balances (s : list Z) area runoff bn :
  s ≡ₚ range n → topological r p s →
  size_ok n area → size_ok n runoff → boundary_ok n bn →
  ∃ a dq local,
    find_drainage_area_and_discharge_to_n s r p area runoff bn = Ok (a, dq)
    ∧ np_binop Qmult area runoff = Ok local
    ∧ length a = n ∧ length dq = n
    ∧ (∀ v, (v < n)%nat →
         (at_ a v == seed area bn v + inflow n q r p a v)%Q)
    ∧ (∀ v, (v < n)%nat →
         (at_ dq v == seed local bn v + inflow n q r p dq v)%Q).
Proof.
  intros Hperm Htopo Ha Hr Hbn.
  assert (length s = n) as Hls by by rewrite Hperm, range_length.
  subst n.
  destruct (find_drainage_unfold _ q r p s area runoff bn Hok Ha Hr Hbn)
    as (a0 & q0 & local & Hla & Hlq & Hva & Hlocal & Hvq & ->).
  rewrite (walk_by_index s
    (λ donor st, for_in (range q) (λ v st, accumulate_body r p donor v st) st)).
  destruct (walk_balances Hok s a0 q0 Hperm Htopo Hla Hlq)
    as (a & dq & -> & Hla' & Hlq' & Hba & Hbq).
  exists a, dq, local. split; [done|]. split; [done|].
  split; [done|]. split; [done|]. split; intros v Hv.
  - rewrite (Hba v Hv), (Hva v Hv). reflexivity.
  - rewrite (Hbq v Hv), (Hvq v Hv). reflexivity.
Qed.

End balance_unique.






(** * The entry point, end to end *)







(** * Visit times and path lengths *)

(** [descends r p k v b]: [k] positive-proportion edges, each between two
    different nodes, lead from [v] down to [b]. *)
Definition descends (r : list (list Z)) (p : list (list Q))
    (k : nat) (v b : Z) : Prop :=
  nsteps (λ x y, edge r p x y ∧ x ≠ y) k v b.

Section levels.
Context {n q : nat} {r : list (list Z)} {p : list (list Q)}.
Context (Hok : tables_ok n q r p).
Context {bl : list Z} (Hbl : ∀ b, b ∈ bl ↔ is_base r b).
Context (Hself : self_loops_at_base r p) (Hterm : base_terminal r p).

Local Abbreviation B := (list_to_set bl : gset Z).
Local Abbreviation base0 := (upstream_set r p B ∖ B).

(** Level [k] of the traversal holds the nodes with a descent of [k + 1]
    edges to a base-level node. *)
Lemma lev_descends k : ∀ x,
  x ∈ lev r p k base0 ↔ ∃ b, is_base r b ∧ descends r p (S k) x b.
Proof.
  induction k as [|k IH]; intros x.
  - simpl. rewrite elem_of_difference, elem_of_upstream_set. split.
    + intros [(b & Hb & He) HxB]. exists b.
      split; [by apply (elem_of_B Hbl)|].
      apply (nsteps_l _ _ _ b); [|apply nsteps_O].
      split; [done|]. by intros ->.
    + intros (b & Hb & Hd). inversion Hd as [|? ? y ? [He Hne] Hd']; subst.
      inversion Hd'; subst. split.
      * exists b. split; [by apply (elem_of_B Hbl)|done].
      * intros HxB%(elem_of_B Hbl). by destruct (Hne (eq_sym (Hterm x b HxB He))).
  - rewrite lev_S, elem_of_upstream_set. split.
    + intros (y & Hy & He). destruct (proj1 (IH y) Hy) as (b & Hb & Hd).
      exists b. split; [done|]. apply (nsteps_l _ _ _ y); [|done].
      split; [done|]. intros ->.
      apply (lev_not_base Hterm k base0 (base0_not_base Hbl) y Hy).
      by apply Hself.
    + intros (b & Hb & Hd). inversion Hd as [|? ? y ? [He Hne] Hd']; subst.
      exists y. split; [|done]. apply IH. by exists b.
Qed.

Context {delta D : list Z} (Henc : encodes n r p delta D).
Context {fuel : nat} {vtf : list Z}.
Context (Hrun : construct__stack_visit_time fuel delta D bl = Ok vtf).

(** Every descent from [v] is at most as long as the visit time of [v]. *)
Lemma visit_descends_le (k : nat) v b :
  is_base r b → descends r p k v b → Z.of_nat k ≤ key vtf v.
Proof.
  intros Hb Hd. destruct k as [|k].
  - inversion Hd; subst.
    by rewrite (visit_base_zero Hok Hbl Henc Hterm Hrun b Hb).
  - assert (v ∈ lev r p k base0) as Hv by (apply lev_descends; by exists b).
    destruct (visit_lower Hok Henc Hbl Hrun k v Hv) as (c & Hc & Hle).
    unfold key. rewrite Hc. simpl. lia.
Qed.

(** ... and a positive visit time is the length of some descent. *)
Lemma visit_descends_eq (v : nat) c :
  vtf !! v = Some c → 0 < c →
  ∃ b, is_base r b ∧ descends r p (Z.to_nat c) (Z.of_nat v) b.
Proof.
  intros Hc Hpos.
  destruct (visit_upper Hok Henc Hbl Hrun v c Hc Hpos) as (j & -> & Hj).
  apply lev_descends in Hj as (b & Hb & Hd). exists b. split; [done|].
  by replace (Z.to_nat (Z.of_nat j + 1)) with (S j) by lia.
Qed.

End levels.

(** X9 (visit time is the longest descent).  On well-formed tables whose
    inert slots hold -1, whose only self-loops are those of base-level nodes
    and whose base-level nodes are termini, the visit times the traversal
    ends with are: 0 at every base-level node; at least [k] at a node with a
    path of [k] edges down to a base-level node; and a positive visit time
    [c] of a node is the length of such a path.  So the visit time of a node
    that drains to base level is the length of its longest path to it. *)
Theorem visit_time_is_longest_descent (n q : nat) r p fuel vt :
  tables_ok n q r p → sentinel_ok r p → (0 < n)%nat → (0 < q)%nat →
  self_loops_at_base r p → base_terminal r p →
  ordered_visit_time fuel r p = Ok vt →
  length vt = n
  ∧ (∀ b, is_base r b → vt !! Z.to_nat b = Some 0)
  ∧ (∀ (k : nat) v b, is_base r b → descends r p k v b →
       ∃ c, vt !! Z.to_nat v = Some c ∧ Z.of_nat k ≤ c)
  ∧ (∀ (v : nat) c, vt !! v = Some c → 0 < c →
       ∃ b, is_base r b ∧ descends r p (Z.to_nat c) (Z.of_nat v) b).
Proof.
  intros Hok Hsent Hn Hq Hself Hterm Hvt.
  pose proof (ordered_visit_time_length _ _ _ _ Hvt) as Hlen.
  pose proof (ok_r _ _ _ _ Hok) as [Hrn _].
  destruct (pipeline_spec n q r p Hok Hsent Hn Hq)
    as (delta & D & bl & Henc & Hbl & Heq).
  rewrite Heq in Hvt.
  assert (∀ b, is_base r b → vt !! Z.to_nat b = Some 0) as Hbase.
  { intros b Hb.
    pose proof (visit_base_zero Hok Hbl Henc Hterm Hvt b Hb) as Hk.
    destruct (visit_base Hok Henc Hbl Hvt b) as (c & Hc & _);
      [by apply (elem_of_B Hbl)|].
    unfold key in Hk. rewrite Hc in Hk. simpl in Hk. by subst. }
  split; [lia|]. split; [done|]. split.
  - intros k v b Hb Hd. destruct k as [|k].
    + inversion Hd; subst. exists 0. split; [by apply Hbase|done].
    + assert (v ∈ lev r p k (upstream_set r p (list_to_set bl) ∖ list_to_set bl))
        as Hv by (apply (lev_descends Hbl Hself Hterm); by exists b).
      destruct (visit_lower Hok Henc Hbl Hvt k v Hv) as (c & Hc & Hle).
      exists c. split; [done|lia].
  - intros v c Hc Hpos.
    by apply (visit_descends_eq Hok Hbl Hself Hterm Henc Hvt).
Qed.

Lemma descends_by_check r p (l : list Z) v b :
  head l = Some v → last l = Some b →
  Forall (λ e, e ∈ edges_of r p ∧ e.1 ≠ e.2) (zip l (tail l)) →
  descends r p (length l - 1) v b.
Proof.
  revert v. induction l as [|x l IH]; intros v Hh Hl Hall; [done|].
  injection Hh as ->. destruct l as [|y l].
  - injection Hl as ->. apply nsteps_O.
  - simpl in Hall. apply Forall_cons in Hall as [[He Hne] Hall].
    apply elem_of_edges_of in He. simpl in *.
    replace (S (length l) - 0)%nat with (S (length l)) by lia.
    apply (nsteps_l _ _ _ y); [done|].
    replace (length l) with (length (y :: l) - 1)%nat by (simpl; lia).
    by apply IH.
Qed.

Lemma visit_time_is_longest_descent_witness :
  descends r_ref p_ref 5 9 4
  ∧ length vt_ref = 10%nat
  ∧ (∀ b, is_base r_ref b → vt_ref !! Z.to_nat b = Some 0)
  ∧ (∀ (k : nat) v b, is_base r_ref b → descends r_ref p_ref k v b →
       ∃ c, vt_ref !! Z.to_nat v = Some c ∧ Z.of_nat k ≤ c)
  ∧ (∀ (v : nat) c, vt_ref !! v = Some c → 0 < c →
       ∃ b, is_base r_ref b ∧ descends r_ref p_ref (Z.to_nat c) (Z.of_nat v) b).
Proof.
  split.
  - apply (descends_by_check r_ref p_ref [9; 8; 6; 7; 5; 4]);
      [done|done|by_compute].
  - apply (visit_time_is_longest_descent 10 2 r_ref p_ref 10 vt_ref);
      [apply tables_ok_ref|apply sentinel_ok_ref|lia|lia
      |apply self_loops_by_check; by_compute|apply base_terminal_ref
      |apply ordered_visit_time_ref].
Defined.

(** X10 (the order follows the longest descent).  On well-formed tables
    whose inert slots hold -1, whose only self-loops are those of base-level
    nodes and whose base-level nodes are termini: if every path from [v]
    down to a base-level node has at most [k] edges and [u] has such a path
    of [k + 1] edges, then [v] stands before [u] in every order returned. *)
Theorem order_follows_longest_descent
    (n q : nat) r p fuel s u v b (k i j : nat) :
  tables_ok n q r p → sentinel_ok r p → (0 < n)%nat → (0 < q)%nat →
  self_loops_at_base r p → base_terminal r p →
  returns_order fuel r p s →
  (∀ (k' : nat) b', is_base r b' → descends r p k' v b' → (k' ≤ k)%nat) →
  is_base r b → descends r p (S k) u b →
  s !! i = Some v → s !! j = Some u → (i < j)%nat.
Proof.
  intros Hok Hsent Hn Hq Hself Hterm (vt & Hvt & Hsort) Hmax Hb Hd Hi Hj.
  pose proof (ordered_visit_time_length _ _ _ _ Hvt) as Hlen.
  destruct (pipeline_spec n q r p Hok Hsent Hn Hq)
    as (delta & D & bl & Henc & Hbl & Heq).
  rewrite Heq in Hvt.
  apply (is_argsort_lt vt s i j v u Hsort Hi Hj).
  pose proof (visit_descends_le Hok Hbl Hself Hterm Henc Hvt (S k) u b Hb Hd)
    as Hu.
  assert (0 ≤ v < Z.of_nat (length vt)) as Hv.
  { destruct Hsort as [Hperm _]. apply elem_of_range. rewrite <- Hperm.
    by apply (list_elem_of_lookup_2 _ i). }
  destruct (lookup_lt_is_Some_2 vt (Z.to_nat v)) as [c Hc]; [lia|].
  assert (c ≤ Z.of_nat k) as Hle.
  { destruct (decide (0 < c)) as [Hpos|?]; [|lia].
    destruct (visit_descends_eq Hok Hbl Hself Hterm Henc Hvt _ c Hc Hpos)
      as (b' & Hb' & Hd').
    rewrite Z2Nat.id in Hd' by lia.
    pose proof (Hmax _ b' Hb' Hd'). lia. }
  unfold key at 1. rewrite Hc. simpl. lia.
Qed.

Lemma ranked_descends r p (h : Z → Z) (k : nat) v b :
  Forall (λ e, e.1 ≠ e.2 → h e.2 < h e.1) (edges_of r p) →
  descends r p k v b → h b + Z.of_nat k ≤ h v.
Proof.
  intros Hh Hd. induction Hd as [|k x y z [He Hne] _ IH]; [lia|].
  pose proof (edges_Forall r p (λ u x, u ≠ x → h x < h u) Hh x y He Hne).
  lia.
Qed.

Lemma order_follows_longest_descent_witness :
  returns_order 10 r_ref p_ref [4; 5; 1; 7; 2; 6; 0; 3; 8; 9]
  ∧ (∀ (k' : nat) b', is_base r_ref b' → descends r_ref p_ref k' 5 b' →
       (k' ≤ 1)%nat)
  ∧ descends r_ref p_ref 2 7 4
  ∧ (1 < 3)%nat.
Proof.
  assert (returns_order 10 r_ref p_ref [4; 5; 1; 7; 2; 6; 0; 3; 8; 9]) as Hs
    by apply make_ordered_returns, s_ref.
  assert (∀ (k' : nat) b', is_base r_ref b' → descends r_ref p_ref k' 5 b' →
            (k' ≤ 1)%nat) as Hmax.
  { intros k' b' Hb' Hd.
    pose proof (ranked_descends r_ref p_ref (key vt_ref) k' 5 b'
                  ltac:(by_compute) Hd) as Hle.
    assert (0 ≤ key vt_ref b') as H0.
    { destruct Hb' as (H0 & row & Hrow%lookup_lt_Some & _).
      assert (b' ∈ range 10) as Hin by (apply elem_of_range; simpl in *; lia).
      revert Hin. generalize b'. apply Forall_forall. by_compute. }
    change (key vt_ref 5) with 1 in Hle. lia. }
  assert (descends r_ref p_ref 2 7 4) as Hd
    by (apply (descends_by_check r_ref p_ref [7; 5; 4]); [done|done|by_compute]).
  split; [done|]. split; [done|]. split; [done|].
  apply (order_follows_longest_descent 10 2 r_ref p_ref 10
           [4; 5; 1; 7; 2; 6; 0; 3; 8; 9] 7 5 4 1 1 3);
    [apply tables_ok_ref|apply sentinel_ok_ref|lia|lia
    |apply self_loops_by_check; by_compute|apply base_terminal_ref
    |done|done|by_compute|done|reflexivity|reflexivity].
Defined.

(** * Arguments the accumulator refuses *)

Lemma getitem_app_l {A : Type} (l t : list A) (i : Z) :
  0 ≤ i < Z.of_nat (length l) → getitem (l ++ t) i = getitem l i.
Proof.
  intros Hi. unfold getitem. rewrite length_app.
  rewrite !py_index_nonneg by lia. simpl. by rewrite lookup_app_l by lia.
Qed.

(** X11 (the order argument).  The accumulator reads the first [N] entries
    of [s] and nothing else: entries beyond them are ignored, and on
    well-formed arguments an order with fewer than [N] entries raises
    [IndexError] at the first step of the walk. *)
Theorem order_argument_is_read_up_to_N r p s t area runoff bn :
  (length s = length r →
   find_drainage_area_and_discharge_to_n (s ++ t) r p area runoff bn
   = find_drainage_area_and_discharge_to_n s r p area runoff bn)
  ∧ (∀ n q, tables_ok n q r p → (length s < n)%nat →
       size_ok n area → size_ok n runoff → boundary_ok n bn →
       find_drainage_area_and_discharge_to_n s r p area runoff bn
       = Raise IndexError).
Proof.
  split.
  - intros Hls. unfold find_drainage_area_and_discharge_to_n.
    destruct (shape r) as [np q] eqn:Hsh.
    assert (np = length r) as -> by (unfold shape in Hsh; congruence).
    destruct (zeros_plus (length r) area) as [a1| |]; simpl; [|done..].
    destruct (np_binop Qmult area runoff) as [local| |]; simpl; [|done..].
    destruct (zeros_plus (length r) local) as [q1| |]; simpl; [|done..].
    destruct (match bn with
              | Some bn0 =>
                  drainage_area ← setitems a1 bn0 0%Q;
                  discharge ← setitems q1 bn0 0%Q;
                  Ok (drainage_area, discharge)
              | None => Ok (a1, q1)
              end) as [[a0 q0]| |]; simpl; [|done..].
    apply for_in_ext. intros i st Hi%range_reverse_elem.
    by rewrite getitem_app_l by lia.
  - intros n q Hok Hlt Ha Hr Hbn.
    destruct (find_drainage_unfold n q r p s area runoff bn Hok Ha Hr Hbn)
      as (a0 & q0 & local & _ & _ & _ & _ & _ & ->).
    destruct n as [|n]; [lia|].
    rewrite range_S, reverse_app. simpl.
    unfold getitem, py_index.
    rewrite decide_False by lia. by rewrite decide_False by lia.
Qed.

Lemma order_argument_is_read_up_to_N_witness :
  find_drainage_area_and_discharge_to_n
    ([4; 5; 1; 7; 2; 6; 0; 8; 3; 9] ++ [12; -7])
    r_ref p_ref (Float 1) (Float 1) None
  = find_drainage_area_and_discharge_to_n [4; 5; 1; 7; 2; 6; 0; 8; 3; 9]
      r_ref p_ref (Float 1) (Float 1) None
  ∧ find_drainage_area_and_discharge_to_n [4; 5; 1; 7; 2; 6; 0; 8; 3]
      r_ref p_ref (Float 1) (Float 1) None = Raise IndexError.
Proof.
  split.
  - by apply (proj1 (order_argument_is_read_up_to_N r_ref p_ref
                       [4; 5; 1; 7; 2; 6; 0; 8; 3; 9] [12; -7]
                       (Float 1) (Float 1) None)).
  - apply (proj2 (order_argument_is_read_up_to_N r_ref p_ref
                    [4; 5; 1; 7; 2; 6; 0; 8; 3] [] (Float 1) (Float 1) None)
             10%nat 2%nat); [apply tables_ok_ref|simpl; lia|exact I..].
Defined.

Lemma setitem_wraps {A : Type} (l : list A) (k : Z) (x : A) :
  - Z.of_nat (length l) ≤ k < Z.of_nat (length l) →
  ∃ l', setitem l k x = Ok l' ∧ length l' = length l.
Proof.
  intros Hk. unfold setitem, py_index.
  destruct (decide (0 ≤ k < Z.of_nat (length l))); simpl.
  - eexists. split; [done|]. by rewrite length_insert.
  - rewrite decide_True by lia. simpl.
    eexists. split; [done|]. by rewrite length_insert.
Qed.

Lemma setitem_out_of_range {A : Type} (l : list A) (k : Z) (x : A) :
  ¬ (- Z.of_nat (length l) ≤ k < Z.of_nat (length l)) →
  setitem l k x = Raise IndexError.
Proof.
  intros Hk. unfold setitem, py_index.
  rewrite decide_False by lia. by rewrite decide_False by lia.
Qed.

Lemma setitems_out_of_range {A : Type} (l : list A) (idx : list Z) (x : A) :
  Exists (λ k, ¬ (- Z.of_nat (length l) ≤ k < Z.of_nat (length l))) idx →
  setitems l idx x = Raise IndexError.
Proof.
  unfold setitems. revert l. induction idx as [|k idx IH]; intros l Hex.
  - by apply Exists_nil in Hex.
  - change (for_in (k :: idx) (λ k acc, setitem acc k x) l)
      with (setitem l k x ≫= for_in idx (λ k acc, setitem acc k x)).
    destruct (decide (- Z.of_nat (length l) ≤ k < Z.of_nat (length l)))
      as [Hk|Hk].
    + destruct (setitem_wraps l k x Hk) as (l' & -> & Hl'). simpl.
      apply IH. rewrite Hl'.
      by apply Exists_cons in Hex as [Hex|Hex].
    + by rewrite setitem_out_of_range.
Qed.

(** X12 (boundary ids out of range).  On well-formed tables and cell areas,
    a [boundary_nodes] array holding an id outside [-N, N) makes the
    accumulator raise [IndexError] (ids in [-N, 0) are not refused: numpy
    counts them from the end). *)
Theorem boundary_id_out_of_range_raises (n q : nat) r p s area runoff bn :
  tables_ok n q r p → (0 < n)%nat →
  size_ok n area → size_ok n runoff →
  Exists (λ k, ¬ (- Z.of_nat n ≤ k < Z.of_nat n)) bn →
  find_drainage_area_and_discharge_to_n s r p area runoff (Some bn)
  = Raise IndexError.
Proof.
  intros Hok Hn Ha Hr Hex.
  destruct (shape_ok Hok) as [Hsh|[-> _]]; [|lia].
  destruct (zeros_plus_spec n area Ha) as (a1 & Ha1 & Hla1 & _).
  destruct (np_binop_size_ok n Qmult area runoff Ha Hr) as (local & Hlocal & Hsz).
  destruct (zeros_plus_spec n local Hsz) as (q1 & Hq1 & _ & _).
  unfold find_drainage_area_and_discharge_to_n.
  rewrite Hsh, Ha1. simpl. rewrite Hlocal. simpl. rewrite Hq1. simpl.
  rewrite (setitems_out_of_range a1 bn 0%Q); [done|]. by rewrite Hla1.
Qed.

Lemma boundary_id_out_of_range_raises_witness :
  find_drainage_area_and_discharge_to_n [4; 5; 1; 7; 2; 6; 0; 8; 3; 9]
    r_ref p_ref (Float 1) (Float 1) (Some [0; 10]) = Raise IndexError.
Proof.
  apply (boundary_id_out_of_range_raises 10 2);
    [apply tables_ok_ref|lia|exact I|exact I|by_compute].
Defined.

Lemma zeros_plus_mismatch (n : nat) (xs : list Q) :
  (1 < n)%nat → length xs ≠ n → length xs ≠ 1%nat →
  zeros_plus n (Ndarray xs) = Raise ValueError.
Proof.
  intros Hn Hl H1. unfold zeros_plus, np_binop.
  rewrite decide_False by (rewrite length_replicate; lia).
  destruct n as [|[|n]]; [lia..|].
  by destruct xs as [|? [|? ?]].
Qed.

Lemma zeros_plus_singleton (n : nat) (c : Q) :
  (1 < n)%nat → zeros_plus n (Ndarray [c]) = zeros_plus n (Float c).
Proof.
  intros Hn. unfold zeros_plus, np_binop.
  rewrite decide_False by (rewrite length_replicate; simpl; lia).
  by destruct n as [|[|n]]; [lia..|].
Qed.

Lemma local_singleton (n : nat) (c : Q) runoff :
  (1 < n)%nat →
  np_binop Qmult (Ndarray [c]) runoff ≫= zeros_plus n
  = np_binop Qmult (Float c) runoff ≫= zeros_plus n.
Proof.
  intros Hn. destruct runoff as [y|ys]; unfold np_binop.
  - simpl. by apply zeros_plus_singleton.
  - case_decide as Hys.
    + by destruct ys as [|y [|? ?]].
    + by destruct ys as [|y [|? ?]].
Qed.

(** X13 (cell areas of the wrong length).  On well-formed tables over
    [N >= 2] nodes, a cell-area array whose length is neither [N] nor 1 makes
    the accumulator raise [ValueError]; an array of length 1 is accepted and
    broadcast like a scalar. *)
Theorem cell_area_length_mismatch_raises (n q : nat) r p s xs runoff bn :
  tables_ok n q r p → (1 < n)%nat →
  length xs ≠ n →
  (length xs ≠ 1%nat →
   find_drainage_area_and_discharge_to_n s r p (Ndarray xs) runoff bn
   = Raise ValueError)
  ∧ (∀ c, xs = [c] →
     find_drainage_area_and_discharge_to_n s r p (Ndarray xs) runoff bn
     = find_drainage_area_and_discharge_to_n s r p (Float c) runoff bn).
Proof.
  intros Hok Hn Hlen.
  destruct (shape_ok Hok) as [Hsh|[-> _]]; [|lia].
  split.
  - intros Hl1. unfold find_drainage_area_and_discharge_to_n.
    by rewrite Hsh, zeros_plus_mismatch.
  - intros c ->. pose proof (local_singleton n c runoff Hn) as Hloc.
    unfold find_drainage_area_and_discharge_to_n.
    rewrite Hsh, zeros_plus_singleton by done.
    revert Hloc.
    generalize (np_binop Qmult (Ndarray [c]) runoff)
               (np_binop Qmult (Float c) runoff).
    intros m1 m2 Hloc.
    destruct (zeros_plus n (Float c)) as [a1| |]; [|done..].
    destruct m1 as [l1| |], m2 as [l2| |];
      cbn -[zeros_plus] in Hloc |- *; try done;
      first [by rewrite Hloc|by rewrite <- Hloc|by injection Hloc as ->].
Qed.

Lemma cell_area_length_mismatch_raises_witness :
  find_drainage_area_and_discharge_to_n [4; 5; 1; 7; 2; 6; 0; 8; 3; 9]
    r_ref p_ref (Ndarray [1; 1; 1]%Q) (Float 1) None = Raise ValueError.
Proof.
  apply (cell_area_length_mismatch_raises 10 2 r_ref p_ref);
    [apply tables_ok_ref|lia|simpl; lia|simpl; lia].
Defined.

(** * Inputs the entry points refuse *)

Lemma baselevel_of_no_columns (n : nat) :
  (0 < n)%nat → baselevel_of (replicate n []) = Raise IndexError.
Proof. intros Hn. destruct n as [|n]; [lia|]. done. Qed.

(** X14 (empty and mismatched tables).  A receiver table without entries
    makes the donor count raise [ValueError] (the maximum of an empty array);
    a table with [N >= 1] rows and no columns makes
    [make_ordered_node_array_to_n] raise [IndexError] at [r[:, 0]]; and
    [flow_accumulation_to_n] raises [AssertionError] whenever the two tables
    differ in shape, whatever else is wrong with them. *)
Theorem empty_and_mismatched_tables_raise :
  (∀ r p, concat r = [] →
          _make_number_of_donors_array_to_n r p = Raise ValueError)
  ∧ (∀ (n fuel : nat) p, (0 < n)%nat →
       make_ordered_node_array_to_n fuel (replicate n []) p = Raise IndexError)
  ∧ (∀ fuel r p area runoff bn, shape r ≠ shape p →
       flow_accumulation_to_n fuel r p area runoff bn = Raise AssertionError).
Proof.
  split; [|split].
  - intros r p Hr. unfold _make_number_of_donors_array_to_n. by rewrite Hr.
  - intros n fuel p Hn. unfold make_ordered_node_array_to_n.
    by rewrite baselevel_of_no_columns.
  - intros fuel r p area runoff bn Hne. unfold flow_accumulation_to_n.
    by rewrite decide_False.
Qed.

(** * Route to one: areas count the upstream nodes *)

(** [flows r p x y]: node [x] passes flow on to another node [y]. *)
Definition flows (r : list (list Z)) (p : list (list Q)) (x y : Z) : Prop :=
  edge r p x y ∧ x ≠ y.

(** Route to one: a node passes flow on through at most one slot, and that
    slot carries proportion 1. *)
Definition route_to_one (r : list (list Z)) (p : list (list Q)) : Prop :=
  ∀ (u k k' : nat) x x' pr pr',
    entry r p u k x pr → (0 < pr)%Q → x ≠ Z.of_nat u →
    entry r p u k' x' pr' → (0 < pr')%Q → x' ≠ Z.of_nat u →
    k = k' ∧ (pr == 1)%Q.

Lemma entry_fun r p (u k : nat) x x' pr pr' :
  entry r p u k x pr → entry r p u k x' pr' → x = x' ∧ pr = pr'.
Proof.
  intros (row & prow & Hr & Hp & Hx & Hpr) (row' & prow' & Hr' & Hp' & Hx' & Hpr').
  simplify_eq. done.
Qed.

(** [U] lists, once each, the nodes whose flow passes through [v], the node
    [v] itself included. *)
Definition upstream_list (n : nat) (r : list (list Z)) (p : list (list Q))
    (U : list nat) (v : nat) : Prop :=
  NoDup U
  ∧ ∀ w, w ∈ U ↔ (w < n)%nat ∧ rtc (flows r p) (Z.of_nat w) (Z.of_nat v).

Section route_to_one.
Context {n q : nat} {r : list (list Z)} {p : list (list Q)}.
Context (Hok : tables_ok n q r p).
Context (Hone : route_to_one r p).
Context {s : list Z} (Hperm : s ≡ₚ range n) (Htopo : topological r p s).

Lemma flows_fun x y y' : flows r p x y → flows r p x y' → y = y'.
Proof.
  intros [(Hx & k & pr & Hent & Hpos) Hne] [(_ & k' & pr' & Hent' & Hpos') Hne'].
  destruct (Hone _ k k' y y' pr pr' Hent Hpos ltac:(lia) Hent' Hpos' ltac:(lia))
    as [<- _].
  by destruct (entry_fun _ _ _ _ _ _ _ _ Hent Hent').
Qed.

Lemma passes_one (u v : nat) :
  flows r p (Z.of_nat u) (Z.of_nat v) → (passes q r p u v == 1)%Q.
Proof.
  intros [(_ & k0 & pr0 & Hent & Hpos) Hne]. rewrite Nat2Z.id in Hent.
  assert (k0 < q)%nat as Hk0.
  { destruct Hent as (row & prow & Hr & _ & Hx%lookup_lt_Some & _).
    destruct Hok as [[_ Hrq] _ _].
    by rewrite (Forall_lookup_1 _ _ _ _ Hrq Hr) in Hx. }
  unfold passes.
  rewrite (sum_nodes_bump q _ (λ _, 0%Q) k0 1%Q); [|done| |].
  - rewrite sum_nodes_zero by done. ring.
  - intros k Hk Hkk.
    assert (weight r p u k v = 0%Q) as ->; [|reflexivity].
    unfold weight.
    destruct (r !! u) as [row|] eqn:Hr; [|done].
    destruct (p !! u) as [prow|] eqn:Hp; [|done].
    destruct (row !! k) as [x|] eqn:Hx; [|done].
    destruct (prow !! k) as [pr|] eqn:Hpr; [|done].
    case_decide as Hc; [|done]. destruct (gt0 pr) eqn:Hg; [|done].
    apply gt0_spec in Hg. destruct Hc as [-> _].
    assert (entry r p u k (Z.of_nat v) pr) as Hent' by by exists row, prow.
    destruct (Hone _ k k0 _ _ pr pr0 Hent' Hg ltac:(lia) Hent Hpos ltac:(lia)).
    lia.
  - rewrite (weight_entry _ _ _ _ _ _ _ Hent).
    rewrite decide_True by (split; [done|lia]).
    rewrite (proj2 (gt0_spec pr0) Hpos).
    destruct (Hone _ k0 k0 _ _ pr0 pr0 Hent Hpos ltac:(lia) Hent Hpos ltac:(lia))
      as [_ ->]. ring.
Qed.

Lemma node_position (x : Z) : 0 ≤ x < Z.of_nat n → ∃ i, s !! i = Some x.
Proof.
  intros Hx. apply list_elem_of_lookup. rewrite Hperm. by apply elem_of_range.
Qed.

(** Flow runs towards the front of a topological order. *)
Lemma rtc_flows_pos x y (i j : nat) :
  rtc (flows r p) x y → s !! i = Some y → s !! j = Some x → (i ≤ j)%nat.
Proof.
  intros Hrtc. revert j. induction Hrtc as [x|x z y [He Hne] _ IH]; intros j Hi Hj.
  - assert (NoDup s) as Hnd by (rewrite Hperm; apply NoDup_range).
    by rewrite (NoDup_lookup _ _ _ _ Hnd Hi Hj).
  - destruct (node_position z) as [m Hm];
      [by apply (edge_receiver_in_range n q r p x z)|].
    pose proof (Htopo x z m j He Hne Hm Hj). specialize (IH m Hi Hm). lia.
Qed.

Lemma no_flow_cycle x y :
  0 ≤ x < Z.of_nat n → flows r p x y → rtc (flows r p) y x → False.
Proof.
  intros Hx [He Hne] Hrtc.
  destruct (node_position x Hx) as [j Hj].
  destruct (node_position y) as [i Hi];
    [by apply (edge_receiver_in_range n q r p x y)|].
  pose proof (Htopo x y i j He Hne Hi Hj).
  pose proof (rtc_flows_pos y x j i Hrtc Hj Hi). lia.
Qed.

(** From one node the flow follows a single path. *)
Lemma rtc_flows_linear w u u' :
  rtc (flows r p) w u → rtc (flows r p) w u' →
  rtc (flows r p) u u' ∨ rtc (flows r p) u' u.
Proof.
  intros Hu. revert u'. induction Hu as [w|w w1 u Hw Hu IH]; intros u' Hu'.
  - by left.
  - inversion Hu' as [|? w1' ? Hw' Hrest]; subst.
    + right. by eapply rtc_l.
    + rewrite <- (flows_fun w w1 w1' Hw Hw') in Hrest. by apply IH.
Qed.

(** Two different donors of one node have no upstream node in common. *)
Lemma donors_disjoint w u u' v :
  0 ≤ u < Z.of_nat n → 0 ≤ u' < Z.of_nat n → u ≠ u' →
  flows r p u v → flows r p u' v →
  rtc (flows r p) w u → rtc (flows r p) w u' → False.
Proof.
  intros Hu Hu' Hne Hf Hf' Hw Hw'.
  destruct (rtc_flows_linear w u u' Hw Hw') as [Hrtc|Hrtc].
  - inversion Hrtc as [|? y ? Hy Hrest]; subst; [done|].
    rewrite (flows_fun u y v Hy Hf) in Hrest.
    by apply (no_flow_cycle u' v Hu' Hf' Hrest).
  - inversion Hrtc as [|? y ? Hy Hrest]; subst; [done|].
    rewrite (flows_fun u' y v Hy Hf') in Hrest.
    by apply (no_flow_cycle u v Hu Hf Hrest).
Qed.

Context (a : list Q).
Context (Hbal : ∀ v, (v < n)%nat → (at_ a v == 1 + inflow n q r p a v)%Q).

Lemma inject_length_app {A : Type} (l k : list A) :
  (inject_Z (Z.of_nat (length (l ++ k)))
   == inject_Z (Z.of_nat (length l)) + inject_Z (Z.of_nat (length k)))%Q.
Proof. by rewrite length_app, Nat2Z.inj_add, inject_Z_plus. Qed.

(** What the donors [u < n'] of [v] bring, when the value of each donor is
    the number of its upstream nodes. *)
Lemma donors_sum (v : nat) :
  (∀ u, (u < n)%nat → flows r p (Z.of_nat u) (Z.of_nat v) →
        ∃ U, upstream_list n r p U u
             ∧ (at_ a u == inject_Z (Z.of_nat (length U)))%Q) →
  ∀ n', (n' ≤ n)%nat →
    ∃ L, NoDup L
      ∧ (∀ w, w ∈ L ↔
           (w < n)%nat
           ∧ ∃ u, (u < n')%nat ∧ flows r p (Z.of_nat u) (Z.of_nat v)
                  ∧ rtc (flows r p) (Z.of_nat w) (Z.of_nat u))
      ∧ (sum_nodes n' (λ u, passes q r p u v * at_ a u)
         == inject_Z (Z.of_nat (length L)))%Q.
Proof.
  intros Hdon. induction n' as [|n' IH]; intros Hn'.
  - exists []. split; [constructor|]. split; [|reflexivity].
    intros w. split; [by intros ?%elem_of_nil|]. intros (_ & u & Hu & _). lia.
  - destruct (IH ltac:(lia)) as (L & Hnd & Hmem & Hsum).
    destruct (decide ((Z.of_nat n', Z.of_nat v) ∈ edges_of r p ∧ n' ≠ v))
      as [[He%elem_of_edges_of Hne]|Hno].
    + assert (flows r p (Z.of_nat n') (Z.of_nat v)) as Hf by (split; [done|lia]).
      destruct (Hdon n' ltac:(lia) Hf) as (U & [HndU HmemU] & HvalU).
      exists (L ++ U). split; [|split].
      * apply NoDup_app. split; [done|]. split; [|done].
        intros w (Hw & u & Hu & Hfu & Hrtc)%Hmem (_ & Hrtc')%HmemU.
        apply (donors_disjoint (Z.of_nat w) (Z.of_nat u) (Z.of_nat n')
                 (Z.of_nat v)); try done; lia.
      * intros w. rewrite elem_of_app, Hmem, HmemU. split.
        -- intros [(Hw & u & Hu & Hfu & Hrtc)|(Hw & Hrtc)].
           ++ split; [done|]. exists u. split; [lia|done].
           ++ split; [done|]. exists n'. split; [lia|done].
        -- intros (Hw & u & Hu & Hfu & Hrtc).
           destruct (decide (u = n')) as [->|Hun]; [by right|].
           left. split; [done|]. exists u. split; [lia|done].
      * rewrite sum_nodes_S, Hsum, (passes_one n' v Hf), HvalU.
        rewrite inject_length_app. ring.
    + exists L. split; [done|]. split.
      * intros w. rewrite Hmem. split.
        -- intros (Hw & u & Hu & Hfu & Hrtc). split; [done|].
           exists u. split; [lia|done].
        -- intros (Hw & u & Hu & Hfu & Hrtc). split; [done|].
           exists u. split; [|done].
           destruct (decide (u = n')) as [->|?]; [|lia].
           exfalso. apply Hno. destruct Hfu as [He Hne].
           split; [by apply elem_of_edges_of|lia].
      * rewrite sum_nodes_S, Hsum, passes_no_edge; [ring|].
        intros [He Hne]. apply Hno. split; [by apply elem_of_edges_of|done].
Qed.

(** Along the order, from the upstream end: the value of a node is the
    number of its upstream nodes. *)
Lemma area_counts (m : nat) : ∀ (i v : nat),
  s !! i = Some (Z.of_nat v) → (n - i ≤ m)%nat →
  ∃ U, upstream_list n r p U v
       ∧ (at_ a v == inject_Z (Z.of_nat (length U)))%Q.
Proof.
  induction m as [|m IH]; intros i v Hi Hm.
  - apply lookup_lt_Some in Hi.
    assert (length s = n) by by rewrite Hperm, range_length. lia.
  - assert (v < n)%nat as Hv.
    { assert (Z.of_nat v ∈ range n) as Hin
        by (rewrite <- Hperm; by apply (list_elem_of_lookup_2 _ i)).
      apply elem_of_range in Hin. lia. }
    destruct (donors_sum v) with (n' := n) as (L & Hnd & Hmem & Hsum); [|done|].
    { intros u Hu [He Hne].
      destruct (node_position (Z.of_nat u) ltac:(lia)) as [j Hj].
      pose proof (Htopo _ _ i j He Hne Hi Hj).
      apply (IH j u Hj). lia. }
    exists (v :: L). split; [split|].
    + apply NoDup_cons. split; [|done].
      intros (_ & u & Hu & Hfu & Hrtc)%Hmem.
      apply (no_flow_cycle (Z.of_nat u) (Z.of_nat v)); [lia|done..].
    + intros w. rewrite elem_of_cons, Hmem. split.
      * intros [->|(Hw & u & Hu & Hfu & Hrtc)]; [done|].
        split; [done|]. by eapply rtc_r.
      * intros [Hw Hrtc].
        apply rtc_inv_r in Hrtc as [Heq|(y & Hrtc & Hfy)]; [left; lia|].
        right. split; [done|].
        assert (0 ≤ y < Z.of_nat n) as Hy
          by (destruct Hfy as [He _]; by apply (edge_donor_in_range n q r p y (Z.of_nat v))).
        exists (Z.to_nat y). rewrite Z2Nat.id by lia.
        split; [lia|done].
    + rewrite (Hbal v Hv). unfold inflow. rewrite Hsum.
      change (length (v :: L)) with (S (length L)).
      rewrite Nat2Z.inj_succ, <- Z.add_1_l, inject_Z_plus. reflexivity.
Qed.

End route_to_one.

Lemma route_to_one_single_column (n : nat) r p :
  tables_ok n 1 r p →
  Forall (Forall (λ pr, gt0 pr = false ∨ Qeq_bool pr 1 = true)) p →
  route_to_one r p.
Proof.
  intros [_ [_ Hpq] _] Hall u k k' x x' pr pr'
    (row & prow & _ & Hp & _ & Hpr) Hpos _
    (row' & prow' & _ & Hp' & _ & Hpr') _ _.
  simplify_eq.
  pose proof (Forall_lookup_1 _ _ _ _ Hpq Hp) as Hlen. simpl in Hlen.
  pose proof (lookup_lt_Some _ _ _ Hpr). pose proof (lookup_lt_Some _ _ _ Hpr').
  split; [lia|].
  pose proof (Forall_lookup_1 _ _ _ _ (Forall_lookup_1 _ _ _ _ Hall Hp) Hpr)
    as [Hg|Heq]; simpl in *.
  - apply gt0_spec in Hpos. congruence.
  - by apply Qeq_bool_iff.
Qed.

(** X15 (unit cell areas count the upstream nodes).  On a route-to-one table
    (every node passes its flow on through at most one slot, of proportion
    1), with the default cell area 1, no boundary nodes and a
    downstream-to-upstream order of all nodes, the drainage area of every
    node is the number of nodes whose flow passes through it, itself
    included, as the docstring says. *)
Theorem unit_area_counts_upstream_nodes (n q : nat) r p s runoff :
  tables_ok n q r p → s ≡ₚ range n → topological r p s →
  route_to_one r p → size_ok n runoff →
  ∃ a dq,
    find_drainage_area_and_discharge_to_n s r p (Float 1) runoff None
      = Ok (a, dq)
    ∧ length a = n
    ∧ ∀ v, (v < n)%nat →
        ∃ U, upstream_list n r p U v
             ∧ (at_ a v == inject_Z (Z.of_nat (length U)))%Q.
Proof.
  intros Hok Hperm Htopo Hone Hr.
  destruct (find_drainage_balances Hok s (Float 1) runoff None Hperm Htopo I Hr I)
    as (a & dq & local & Hrun & _ & Hla & _ & Hba & _).
  exists a, dq. split; [done|]. split; [done|]. intros v Hv.
  destruct (node_position Hperm (Z.of_nat v) ltac:(lia)) as [i Hi].
  apply (area_counts Hok Hone Hperm Htopo a Hba n i v Hi). lia.
Qed.

(** A small tree: node 0 is the outlet, node 1 drains to it, nodes 2 and 3
    drain to node 1. *)
Definition r_tree : list (list Z) := [[0]; [0]; [1]; [1]].
Definition p_tree : list (list Q) := [[1]; [1]; [1]; [1]]%Q.

Lemma unit_area_counts_upstream_nodes_witness :
  ∃ a dq,
    find_drainage_area_and_discharge_to_n [0; 1; 2; 3] r_tree p_tree
      (Float 1) (Float 1) None = Ok (a, dq)
    ∧ length a = 4%nat
    ∧ ∀ v, (v < 4)%nat →
        ∃ U, upstream_list 4 r_tree p_tree U v
             ∧ (at_ a v == inject_Z (Z.of_nat (length U)))%Q.
Proof.
  assert (tables_ok 4 1 r_tree p_tree) as Hok
    by (apply tables_ok_by_check; by_compute).
  apply (unit_area_counts_upstream_nodes 4 1 r_tree p_tree [0; 1; 2; 3]
           (Float 1) Hok);
    [apply permutation_by_check; by_compute
    |apply topological_by_check; by_compute
    |apply (route_to_one_single_column 4 _ _ Hok); by_compute
    |exact I].
Defined.

(** * Out-of-range receivers at the entry points *)



